(** * stress-ng: shared heap, bad-address sandbox, sysfs walker and timerfd

    A shallow embedding of four parts of stress-ng:
    - [core-shared-heap.c]: the process-shared bump allocator, its
      constant-string interning, and the calls of several processes that
      overlap ([Module SharedHeap]);
    - [stress-sysbadaddr.c]: one trial of a system call on a bad address,
      run in a forked child and reaped by the parent, the addresses, the
      child that runs the trials and the stressor that forks and reaps it
      ([Module SysBadAddr]);
    - [stress-sysfs.c]: the /sys walker, its reader threads and the
      SIGSEGV recovery point ([Module SysFs]);
    - [stress-timerfd.c]: the timer stressor and the setting of its timer
      ([Module TimerFd]).

    The definitions come first, module by module; the facts about them
    follow in the modules [SharedHeapFacts], [SharedHeapProps],
    [SysBadAddrFacts], [SysBadAddrProps], [SysFsFacts], [SysFsProps] and
    [TimerFdFacts].

    Conventions.  The target is LP64: [size_t] is a 64-bit unsigned
    integer, [ssize_t] its signed reading, [int] is 32 bits and
    [sizeof(void * )] is 8.  Machine integers are [Z] with the wrap-around
    written out.  Pointers are addresses in [Z]; [NULL] is 0. *)

From Stdlib Require Import ZArith Lia List String Ascii Bool.
From Stdlib Require Floats.PrimFloat Floats.SpecFloat Floats.FloatOps Uint63.
From stdpp Require Import base gmap strings list pretty.

Local Open Scope Z_scope.

(** ** Machine integers *)

Definition wrap64 (z : Z) : Z := z mod 2 ^ 64.

(** [(ssize_t)z] for a 64-bit [z]. *)
Definition to_ssize (z : Z) : Z :=
  if wrap64 z <? 2 ^ 63 then wrap64 z else wrap64 z - 2 ^ 64.

(** A value stored in an [int], 32 bits wide. *)
Definition wrap_int (z : Z) : Z := (z + 2 ^ 31) mod 2 ^ 32 - 2 ^ 31.

(** [~z] on 64 bits. *)
Definition lnot64 (z : Z) : Z := wrap64 (Z.lnot z).

Definition NULL : Z := 0.
Definition sizeof_ptr : Z := 8.

(** [(size + sizeof(void * ) - 1) & ~(sizeof(void * ) - 1)] in [size_t]:
    the block a request of [size] bytes takes from the heap. *)
Definition rounded (size : Z) : Z :=
  Z.land (wrap64 (size + sizeof_ptr - 1)) (lnot64 (sizeof_ptr - 1)).

(** [(void * )-1], what a failed [mmap] returns. *)
Definition MAP_FAILED : Z := 2 ^ 64 - 1.

(** ** C strings

    A [const char *] argument is modelled by the bytes it points to; the
    string proper ends before the first NUL byte. *)

Definition NUL : ascii := Ascii.zero.

Fixpoint cstr (s : string) : string :=
  match s with
  | EmptyString => EmptyString
  | String c s' => if Ascii.eqb c NUL then EmptyString else String c (cstr s')
  end.

Definition strlen (s : string) : Z := Z.of_nat (String.length (cstr s)).

Definition byte_of (c : ascii) : Z := Z.of_N (N_of_ascii c).

(** [strcmp]: the difference of the first pair of bytes that differ, the
    terminator included; 0 when the strings agree up to their terminators. *)
Fixpoint strcmp (a b : string) : Z :=
  match a, b with
  | EmptyString, EmptyString => 0
  | EmptyString, String d _ => 0 - byte_of d
  | String c _, EmptyString => byte_of c - 0
  | String c a', String d b' =>
      if Ascii.eqb c d
      then (if Ascii.eqb c NUL then 0 else strcmp a' b')
      else byte_of c - byte_of d
  end.

Module SharedHeap.

(** ** Data *)

(** [stress_shared_heap_str_t]: a link and the string that follows it. *)
Record stress_shared_heap_str := mk_heap_str {
  next : Z;
  str : string
}.

(** Modelled from the spec: the [shared_heap] member of [g_shared], whose
    declaration is in stress-ng.h: the head of the list of interned
    strings, the lock, the base address and the capacity of the region,
    the bump offset and the out-of-memory flag. *)
Record shared_heap := mk_shared_heap {
  str_list_head : Z;
  lock : Z;
  heap : Z;
  heap_size : Z;
  offset : Z;
  out_of_memory : bool
}.

(** What the allocator does to the outside world. *)
Inductive event :=
| EvMmap (len : Z) (ret : Z)
| EvMunmap (addr : Z) (len : Z)
| EvLockCreate (ret : Z)
| EvLockDestroy (l : Z)
| EvPrInf
| EvPrDbg (used : Z) (total : Z).

(** The state the allocator runs in: the shared structure, the contents of
    memory at the addresses where nodes were written ([mem], one entry per
    node, keyed by the node's address), the return values the environment
    will give to the coming library calls whose outcome the code cannot
    decide ([oracle], consumed front first), and the log of external
    effects. *)
Record world := mk_world {
  g_shared : shared_heap;
  mem : gmap Z stress_shared_heap_str;
  oracle : list Z;
  trace : list event
}.

(** ** A state monad with undefined behaviour

    [None] stands for a run with no result: a walk that never ends or a
    read through a wild pointer. *)

Definition M (A : Type) : Type := world → option (A * world).

Definition ret {A} (a : A) : M A := λ w, Some (a, w).

Definition bind {A B} (m : M A) (k : A → M B) : M B :=
  λ w, match m w with
       | Some (a, w') => k a w'
       | None => None
       end.

Definition stuck {A} : M A := λ _, None.

Notation "'do' x <- m 'in' k" := (bind m (λ x, k))
  (at level 10, x name, m at level 100, k at level 200, only parsing).
Notation "'exec' m 'in' k" := (bind m (λ _, k))
  (at level 10, m at level 100, k at level 200, only parsing).

Definition upd_heap (f : shared_heap → shared_heap) (w : world) : world :=
  mk_world (f (g_shared w)) (mem w) (oracle w) (trace w).

Definition upd_mem
    (f : gmap Z stress_shared_heap_str → gmap Z stress_shared_heap_str)
    (w : world) : world :=
  mk_world (g_shared w) (f (mem w)) (oracle w) (trace w).

Definition upd_trace (f : list event → list event) (w : world) : world :=
  mk_world (g_shared w) (mem w) (oracle w) (f (trace w)).

(** The world once the environment has given its next answer. *)
Definition pop (w : world) : world :=
  mk_world (g_shared w) (mem w) (tail (oracle w)) (trace w).

Definition get_heap : M shared_heap := λ w, Some (g_shared w, w).

Definition set_heap (f : shared_heap → shared_heap) : M unit :=
  λ w, Some (tt, upd_heap f w).

Definition get_mem : M (gmap Z stress_shared_heap_str) := λ w, Some (mem w, w).

Definition set_mem
    (f : gmap Z stress_shared_heap_str → gmap Z stress_shared_heap_str)
  : M unit :=
  λ w, Some (tt, upd_mem f w).

Definition emit (e : event) : M unit :=
  λ w, Some (tt, upd_trace (λ t, t ++ [e]) w).

(** The next answer of the environment, [default] once the script is used
    up. *)
Definition ask (default : Z) : M Z :=
  λ w, Some (hd default (oracle w), pop w).

Definition with_str_list_head (v : Z) (h : shared_heap) : shared_heap :=
  mk_shared_heap v (lock h) (heap h) (heap_size h) (offset h) (out_of_memory h).
Definition with_lock (v : Z) (h : shared_heap) : shared_heap :=
  mk_shared_heap (str_list_head h) v (heap h) (heap_size h) (offset h) (out_of_memory h).
Definition with_heap (v : Z) (h : shared_heap) : shared_heap :=
  mk_shared_heap (str_list_head h) (lock h) v (heap_size h) (offset h) (out_of_memory h).
Definition with_heap_size (v : Z) (h : shared_heap) : shared_heap :=
  mk_shared_heap (str_list_head h) (lock h) (heap h) v (offset h) (out_of_memory h).
Definition with_offset (v : Z) (h : shared_heap) : shared_heap :=
  mk_shared_heap (str_list_head h) (lock h) (heap h) (heap_size h) v (out_of_memory h).
Definition with_out_of_memory (v : bool) (h : shared_heap) : shared_heap :=
  mk_shared_heap (str_list_head h) (lock h) (heap h) (heap_size h) (offset h) v.

(** ** Library calls the allocator relies on *)

(** Modelled from the spec: [stress_lock_acquire] (core-lock.c is not part
    of the sources at hand).  It returns a negative value when the lock
    cannot be taken; whether it can is the environment's decision.  A
    script that has run out means the lock is granted. *)
Definition stress_lock_acquire (l : Z) : M Z := ask 0.

(** Modelled from the spec: [stress_lock_release]; its result is never
    looked at. *)
Definition stress_lock_release (l : Z) : M unit := ret tt.

(** Modelled from the spec: [stress_lock_create] returns the new lock or
    [NULL]. *)
Definition stress_lock_create : M Z :=
  do l <- ask NULL in
  exec emit (EvLockCreate l) in
  ret l.

Definition stress_lock_destroy (l : Z) : M unit := emit (EvLockDestroy l).

(** [mmap(NULL, len, ...)]: the address of the new mapping or
    [MAP_FAILED]. *)
Definition mmap (len : Z) : M Z :=
  do p <- ask MAP_FAILED in
  exec emit (EvMmap len p) in
  ret p.

(** [munmap(addr, len)]: what was stored in the range is gone. *)
Definition munmap (addr len : Z) : M unit :=
  exec set_mem (filter (λ kv, ¬ (addr ≤ kv.1 < addr + len))) in
  emit (EvMunmap addr len).

(** ** Build configuration

    Values that come from headers that are not at hand and from the
    platform; they are parameters of [stress_shared_heap_init]. *)
Record config := mk_config {
  page_size : Z;                     (* stress_get_page_size() *)
  STRESS_MISC_METRICS_MAX : Z;
  STRESS_MAX : Z;                    (* number of stressors *)
  HAVE_BUILTIN_CONSTANT_P : bool
}.

(** Modelled from the spec: [KB] of stress-ng.h, 1024 bytes. *)
Definition KB : Z := 1024.

Definition STRESS_MAX_SHARED_HEAP_SIZE (cfg : config) : Z :=
  if HAVE_BUILTIN_CONSTANT_P cfg then 16 * KB else 64 * KB.

Definition STRESS_MINIMUM (a b : Z) : Z := if a <? b then a else b.

(** ** The allocator *)

Definition stress_shared_heap_init (cfg : config) : M Z :=
  let page_size := page_size cfg in
  let size :=
    wrap64 (STRESS_MISC_METRICS_MAX cfg * (32 + sizeof_ptr) * STRESS_MAX cfg) / 2 in
  let size := STRESS_MINIMUM size (STRESS_MAX_SHARED_HEAP_SIZE cfg) in
  exec set_heap (with_out_of_memory false) in
  exec set_heap (with_heap_size
         (Z.land (wrap64 (size + page_size - 1)) (lnot64 (page_size - 1)))) in
  exec set_heap (with_str_list_head NULL) in
  do p <- mmap size in
  exec set_heap (with_heap p) in
  if p =? MAP_FAILED then
    exec set_heap (with_lock NULL) in
    ret NULL
  else
    do l <- stress_lock_create in
    exec set_heap (with_lock l) in
    if l =? NULL then
      do h <- get_heap in
      exec munmap (heap h) (heap_size h) in
      exec set_heap (with_heap NULL) in
      ret NULL
    else
      ret l.

Definition stress_shared_heap_deinit : M unit :=
  do h <- get_heap in
  exec (if out_of_memory h then emit EvPrInf else ret tt) in
  exec (if 0 <? offset h then emit (EvPrDbg (offset h) (heap_size h)) else ret tt) in
  exec (if negb (heap h =? NULL) then
          exec munmap (heap h) (heap_size h) in
          set_heap (with_heap NULL)
        else ret tt) in
  exec (if negb (lock h =? NULL) then
          exec stress_lock_destroy (lock h) in
          set_heap (with_lock NULL)
        else ret tt) in
  set_heap (with_out_of_memory false).

Definition stress_shared_heap_malloc (size : Z) : M Z :=
  do h <- get_heap in
  do r <- stress_lock_acquire (lock h) in
  if r <? 0 then ret NULL
  else
    do h <- get_heap in
    let heap_free := to_ssize (heap_size h - offset h) in
    if heap_free <? to_ssize size then
      exec set_heap (with_out_of_memory true) in
      exec stress_lock_release (lock h) in
      ret NULL
    else
      let ptr := wrap64 (heap h + offset h) in
      exec set_heap (with_offset (wrap64 (offset h + rounded size))) in
      exec stress_lock_release (lock h) in
      ret ptr.

(** The [for] loop of [stress_shared_heap_dup_const]: follow the links from
    [heap_str] and return the address of the first string equal to [text],
    [NULL] when the end of the list is reached.  [fuel] bounds the number
    of nodes visited. *)
Fixpoint str_list_find (fuel : nat) (m : gmap Z stress_shared_heap_str)
    (heap_str : Z) (text : string) : option Z :=
  if heap_str =? NULL then Some NULL
  else match fuel with
       | O => None
       | S fuel' =>
           match m !! heap_str with
           | None => None
           | Some nd =>
               if strcmp text (str nd) =? 0
               then Some (heap_str + sizeof_ptr)
               else str_list_find fuel' m (next nd) text
           end
       end.

(** Every listed node was carved out of the heap below [offset] and links
    to a node allocated before it, so a walk of a sound list visits at
    most [offset] nodes; a longer walk is one that would not end. *)
Definition walk_bound (h : shared_heap) : nat := S (Z.to_nat (offset h)).

(** [strcpy(heap_str->str, text)] *)
Definition store_str (p : Z) (text : string)
    (m : gmap Z stress_shared_heap_str) : gmap Z stress_shared_heap_str :=
  <[p := mk_heap_str (from_option next 0 (m !! p)) (cstr text)]> m.

(** [heap_str->next = v] *)
Definition store_next (p : Z) (v : Z)
    (m : gmap Z stress_shared_heap_str) : gmap Z stress_shared_heap_str :=
  <[p := mk_heap_str v (from_option str EmptyString (m !! p))]> m.

Definition stress_shared_heap_dup_const (text : string) : M Z :=
  do h <- get_heap in
  do r <- stress_lock_acquire (lock h) in
  if r <? 0 then ret NULL
  else
    do h <- get_heap in
    do m <- get_mem in
    match str_list_find (walk_bound h) m (str_list_head h) text with
    | None => stuck
    | Some found =>
        if negb (found =? NULL) then
          exec stress_lock_release (lock h) in
          ret found
        else
          exec stress_lock_release (lock h) in
          let len := wrap64 (strlen text + 1 + sizeof_ptr) in
          do heap_str <- stress_shared_heap_malloc len in
          if heap_str =? NULL then ret NULL
          else
            exec set_mem (store_str heap_str text) in
            exec set_mem (store_next heap_str NULL) in
            do r <- stress_lock_acquire (lock h) in
            if r <? 0 then ret (heap_str + sizeof_ptr)
            else
              do h <- get_heap in
              exec set_mem (store_next heap_str (str_list_head h)) in
              exec set_heap (with_str_list_head heap_str) in
              exec stress_lock_release (lock h) in
              ret (heap_str + sizeof_ptr)
    end.

(** ** Sound heap states

    [chain m lo hi p]: the list that starts at node [p] ends, its nodes
    are stored in [m] at addresses in [lo, hi), and every link goes to a
    lower address (a node is linked to the head that was there when it was
    allocated). *)
Inductive chain (m : gmap Z stress_shared_heap_str) (lo : Z) : Z → Z → Prop :=
| chain_nil hi : chain m lo hi NULL
| chain_cons hi p nd :
    lo ≤ p → p < hi → m !! p = Some nd →
    chain m lo p (next nd) →
    chain m lo hi p.

(** The heap is mapped at an aligned, non-null address, fits the address
    space, the bump offset is an aligned position inside it, and the
    string list lives in the part already handed out. *)
Record heap_wf (w : world) : Prop := mk_heap_wf {
  wf_heap_pos : 0 < heap (g_shared w);
  wf_heap_aligned : heap (g_shared w) mod sizeof_ptr = 0;
  wf_size_aligned : heap_size (g_shared w) mod sizeof_ptr = 0;
  wf_size_bound : heap_size (g_shared w) < 2 ^ 63;
  wf_heap_end : heap (g_shared w) + heap_size (g_shared w) < 2 ^ 64;
  wf_offset_aligned : offset (g_shared w) mod sizeof_ptr = 0;
  wf_offset_lo : 0 ≤ offset (g_shared w);
  wf_offset_hi : offset (g_shared w) ≤ heap_size (g_shared w);
  wf_chain : chain (mem w) (heap (g_shared w))
               (heap (g_shared w) + offset (g_shared w))
               (str_list_head (g_shared w))
}.

(** The same, as a check that runs. *)
Fixpoint chainb (fuel : nat) (m : gmap Z stress_shared_heap_str)
    (lo hi p : Z) : bool :=
  if p =? NULL then true
  else match fuel with
       | O => false
       | S fuel' =>
           match m !! p with
           | None => false
           | Some nd => (lo <=? p) && (p <? hi) && chainb fuel' m lo p (next nd)
           end
       end.

Definition heap_wfb (w : world) : bool :=
  let h := g_shared w in
  (0 <? heap h) && (heap h mod sizeof_ptr =? 0) &&
  (heap_size h mod sizeof_ptr =? 0) && (heap_size h <? 2 ^ 63) &&
  (heap h + heap_size h <? 2 ^ 64) &&
  (offset h mod sizeof_ptr =? 0) && (0 <=? offset h) &&
  (offset h <=? heap_size h) &&
  chainb (walk_bound h) (mem w) (heap h) (heap h + offset h) (str_list_head h).

(** Every lock acquisition to come succeeds. *)
Definition locks_granted (w : world) : Prop := Forall (λ r, 0 ≤ r) (oracle w).

Definition locks_grantedb (w : world) : bool := forallb (λ r, 0 <=? r) (oracle w).

(** A string short enough for its length plus the node header to be a
    positive [ssize_t]. *)
Definition fits (text : string) : Prop := strlen text + 1 + sizeof_ptr < 2 ^ 63.

(** What the list walk of [stress_shared_heap_dup_const] finds for [text]
    in the current state. *)
Definition lookup_text (w : world) (text : string) : option Z :=
  str_list_find (walk_bound (g_shared w)) (mem w)
    (str_list_head (g_shared w)) text.

(** ** Runs of several calls *)

(** [allocate] called on each size in turn; the pointer returned to each
    call, with the size asked for. *)
Fixpoint alloc_seq (sizes : list Z) : M (list (Z * Z)) :=
  match sizes with
  | [] => ret []
  | n :: rest =>
      do p <- stress_shared_heap_malloc n in
      do ps <- alloc_seq rest in
      ret ((p, n) :: ps)
  end.

(** The chunks a run of [allocate] hands out when nothing stops it: one
    after the other from [p], each request taking its rounded size. *)
Fixpoint chunks (p : Z) (sizes : list Z) : list (Z * Z) :=
  match sizes with
  | [] => []
  | n :: rest => (p, n) :: chunks (p + rounded n) rest
  end.

(** The room the requests take from the heap. *)
Definition demand (sizes : list Z) : Z :=
  foldr (λ n acc, rounded n + acc) 0 sizes.

(** [stress_shared_heap_dup_const] called on each string in turn; the
    pointer returned to each call, with the number of bytes by which the
    call advanced the bump offset. *)
Fixpoint intern_seq (texts : list string) : M (list (Z * Z)) :=
  match texts with
  | [] => ret []
  | t :: rest =>
      do h0 <- get_heap in
      do p <- stress_shared_heap_dup_const t in
      do h1 <- get_heap in
      do rs <- intern_seq rest in
      ret ((p, offset h1 - offset h0) :: rs)
  end.

Inductive op :=
| Alloc (size : Z)
| Intern (text : string).

Definition run_op (o : op) : M Z :=
  match o with
  | Alloc size => stress_shared_heap_malloc size
  | Intern text => stress_shared_heap_dup_const text
  end.

Fixpoint run_ops (ops : list op) : M (list Z) :=
  match ops with
  | [] => ret []
  | o :: rest =>
      do r <- run_op o in
      do rs <- run_ops rest in
      ret (r :: rs)
  end.

(** ** Starting points *)

(** [g_shared] as a fresh shared mapping holds it, zero-filled, with the
    environment's coming answers. *)
Definition boot_world (answers : list Z) : world :=
  mk_world (mk_shared_heap NULL NULL NULL 0 0 false) ∅ answers [].

(** A build for 4K pages where the compiler has [__builtin_constant_p]. *)
Definition example_config : config := mk_config 4096 40 300 true.

(** The number of bytes [stress_shared_heap_init] asks [mmap] for. *)
Definition init_request (cfg : config) : Z :=
  STRESS_MINIMUM
    (wrap64 (STRESS_MISC_METRICS_MAX cfg * (32 + sizeof_ptr) * STRESS_MAX cfg) / 2)
    (STRESS_MAX_SHARED_HEAP_SIZE cfg).

(** The heap after a successful [stress_shared_heap_init] of the example
    build, mapped at 0x7f0000000000, with the answers the locks will give
    afterwards. *)
Definition example_world (answers : list Z) : world :=
  match stress_shared_heap_init example_config
          (boot_world (139637976727552 :: 1 :: answers)) with
  | Some (_, w) => w
  | None => boot_world []
  end.

(** The state after a node for [text] has been written at [p] with its
    link set to [link]. *)
Definition write_node (p link : Z) (text : string) (w : world) : world :=
  upd_mem (λ m, <[p := mk_heap_str link (cstr text)]> m) w.

(** A build with few stressors, whose heap is a single 4096-byte page, and
    the heap after a successful [stress_shared_heap_init] of it. *)
Definition scenario_config : config := mk_config 4096 40 5 true.

Definition scenario_world (answers : list Z) : world :=
  match stress_shared_heap_init scenario_config
          (boot_world (139637976727552 :: 1 :: answers)) with
  | Some (_, w) => w
  | None => boot_world []
  end.

(** The address of the next chunk. *)
Definition top (w : world) : Z := heap (g_shared w) + offset (g_shared w).

(** A call whose argument the machine can hold: a request below
    [SSIZE_MAX], a string whose node is. *)
Definition valid_op (o : op) : Prop :=
  match o with
  | Alloc size => 0 ≤ size < 2 ^ 63
  | Intern text => fits text
  end.

(** ** The list as a sequence

    [listed m p l]: the list that starts at node [p] ends, and [l] holds
    the contents of its strings, first node first. *)
Inductive listed (m : gmap Z stress_shared_heap_str) : Z → list string → Prop :=
| listed_nil : listed m NULL []
| listed_cons p nd l :
    p ≠ NULL → m !! p = Some nd → listed m (next nd) l →
    listed m p (cstr (str nd) :: l).


(** What calls do to the heap as a whole: the region and the lock stay,
    the offset does not go back, what was written below the old offset is
    not written again, and the list keeps its strings, new ones coming
    in front, all different when they were. *)
Definition grows (w w' : world) : Prop :=
  heap (g_shared w') = heap (g_shared w) ∧
  heap_size (g_shared w') = heap_size (g_shared w) ∧
  lock (g_shared w') = lock (g_shared w) ∧
  offset (g_shared w) ≤ offset (g_shared w') ∧
  (∀ q, q < heap (g_shared w) + offset (g_shared w) →
        mem w' !! q = mem w !! q) ∧
  ∀ l, listed (mem w) (str_list_head (g_shared w)) l → NoDup l →
       ∃ added, listed (mem w') (str_list_head (g_shared w')) (added ++ l) ∧
                NoDup (added ++ l).


(** ** Calls that overlap

    [stress_shared_heap_dup_const] holds the lock twice, and not in
    between: a call of another process can run between its steps.  The
    steps of one call, each as far as the next point where the lock is
    free: *)

(** The first critical section, the walk of the list: [Some p] when the
    call returns [p] from it, [None] when the string was not found and
    the call goes on. *)
Definition dup_scan (text : string) : M (option Z) :=
  do h <- get_heap in
  do r <- stress_lock_acquire (lock h) in
  if r <? 0 then ret (Some NULL)
  else
    do h <- get_heap in
    do m <- get_mem in
    match str_list_find (walk_bound h) m (str_list_head h) text with
    | None => stuck
    | Some found =>
        if negb (found =? NULL) then
          exec stress_lock_release (lock h) in
          ret (Some found)
        else
          exec stress_lock_release (lock h) in
          ret None
    end.

(** Between the critical sections: the node is allocated and filled; the
    node, or [NULL] when there is none to be had.  [stress_shared_heap_malloc]
    holds the lock for itself, and until the node is in the list no other
    call reads or writes it: the step is taken as one. *)
Definition dup_copy (text : string) : M Z :=
  let len := wrap64 (strlen text + 1 + sizeof_ptr) in
  do heap_str <- stress_shared_heap_malloc len in
  if heap_str =? NULL then ret NULL
  else
    exec set_mem (store_str heap_str text) in
    exec set_mem (store_next heap_str NULL) in
    ret heap_str.

(** The second critical section: the node is put at the head of the
    list, if the lock can be had. *)
Definition dup_publish (heap_str : Z) : M Z :=
  do h <- get_heap in
  do r <- stress_lock_acquire (lock h) in
  if r <? 0 then ret (heap_str + sizeof_ptr)
  else
    do h <- get_heap in
    exec set_mem (store_next heap_str (str_list_head h)) in
    exec set_heap (with_str_list_head heap_str) in
    exec stress_lock_release (lock h) in
    ret (heap_str + sizeof_ptr).

(** The call, step by step. *)
Definition dup_const_in_steps (text : string) : M Z :=
  do r <- dup_scan text in
  match r with
  | Some p => ret p
  | None =>
      do heap_str <- dup_copy text in
      if heap_str =? NULL then ret NULL
      else dup_publish heap_str
  end.

(** What the processes do, in the order they do it: process [i] calls
    [stress_shared_heap_malloc], which holds the lock from end to end;
    it calls [stress_shared_heap_dup_const], which runs as far as the
    end of its first critical section; or it goes on by one step with
    the call it is in. *)
Inductive act :=
| Malloc (i : nat) (size : Z)
| Call (i : nat) (text : string)
| Go (i : nat).

(** Where a call that has not returned is. *)
Inductive stage :=
| Scanned (text : string)
| Copied (heap_str : Z).

(** One act: the calls that are under way afterwards, and the process
    and the pointer of the call that returns, if one does.  A process
    that is in a call starts no other, and one that is in none has no
    step to take. *)
Definition advance (a : act) (ps : gmap nat stage)
  : M (gmap nat stage * option (nat * Z)) :=
  match a with
  | Malloc i size =>
      match ps !! i with
      | Some _ => ret (ps, None)
      | None =>
          do p <- stress_shared_heap_malloc size in
          ret (ps, Some (i, p))
      end
  | Call i text =>
      match ps !! i with
      | Some _ => ret (ps, None)
      | None =>
          do r <- dup_scan text in
          match r with
          | Some p => ret (ps, Some (i, p))
          | None => ret (<[i := Scanned text]> ps, None)
          end
      end
  | Go i =>
      match ps !! i with
      | Some (Scanned text) =>
          do heap_str <- dup_copy text in
          if heap_str =? NULL then ret (delete i ps, Some (i, NULL))
          else ret (<[i := Copied heap_str]> ps, None)
      | Some (Copied heap_str) =>
          do p <- dup_publish heap_str in
          ret (delete i ps, Some (i, p))
      | None => ret (ps, None)
      end
  end.

(** A schedule: the calls that have returned, in the order of their
    return. *)
Fixpoint run_schedule (sched : list act) (ps : gmap nat stage)
  : M (list (nat * Z)) :=
  match sched with
  | [] => ret []
  | a :: rest =>
      do r <- advance a ps in
      do rs <- run_schedule rest (fst r) in
      ret (match snd r with
           | Some ip => ip :: rs
           | None => rs
           end)
  end.

(** A schedule in which no call overlaps another, written call by call:
    every call of [stress_shared_heap_dup_const] is followed at once by
    its own two steps.  The calls with their callers, if the schedule is
    written so. *)
Fixpoint turns (sched : list act) : option (list (nat * op)) :=
  match sched with
  | [] => Some []
  | Malloc i size :: rest => option_map (cons (i, Alloc size)) (turns rest)
  | Call i text :: Go j :: Go k :: rest =>
      if Nat.eqb i j && Nat.eqb i k
      then option_map (cons (i, Intern text)) (turns rest)
      else None
  | _ => None
  end.

(** Two processes intern the same string, the second while the first is
    between its critical sections. *)
Definition overlapped : list act :=
  [Call 0 "abcdefgh"; Call 1 "abcdefgh"; Go 0; Go 0; Go 1; Go 1].

(** The schedule in which the calls of [calls] follow one another. *)
Definition in_turn (calls : list (nat * string)) : list act :=
  flat_map (λ c, [Call (fst c) (snd c); Go (fst c); Go (fst c)]) calls.

(** The same for calls of both kinds, each with its caller. *)
Definition one_by_one (calls : list (nat * op)) : list act :=
  flat_map (λ c, match snd c with
                 | Alloc size => [Malloc (fst c) size]
                 | Intern text => [Call (fst c) text; Go (fst c); Go (fst c)]
                 end) calls.

End SharedHeap.

Module SysBadAddr.

(** ** Constants *)

Definition EXIT_SUCCESS : Z := 0.
Definition EXIT_FAILURE : Z := 1.

(** Modelled from the spec: [EXIT_NO_RESOURCE] is a constant of
    stress-ng.h, a status of its own, distinct from success and from plain
    failure. *)
Definition EXIT_NO_RESOURCE : Z := 3.

(** Linux signal numbers. *)
Definition SIGHUP : Z := 1.
Definition SIGINT : Z := 2.
Definition SIGILL : Z := 4.
Definition SIGTRAP : Z := 5.
Definition SIGIOT : Z := 6.
Definition SIGBUS : Z := 7.
Definition SIGFPE : Z := 8.
Definition SIGKILL : Z := 9.
Definition SIGSEGV : Z := 11.
Definition SIGALRM : Z := 14.

(** The signals the child catches ([SIGEMT] does not exist on Linux). *)
Definition sigs : list Z :=
  [SIGILL; SIGTRAP; SIGFPE; SIGBUS; SIGSEGV; SIGIOT; SIGALRM; SIGINT; SIGHUP].

(** ** How a process ends and what [waitpid] reports *)

Inductive termination :=
| Exited (code : Z)        (* _exit(code) *)
| Killed (signum : Z).     (* ended by a signal it did not catch *)

(** The status word the kernel hands to [waitpid]: the low 8 bits of the
    exit code in bits 8 to 15, or the signal number in the low 7 bits. *)
Definition wait_status (t : termination) : Z :=
  match t with
  | Exited code => Z.shiftl (Z.land code 255) 8
  | Killed signum => Z.land signum 127
  end.

(** Modelled from the spec: [WEXITSTATUS] is a macro of <sys/wait.h>; it
    takes the exit field of the wait status. *)
Definition WEXITSTATUS (status : Z) : Z := Z.land (Z.shiftr status 8) 255.

(** ** The operations

    The answer of the kernel to one system call of the child: it returns
    (with the value [errno] has if it failed), it raises a signal in the
    caller, or it does not come back. *)
Inductive sysret :=
| Ret (value : Z) (err : Z)
| Sig (signum : Z)
| Hang.

Record ostate := mk_ostate {
  errno : Z;
  script : list sysret      (* the kernel's coming answers *)
}.

Inductive step (A : Type) :=
| Ok (a : A) (s : ostate)
| Raise (signum : Z)
| Blocked.
Arguments Ok {A} a s.
Arguments Raise {A} signum.
Arguments Blocked {A}.

Definition O (A : Type) : Type := ostate → step A.

Definition oret {A} (a : A) : O A := λ s, Ok a s.

Definition obind {A B} (m : O A) (k : A → O B) : O B :=
  λ s, match m s with
       | Ok a s' => k a s'
       | Raise signum => Raise signum
       | Blocked => Blocked
       end.

Notation "'call' x <- m 'in' k" := (obind m (λ x, k))
  (at level 10, x name, m at level 100, k at level 200, only parsing).

(** One system call that returns an integer: it fails with a negative
    value, and then it sets [errno].  A call the kernel has no answer for
    does not return. *)
Definition syscall (what : string) : O Z :=
  λ s, match script s with
       | [] => Blocked
       | Ret value err :: rest =>
           Ok value (mk_ostate (if value <? 0 then err else errno s) rest)
       | Sig signum :: _ => Raise signum
       | Hang :: _ => Blocked
       end.

(** One library call that returns a pointer: it fails with [NULL], and
    then it sets [errno]. *)
Definition syscall_ptr (what : string) : O Z :=
  λ s, match script s with
       | [] => Blocked
       | Ret value err :: rest =>
           Ok value (mk_ostate (if value =? 0 then err else errno s) rest)
       | Sig signum :: _ => Raise signum
       | Hang :: _ => Blocked
       end.

Definition bad_syscall_t : Type := Z → O Z.

Definition bad_getcwd : bad_syscall_t := λ addr,
  call p <- syscall_ptr "getcwd(addr, 1024)" in
  if p =? 0 then oret (-1) else oret 0.

Definition bad_open : bad_syscall_t := λ addr,
  call fd <- syscall "open(addr, O_RDONLY)" in
  if negb (fd =? -1) then
    call _r <- syscall "close(fd)" in
    oret fd
  else oret fd.

Definition bad_read : bad_syscall_t := λ addr,
  call fd <- syscall "open(/dev/zero, O_RDONLY)" in
  if -1 <? fd then
    call n <- syscall "read(fd, addr, 1024)" in
    call _r <- syscall "close(fd)" in
    oret (wrap_int n)
  else oret 0.

Definition bad_time : bad_syscall_t := λ addr,
  call t <- syscall "time(addr)" in
  oret (wrap_int t).

Definition bad_write : bad_syscall_t := λ addr,
  call fd <- syscall "open(/dev/null, O_WRONLY)" in
  if -1 <? fd then
    call n <- syscall "write(fd, addr, 1024)" in
    call _r <- syscall "close(fd)" in
    oret (wrap_int n)
  else oret 0.

(** The operations modelled here, out of the table [bad_syscalls]. *)
Definition bad_syscalls : list bad_syscall_t :=
  [bad_getcwd; bad_open; bad_read; bad_time; bad_write].

(** ** The child of a trial *)

(** What the set-up calls of the child return. *)
Record child_env := mk_child_env {
  drop_capabilities_ret : Z;      (* stress_drop_capabilities() *)
  sighandler_ret : Z → Z;         (* stress_sighandler(), per signal *)
  setitimer_ret : Z;              (* setitimer() *)
  start : ostate                  (* errno and the kernel's answers at the call *)
}.

(** [stress_badhandler]: leave at once with status 1. *)
Definition stress_badhandler (signum : Z) : termination := Exited 1.

(** A signal arrives in a child that catches the signals of [handled]. *)
Definition deliver (handled : list Z) (signum : Z) : termination :=
  if existsb (Z.eqb signum) handled then stress_badhandler signum
  else Killed signum.

(** The loop that installs [stress_badhandler]: the signals caught once it
    is through, or nothing when one installation fails. *)
Fixpoint install_handlers (ce : child_env) (l : list Z) : option (list Z) :=
  match l with
  | [] => Some []
  | signum :: rest =>
      if sighandler_ret ce signum <? 0 then None
      else option_map (cons signum) (install_handlers ce rest)
  end.

(** The lines of the child from the call of the operation on, with the
    handlers of [handled] in place and the interval timer running: a call
    that does not come back is cut short by [SIGALRM] after 100ms. *)
Definition child_invoke (handled : list Z) (bad_syscall : bad_syscall_t)
    (addr : Z) (s : ostate) : termination :=
  match bad_syscall addr s with
  | Ok ret s' =>
      let ret := if ret <? 0 then errno s' else ret in
      Exited ret
  | Raise signum => deliver handled signum
  | Blocked => deliver handled SIGALRM
  end.

(** The [pid == 0] branch of [stress_do_syscall]. *)
Definition child (ce : child_env) (bad_syscall : bad_syscall_t) (addr : Z)
  : termination :=
  (* limit_procs(2); stress_unmap_shared(); *)
  if drop_capabilities_ret ce <? 0 then Exited EXIT_NO_RESOURCE
  else
    match install_handlers ce sigs with
    | None => Exited EXIT_FAILURE
    | Some handled =>
        (* setpgid(0, g_pgrp); stress_parent_died_alarm(); *)
        if setitimer_ret ce <? 0 then Exited EXIT_NO_RESOURCE
        else child_invoke handled bad_syscall addr (start ce)
    end.

(** ** The parent of a trial *)

Record parent_env := mk_parent_env {
  keep_stressing : bool;
  fork_ret : Z;
  waitpid_ret : Z;          (* the first waitpid() *)
  child_done : bool;        (* had the child ended when SIGKILL was sent? *)
  waitpid_again_ret : Z;    (* the waitpid() after the kill *)
  status_garbage : Z        (* what [status] holds when nothing was stored *)
}.

Inductive trial :=
| Returns (rc : Z) (counted : bool)   (* return rc, inc_counter() called or not *)
| Leaves (code : Z).                  (* the caller itself calls _exit *)

Definition stress_do_syscall (pe : parent_env) (ce : child_env)
    (bad_syscall : bad_syscall_t) (addr : Z) : trial :=
  if negb (keep_stressing pe) then Returns 0 false
  else if fork_ret pe <? 0 then Leaves EXIT_NO_RESOURCE
  else
    (* pid > 0: the child runs [child ce bad_syscall addr] *)
    let ended := child ce bad_syscall addr in
    let status :=
      if waitpid_ret pe <? 0 then
        (* kill(pid, SIGKILL); waitpid(pid, &status, 0) *)
        if waitpid_again_ret pe <? 0 then status_garbage pe
        else wait_status (if child_done pe then ended else Killed SIGKILL)
      else wait_status ended in
    Returns (WEXITSTATUS status) true.

(** The set-up calls of the child all succeed. *)
Definition setup_ok (ce : child_env) : Prop :=
  0 ≤ drop_capabilities_ret ce ∧
  (∀ signum, 0 ≤ sighandler_ret ce signum) ∧
  0 ≤ setitimer_ret ce.

(** A child whose set-up calls succeed, with the kernel's answers to the
    operation. *)
Definition ready_child (answers : list sysret) : child_env :=
  mk_child_env 0 (λ _, 0) 0 (mk_ostate 0 answers).

(** A parent that forks, is not interrupted and reaps its child. *)
Definition calm_parent : parent_env := mk_parent_env true 4242 4242 true 0 0.


(** ** The addresses *)

(** What the address generators read: [args->page_size], the two pages
    the stressor maps, the address of the static array [data] of
    [unaligned_addr] and the address of the function [write]. *)
Record layout := mk_layout {
  page_size : Z;
  ro_page : Z;
  rw_page : Z;
  data : Z;
  write_text : Z
}.

Definition bad_addr_t : Type := layout → Z.

Definition unaligned_addr : bad_addr_t := λ l, wrap64 (data l + 1).
Definition readonly_addr : bad_addr_t := λ l, ro_page l.
Definition null_addr : bad_addr_t := λ _, NULL.
Definition text_addr : bad_addr_t := λ l, write_text l.
Definition bad_end_addr : bad_addr_t :=
  λ l, wrap64 (rw_page l + page_size l - 1).
Definition bad_max_addr : bad_addr_t := λ _, lnot64 0.
Definition unmapped_addr : bad_addr_t := λ l, wrap64 (rw_page l + page_size l).

Definition bad_addrs : list bad_addr_t :=
  [unaligned_addr; readonly_addr; null_addr; text_addr; bad_end_addr;
   bad_max_addr; unmapped_addr].

(** ** The child that runs the trials *)

(** How far the child has come: the calls of [stress_do_syscall] made so
    far, each with the index of its operation in the table and of its
    address in [bad_addrs]; the trials counted; and the status the
    process left with, once it has. *)
Record progress := mk_progress {
  calls : list (nat * nat);
  counted : Z;
  left_with : option Z
}.

(** The environment of the [n]-th call of [stress_do_syscall], and what
    [keep_stressing()] answers the child the [n]-th time it asks
    itself. *)
Record child_world := mk_child_world {
  trial_env : nat → parent_env * child_env;
  keeps : nat → bool
}.

(** One call of [stress_do_syscall] from the loops. *)
Definition run_trial (cw : child_world) (l : layout) (i j : nat)
    (bad_syscall : bad_syscall_t) (bad_addr : bad_addr_t) (pr : progress)
  : progress :=
  let addr := bad_addr l in
  let e := trial_env cw (length (calls pr)) in
  match stress_do_syscall (fst e) (snd e) bad_syscall addr with
  | Returns _ c =>
      mk_progress (calls pr ++ [(i, j)])
        (if c then counted pr + 1 else counted pr) None
  | Leaves code =>
      mk_progress (calls pr ++ [(i, j)]) (counted pr) (Some code)
  end.

(** [for (j = 0; j < SIZEOF_ARRAY(bad_addrs); j++)] *)
Fixpoint addr_loop (cw : child_world) (l : layout) (i : nat)
    (bad_syscall : bad_syscall_t) (j : nat) (addrs : list bad_addr_t)
    (pr : progress) : progress :=
  match addrs with
  | [] => pr
  | bad_addr :: rest =>
      let pr := run_trial cw l i j bad_syscall bad_addr pr in
      match left_with pr with
      | Some _ => pr
      | None => addr_loop cw l i bad_syscall (S j) rest pr
      end
  end.

(** [for (i = 0; i < SIZEOF_ARRAY(bad_syscalls); i++)] *)
Fixpoint sys_loop (cw : child_world) (l : layout) (i : nat)
    (ops : list bad_syscall_t) (pr : progress) : progress :=
  match ops with
  | [] => pr
  | bad_syscall :: rest =>
      let pr := addr_loop cw l i bad_syscall 0 bad_addrs pr in
      match left_with pr with
      | Some _ => pr
      | None => sys_loop cw l (S i) rest pr
      end
  end.

(** [do { ... } while (keep_stressing()); _exit(EXIT_SUCCESS);], the
    test being the [asked]-th the child makes. *)
Fixpoint rounds (fuel : nat) (cw : child_world) (l : layout)
    (ops : list bad_syscall_t) (asked : nat) (pr : progress)
  : option progress :=
  match fuel with
  | 0%nat => None
  | S fuel' =>
      let pr := sys_loop cw l 0 ops pr in
      match left_with pr with
      | Some _ => Some pr
      | None =>
          if keeps cw asked then rounds fuel' cw l ops (S asked) pr
          else Some (mk_progress (calls pr) (counted pr) (Some EXIT_SUCCESS))
      end
  end.

(** The [pid == 0] branch of [stress_sysbadaddr], over the table [ops]. *)
Definition stressor_child (fuel : nat) (cw : child_world) (l : layout)
    (ops : list bad_syscall_t) : option progress :=
  if negb (keeps cw 0) then Some (mk_progress [] 0 (Some 0))
  else
    (* setpgid(0, g_pgrp); stress_parent_died_alarm();
       set_oom_adjustment(args->name, true); *)
    rounds fuel cw l ops 1 (mk_progress [] 0 None).

(** ** Reading runs of the child *)

(** The pairs of an operation of [ops] and an address of [bad_addrs], by
    their indices, in the order in which the two loops reach them. *)
Definition table (ops : list bad_syscall_t) : list (nat * nat) :=
  flat_map (λ i, map (pair i) (seq 0 (length bad_addrs)))
    (seq 0 (length ops)).

(** The [n]-th call of [stress_do_syscall] is made while the run is to go
    on, and its [fork] fails. *)
Definition fork_fails (cw : child_world) (n : nat) : Prop :=
  keep_stressing (fst (trial_env cw n)) = true ∧
  fork_ret (fst (trial_env cw n)) < 0.

(** How many of the [n] calls from the [a]-th on are made while the run is
    to go on. *)
Fixpoint tally (cw : child_world) (a n : nat) : Z :=
  match n with
  | 0%nat => 0
  | S n' =>
      (if keep_stressing (fst (trial_env cw a)) then 1 else 0)
      + tally cw (S a) n'
  end.

(** No trial of the first [n] fails to fork. *)
Definition forks_upto (cw : child_world) (n : nat) : Prop :=
  ∀ k, (k < n)%nat → ¬ fork_fails cw k.

(** The child has left with [EXIT_NO_RESOURCE] from its last trial, the
    first whose [fork] failed; or no [fork] has failed. *)
Definition starved (cw : child_world) (pr : progress) : Prop :=
  match left_with pr with
  | None => forks_upto cw (length (calls pr))
  | Some code =>
      (code = EXIT_NO_RESOURCE ∧
       ∃ k, length (calls pr) = S k ∧ fork_fails cw k ∧ forks_upto cw k)
      ∨ (code = EXIT_SUCCESS ∧ forks_upto cw (length (calls pr)))
  end.

(** A child whose trials all fork and are reaped, and that is told to go
    on [n] times. *)
Definition calm_world (n : nat) : child_world :=
  mk_child_world (λ _, (calm_parent, ready_child [])) (λ k, (k <? n)%nat).

(** A child whose [k]-th trial cannot fork. *)
Definition starved_world (k : nat) : child_world :=
  mk_child_world
    (λ i, (if (i =? k)%nat then mk_parent_env true (-1) 0 false 0 0
           else calm_parent, ready_child []))
    (λ _, true).


(** ** The stressor *)

Definition EAGAIN : Z := 11.
Definition EINTR : Z := 4.
Definition SIGTERM : Z := 15.
Definition PROT_READ : Z := 1.

(** Modelled from the spec: [WIFSIGNALED] and [WTERMSIG] are macros of
    <sys/wait.h>; the child was ended by a signal when the low 7 bits of
    the status are neither 0 (it exited) nor 127 (it is stopped), and they
    are the number of the signal. *)
Definition WTERMSIG (status : Z) : Z := Z.land status 127.

Definition WIFSIGNALED (status : Z) : bool :=
  (0 <? WTERMSIG status) && (WTERMSIG status <? 127).

(** What the stressor reads of its arguments and of the options, and the
    two addresses the generators need beside the pages. *)
Record args_t := mk_args {
  args_page_size : Z;              (* args->page_size *)
  oomable : bool;                  (* g_opt_flags & OPT_FLAGS_OOMABLE *)
  args_data : Z;
  args_write_text : Z
}.

Inductive pevent :=
| EvKeepStressing (ret : bool)
| EvMmap (len prot : Z) (ret : Z)
| EvMunmap (addr len : Z)
| EvFork (ret : Z)
| EvSetpgid (pid : Z)
| EvWaitpid (pid : Z) (ret : Z)
| EvKill (pid sig : Z)
| EvPrInf
| EvPrErr
| EvPrDbg (what : string)
| EvLogMem.                        (* log_system_mem_info() *)

(** The file-scope variables [ro_page] and [rw_page], the values the
    environment will give to the coming calls ([answers], consumed front
    first, 0 once used up) and the log of calls. *)
Record pstate := mk_pstate {
  st_ro_page : Z;
  st_rw_page : Z;
  answers : list Z;
  events : list pevent
}.

(** How the function is left: by [return], or by [_exit]. *)
Inductive leave :=
| Return (rc : Z)
| Exit (code : Z).

Definition P (A : Type) : Type := pstate → option (A * pstate).

Definition pret {A} (a : A) : P A := λ st, Some (a, st).

Definition pbind {A B} (m : P A) (k : A → P B) : P B :=
  λ st, match m st with
        | Some (a, st') => k a st'
        | None => None
        end.

Notation "'do' x <- m 'in' k" := (pbind m (λ x, k))
  (at level 10, x name, m at level 100, k at level 200, only parsing).
Notation "'exec' m 'in' k" := (pbind m (λ _, k))
  (at level 10, m at level 100, k at level 200, only parsing).

Definition p_pop (st : pstate) : pstate :=
  mk_pstate (st_ro_page st) (st_rw_page st) (tail (answers st)) (events st).

Definition p_log (ev : pevent) (st : pstate) : pstate :=
  mk_pstate (st_ro_page st) (st_rw_page st) (answers st) (events st ++ [ev]).

Definition p_ask : P Z := λ st, Some (hd 0 (answers st), p_pop st).

Definition p_emit (ev : pevent) : P unit := λ st, Some (tt, p_log ev st).

Definition get_ro_page : P Z := λ st, Some (st_ro_page st, st).
Definition get_rw_page : P Z := λ st, Some (st_rw_page st, st).

Definition set_ro_page (v : Z) : P unit :=
  λ st, Some (tt, mk_pstate v (st_rw_page st) (answers st) (events st)).
Definition set_rw_page (v : Z) : P unit :=
  λ st, Some (tt, mk_pstate (st_ro_page st) v (answers st) (events st)).

(** Modelled from the spec: [keep_stressing()], the external "keep
    running" predicate. *)
Definition ask_keep_stressing : P bool :=
  do r <- p_ask in
  exec p_emit (EvKeepStressing (negb (r =? 0))) in
  pret (negb (r =? 0)).

Definition p_mmap (len prot : Z) : P Z :=
  do r <- p_ask in
  let p := wrap64 r in
  exec p_emit (EvMmap len prot p) in
  pret p.

Definition p_munmap (addr len : Z) : P unit := p_emit (EvMunmap addr len).

Definition fork : P Z :=
  do r <- p_ask in
  exec p_emit (EvFork (wrap_int r)) in
  pret (wrap_int r).

(** [errno], as the failed call left it. *)
Definition get_errno : P Z := p_ask.

(** [waitpid(pid, &status, 0)]: the value returned and the status
    stored. *)
Definition waitpid (pid : Z) : P (Z * Z) :=
  do r <- p_ask in
  exec p_emit (EvWaitpid pid (wrap_int r)) in
  do status <- p_ask in
  pret (wrap_int r, wrap_int status).

Definition kill (pid sig : Z) : P unit := p_emit (EvKill pid sig).

(** From the first [mmap] to the label [again]: the two pages, and the
    hole behind the second.  [false] when a page cannot be had. *)
Definition setup (args : args_t) : P bool :=
  let page_size := args_page_size args in
  do p <- p_mmap page_size PROT_READ in
  exec set_ro_page p in
  if p =? MAP_FAILED then
    exec p_emit EvPrInf in
    pret false
  else
    do q <- p_mmap (wrap64 (Z.shiftl page_size 1)) PROT_READ in
    exec set_rw_page q in
    if q =? MAP_FAILED then
      exec p_munmap p page_size in
      exec p_emit EvPrInf in
      pret false
    else
      exec p_munmap (wrap64 (q + page_size)) page_size in
      pret true.

(** The last lines: both pages are unmapped. *)
Definition finish (args : args_t) : P leave :=
  do rw <- get_rw_page in
  exec p_munmap rw (args_page_size args) in
  do ro <- get_ro_page in
  exec p_munmap ro (args_page_size args) in
  pret (Return EXIT_SUCCESS).

(** The layout the address generators see. *)
Definition layout_of (args : args_t) (st : pstate) : layout :=
  mk_layout (args_page_size args) (st_ro_page st) (st_rw_page st)
    (args_data args) (args_write_text args).

(** From the label [again] on; [in_child l] is the status the process
    leaves with when it is the forked child, where the trials run. *)
Fixpoint again (fuel : nat) (args : args_t) (in_child : layout → option Z)
  : P leave :=
  match fuel with
  | 0%nat => λ _, None
  | S fuel' =>
      do keep <- ask_keep_stressing in
      if negb keep then pret (Return EXIT_SUCCESS)
      else
        do pid <- fork in
        if pid <? 0 then
          do err <- get_errno in
          if err =? EAGAIN then again fuel' args in_child
          else
            exec p_emit EvPrErr in
            finish args
        else if 0 <? pid then
          exec p_emit (EvSetpgid pid) in
          do rs <- waitpid pid in
          if fst rs <? 0 then
            do err <- get_errno in
            exec (if negb (err =? EINTR) then p_emit (EvPrDbg "waitpid")
                  else pret tt) in
            exec kill pid SIGTERM in
            exec kill pid SIGKILL in
            do _rs <- waitpid pid in
            finish args
          else if WIFSIGNALED (snd rs) then
            exec p_emit (EvPrDbg "child died") in
            if WTERMSIG (snd rs) =? SIGKILL then
              if oomable args then
                exec p_emit EvLogMem in
                exec p_emit (EvPrDbg "bailing out") in
                pret (Exit 0)
              else
                exec p_emit EvLogMem in
                exec p_emit (EvPrDbg "restarting again") in
                again fuel' args in_child
            else finish args
          else finish args
        else
          (* pid == 0 *)
          λ st, match in_child (layout_of args st) with
                | Some code => Some (Exit code, st)
                | None => None
                end
  end.

Definition stress_sysbadaddr (fuel : nat) (args : args_t)
    (in_child : layout → option Z) : P leave :=
  do ok <- setup args in
  if negb ok then pret (Return EXIT_NO_RESOURCE)
  else again fuel args in_child.

(** The child's part, over the table [ops] and in the world [cw]. *)
Definition in_stressor_child (fuel : nat) (cw : child_world)
    (ops : list bad_syscall_t) (l : layout) : option Z :=
  match stressor_child fuel cw l ops with
  | Some pr => left_with pr
  | None => None
  end.

(** ** Reading runs of the stressor *)

(** The address space after the calls of [evs], as far as they made it:
    the protection of the page that holds [x], if one is mapped there. *)
Fixpoint mapped (evs : list pevent) (x : Z) (now : option Z) : option Z :=
  match evs with
  | [] => now
  | EvMmap len prot p :: rest =>
      mapped rest x
        (if negb (p =? MAP_FAILED) && (p <=? x) && (x <? p + len)
         then Some prot else now)
  | EvMunmap addr len :: rest =>
      mapped rest x (if (addr <=? x) && (x <? addr + len) then None else now)
  | _ :: rest => mapped rest x now
  end.

(** The bytes mapped by [evs] and not unmapped. *)
Fixpoint balance (evs : list pevent) : Z :=
  match evs with
  | [] => 0
  | EvMmap len _ p :: rest =>
      (if p =? MAP_FAILED then 0 else len) + balance rest
  | EvMunmap _ len :: rest => balance rest - len
  | _ :: rest => balance rest
  end.

Definition boot (script : list Z) : pstate := mk_pstate 0 0 script [].

(** The outcome of [m] from [st] satisfies [Q]; a run that does not end
    satisfies nothing. *)
Definition pwp {A} (m : P A) (Q : A → pstate → Prop) (st : pstate) : Prop :=
  match m st with
  | Some (a, st') => Q a st'
  | None => False
  end.

(** The run ended at the test of the label [again]. *)
Definition ended_at_check (s : list pevent) : bool :=
  match last s with
  | Some (EvKeepStressing false) => true
  | _ => false
  end.

(** What the part of the stressor from [again] on does. *)
Definition again_post (args : args_t) (in_child : layout → option Z)
    (st0 : pstate) (out : leave) (st' : pstate) : Prop :=
  ∃ s, events st' = events st0 ++ s ∧ s ≠ [] ∧
    match out with
    | Return rc =>
        rc = EXIT_SUCCESS ∧
        balance s = (if ended_at_check s then 0
                     else - (args_page_size args + args_page_size args))
    | Exit code =>
        (code = 0 ∧ oomable args = true) ∨
        in_child (layout_of args st0) = Some code
    end.

(** The ways a run of the stressor goes. *)
Definition stressor_post (args : args_t) (in_child : layout → option Z)
    (st0 : pstate) (out : leave) (st' : pstate) : Prop :=
  let ps := args_page_size args in
  let ro := wrap64 (hd 0 (answers st0)) in
  let rw := wrap64 (hd 0 (tail (answers st0))) in
  (ro = MAP_FAILED ∧ out = Return EXIT_NO_RESOURCE ∧
   events st' = events st0 ++ [EvMmap ps PROT_READ ro; EvPrInf])
  ∨ (ro ≠ MAP_FAILED ∧ rw = MAP_FAILED ∧ out = Return EXIT_NO_RESOURCE ∧
     events st' = events st0 ++
       [EvMmap ps PROT_READ ro;
        EvMmap (wrap64 (Z.shiftl ps 1)) PROT_READ rw;
        EvMunmap ro ps; EvPrInf])
  ∨ (ro ≠ MAP_FAILED ∧ rw ≠ MAP_FAILED ∧
     ∃ s, events st' = events st0 ++
            [EvMmap ps PROT_READ ro;
             EvMmap (wrap64 (Z.shiftl ps 1)) PROT_READ rw;
             EvMunmap (wrap64 (rw + ps)) ps] ++ s ∧
          s ≠ [] ∧
          match out with
          | Return rc =>
              rc = EXIT_SUCCESS ∧
              balance s = (if ended_at_check s then 0 else - (ps + ps))
          | Exit code =>
              (code = 0 ∧ oomable args = true) ∨
              in_child (mk_layout ps ro rw (args_data args)
                          (args_write_text args)) = Some code
          end).

(** Arguments and a child for the examples: pages of 4096 bytes, a child
    that leaves with status 0. *)
Definition small_pages : args_t := mk_args 4096 false 6295552 4198400.
Definition quiet_child : layout → option Z := λ _, Some 0.

End SysBadAddr.

Module SysFs.

(** ** Constants *)

Definition SYS_BUF_SZ : Z := 4096.
Definition MAX_READ_THREADS : nat := 4.
Definition DURATION_PER_SYSFS_FILE : Z := 40000.
Definition PATH_MAX : nat := 4096.

Definition EXIT_SUCCESS : Z := 0.
Definition EXIT_FAILURE : Z := 1.

(** Modelled from the spec: [EXIT_NO_RESOURCE] of stress-ng.h, the status
    of a run that could not get a resource. *)
Definition EXIT_NO_RESOURCE : Z := 3.

Definition O_RDONLY : Z := 0.
Definition O_WRONLY : Z := 1.
Definition O_NONBLOCK : Z := 2048.

(** [S_IRGRP | S_IWGRP | S_IROTH | S_IWOTH] *)
Definition flags : Z := Z.lor (Z.lor 32 16) (Z.lor 4 2).

Definition dummy_path : string := "/sys/kernel/notes".

(** ** Data *)

Inductive d_type_t := DT_DIR | DT_REG | DT_OTHER.

Record dirent := mk_dirent {
  d_name : string;
  d_type : d_type_t
}.

(** [ctxt_t], without the pointer to the stressor's arguments. *)
Record ctxt_t := mk_ctxt {
  badbuf : Z;
  writeable : bool;
  kmsgfd : Z
}.

(** What a thread does that can be seen from outside, with the entry into
    and the return from [stress_sys_dir]. *)
Inductive event :=
| EvEnter (path : string) (depth : Z)
| EvLeave
| EvScandir (path : string)
| EvPublish (path : string)          (* sysfs_path = path *)
| EvSegv                             (* stress_segv_handler ran *)
| EvErr (path : option string)       (* pr_err: a SIGSEGV occurred ... *)
| EvOpen (path : string) (oflags : Z)
| EvRead (fd : Z) (len : Z)
| EvReadBad (fd : Z) (len : Z)       (* read into ctxt->badbuf *)
| EvWrite (fd : Z) (len : Z)
| EvClose (fd : Z)
| EvSleep (usec : Z)
| EvFail (what : string)             (* pr_fail_err *)
| EvThreadCreate (i : nat) (ctxt : ctxt_t)
| EvThreadKill (i : nat)
| EvThreadJoin (i : nat).

(** How long the object a pointer points to lasts: as long as the program
    ([dummy_path], a string literal), or as long as the block it is
    declared in is being executed (the array [filename] of the loop body
    of [stress_sys_dir]). *)
Inductive storage := Static | Automatic.

(** A pointer to a string: the storage it points into, and the characters
    that were there when the pointer was stored. *)
Record pointer := mk_pointer {
  duration : storage;
  chars : string
}.

(** The file-scope variables of stress-sysfs.c, the stressor's counter,
    and what the model keeps beside them: the number of questions put to
    the environment so far ([clock]), whether [stress_segv_handler] is
    installed for SIGSEGV ([handler]) and the log of events.

    [sysfs_path] is a pointer: to [dummy_path], to the empty string, or
    to the array [filename] of the loop body of [stress_sys_dir] that
    stored it. *)
Record world := mk_world {
  segv_abort : bool;
  drain_kmsg : bool;
  sysfs_path : option pointer;       (* [None] is the null pointer *)
  mixup : Z;
  counter : Z;
  clock : nat;
  handler : bool;
  trace : list event
}.

(** The program at its start: static storage is zero. *)
Definition boot : world := mk_world false false None 0 0 0 false [].

(** Everything the thread asks of the outside, by the moment of asking:
    the integer the call returns ([answer]: a return value, a flag that is
    set when it is not 0, a random number), the entries [scandir] returns
    in the order it returns them ([listing]), the characters a read
    through [sysfs_path] finds when the thread that reads is not the one
    that wrote them there, or when the array they were written to is no
    more ([cursor]), and whether a segmentation fault strikes the thread
    at that moment ([fault]). *)
Record env := mk_env {
  answer : nat → Z;
  listing : nat → list dirent;
  cursor : nat → string;
  fault : nat → bool
}.

(** ** Runs that may be cut short *)

Inductive cut := Jumped | Crashed | OutOfFuel.

Inductive result (A : Type) :=
| Done (a : A) (w : world)
| Cut (c : cut) (w : world).
Arguments Done {A} a w.
Arguments Cut {A} c w.

Definition M (A : Type) : Type := env → world → result A.

Definition ret {A} (a : A) : M A := λ _ w, Done a w.

Definition bind {A B} (m : M A) (k : A → M B) : M B :=
  λ e w, match m e w with
         | Done a w' => k a e w'
         | Cut c w' => Cut c w'
         end.

Notation "'do' x <- m 'in' k" := (bind m (λ x, k))
  (at level 10, x name, m at level 100, k at level 200, only parsing).
Notation "'exec' m 'in' k" := (bind m (λ _, k))
  (at level 10, m at level 100, k at level 200, only parsing).

Definition out_of_fuel {A} : M A := λ _ w, Cut OutOfFuel w.

Definition get {A} (f : world → A) : M A := λ _ w, Done (f w) w.

Definition modify (f : world → world) : M unit := λ _ w, Done tt (f w).

Definition with_segv_abort (v : bool) (w : world) : world :=
  mk_world v (drain_kmsg w) (sysfs_path w) (mixup w) (counter w) (clock w)
    (handler w) (trace w).
Definition with_drain_kmsg (v : bool) (w : world) : world :=
  mk_world (segv_abort w) v (sysfs_path w) (mixup w) (counter w) (clock w)
    (handler w) (trace w).
Definition with_sysfs_path (v : option pointer) (w : world) : world :=
  mk_world (segv_abort w) (drain_kmsg w) v (mixup w) (counter w) (clock w)
    (handler w) (trace w).
Definition with_mixup (v : Z) (w : world) : world :=
  mk_world (segv_abort w) (drain_kmsg w) (sysfs_path w) v (counter w) (clock w)
    (handler w) (trace w).
Definition with_counter (v : Z) (w : world) : world :=
  mk_world (segv_abort w) (drain_kmsg w) (sysfs_path w) (mixup w) v (clock w)
    (handler w) (trace w).
Definition with_clock (v : nat) (w : world) : world :=
  mk_world (segv_abort w) (drain_kmsg w) (sysfs_path w) (mixup w) (counter w) v
    (handler w) (trace w).
Definition with_handler (v : bool) (w : world) : world :=
  mk_world (segv_abort w) (drain_kmsg w) (sysfs_path w) (mixup w) (counter w)
    (clock w) v (trace w).
Definition log (ev : event) (w : world) : world :=
  mk_world (segv_abort w) (drain_kmsg w) (sysfs_path w) (mixup w) (counter w)
    (clock w) (handler w) (trace w ++ [ev]).

Definition emit (ev : event) : M unit := modify (log ev).

(** [stress_segv_handler] up to its jump: the flag is set. *)
Definition stress_segv_handler (w : world) : world :=
  log EvSegv (with_segv_abort true w).

(** One question to the environment.  If a segmentation fault strikes at
    this moment, the handler runs and jumps to [jmp_env] when it is
    installed, and the process dies when it is not. *)
Definition tick : M nat :=
  λ e w,
    if fault e (clock w) then
      if handler w then Cut Jumped (stress_segv_handler w)
      else Cut Crashed w
    else Done (clock w) (with_clock (S (clock w)) w).

Definition ask : M Z :=
  do t <- tick in
  λ e w, Done (answer e t) w.

Definition ask_flag : M bool :=
  do r <- ask in
  ret (negb (r =? 0)).

(** ** Calls into the system and into stress-ng *)

(** Modelled from the spec: [g_keep_stressing_flag], the cooperative
    "keep running" flag that stress-ng clears from outside. *)
Definition g_keep_stressing_flag : M bool := ask_flag.

(** Modelled from the spec: [keep_stressing()], the external "keep
    running" predicate. *)
Definition keep_stressing : M bool := ask_flag.

(** Modelled from the spec: [mwc32()], stress-ng's 32-bit random number
    generator; the numbers are the environment's. *)
Definition mwc32 : M Z := do r <- ask in ret (r mod 2 ^ 32).

(** Modelled from the spec: [inc_counter(args)], the externally supplied
    counter-increment callback. *)
Definition inc_counter : M unit := modify (λ w, with_counter (counter w + 1) w).

(** Modelled from the spec: [shim_pthread_spin_lock] and
    [shim_pthread_spin_unlock], the lock that guards the cursor; taking it
    returns 0 or an error number. *)
Definition shim_pthread_spin_lock : M Z := ask.
Definition shim_pthread_spin_unlock : M unit := ret tt.

(** Modelled from the spec: [shim_usleep], a sleep of a fixed quantum. *)
Definition shim_usleep (usec : Z) : M unit :=
  exec emit (EvSleep usec) in
  do _r <- ask in
  ret tt.

(** Modelled from the spec: [time_now() - t_start > threshold], the check
    of the per-target time budget.  The clock is the environment's. *)
Definition time_is_up : M bool := ask_flag.

(** [scandir(path, &dlist, NULL, mixup_sort)]: the entries in the order
    the sort left them; none when it fails. *)
Definition scandir (path : string) : M (list dirent) :=
  exec emit (EvScandir path) in
  do t <- tick in
  λ e w, Done (listing e t) w.

(** [stat(path, &buf)]: [buf.st_mode], or nothing when it fails. *)
Definition stat (path : string) : M (option Z) :=
  do r <- ask in
  ret (if r <? 0 then None else Some r).

Definition open (path : string) (oflags : Z) : M Z :=
  exec emit (EvOpen path oflags) in
  ask.

Definition close (fd : Z) : M unit := emit (EvClose fd).

Definition read (fd : Z) (len : Z) : M Z :=
  exec emit (EvRead fd len) in
  ask.

Definition read_bad (fd : Z) (len : Z) : M Z :=
  exec emit (EvReadBad fd len) in
  ask.

Definition write (fd : Z) (len : Z) : M Z :=
  exec emit (EvWrite fd len) in
  ask.

(** Modelled from the spec: [is_dot_filename] of stress-ng's helpers, true
    of the entries "." and "..". *)
Definition is_dot_filename (name : string) : bool :=
  String.eqb name "." || String.eqb name "..".

(** [strstr(hay, needle) != NULL] *)
Definition strstr (hay needle : string) : bool :=
  match String.index 0 needle hay with
  | Some _ => true
  | None => false
  end.

Definition stress_sys_skip (path : string) : bool :=
  strstr path "PNP0A03" && strstr path "VMBUS".

(** [snprintf(tmp, PATH_MAX, "%s/%s", path, name)] *)
Definition path_join (path name : string) : string :=
  String.substring 0 (PATH_MAX - 1) (path ++ "/" ++ name).

(** ** The order [scandir] is asked to sort by *)

(** A value stored in a [uint32_t]. *)
Definition wrap32 (z : Z) : Z := z mod 2 ^ 32.

(** The [int] a [char] is promoted to; plain [char] is signed on the
    target. *)
Definition char_to_int (c : ascii) : Z :=
  if byte_of c <? 128 then byte_of c else byte_of c - 256.

(** The [while] loop of [path_sum], with [ptr] at the characters still to
    be read. *)
Fixpoint path_sum_loop (sum : Z) (ptr : string) : Z :=
  match ptr with
  | EmptyString => sum
  | String c rest =>
      if Ascii.eqb c NUL then sum
      else
        let sum := wrap32 (Z.shiftl sum 1) in
        let sum := wrap32 (sum + char_to_int c) in
        path_sum_loop sum rest
  end.

(** [path_sum]; [mixup] is the value the file-scope variable holds when
    the function is called. *)
Definition path_sum (mixup : Z) (path : string) : Z :=
  path_sum_loop mixup path.

(** [mixup_sort], the comparison handed to [scandir]. *)
Definition mixup_sort (mixup : Z) (d1 d2 : dirent) : Z :=
  let s1 := path_sum mixup (d_name d1) in
  let s2 := path_sum mixup (d_name d2) in
  if s1 =? s2 then 0
  else if s1 <? s2 then -1 else 1.

(** What the characters of a name add to the sum: the character [k] places
    from the end counts [2 ^ k] times. *)
Fixpoint weight (path : string) : Z :=
  match path with
  | EmptyString => 0
  | String c rest =>
      if Ascii.eqb c NUL then 0
      else char_to_int c * 2 ^ strlen rest + weight rest
  end.

(** [sysfs_path = ...]: the pointer is stored; [path] is what the object
    it points to holds, and [d] how long that object lasts. *)
Definition assign_sysfs_path (d : storage) (path : string) : M unit :=
  modify (λ w, log (EvPublish path)
                 (with_sysfs_path (Some (mk_pointer d path)) w)).

(** ** The walker *)

(** The body of the [DT_REG] case once [stat] has passed: publish the file
    as the readers' target and give them time.  The path is copied to
    [filename], an array of the loop body, and [sysfs_path] is made to
    point to that. *)
Definition publish (tmp : string) : M unit :=
  do r <- shim_pthread_spin_lock in
  if r =? 0 then
    exec assign_sysfs_path Automatic tmp in
    exec shim_pthread_spin_unlock in
    exec modify (with_drain_kmsg false) in
    exec shim_usleep DURATION_PER_SYSFS_FILE in
    do abort <- get segv_abort in
    if abort then ret tt
    else inc_counter
  else ret tt.

(** The [for] loop of [stress_sys_dir] over the entries [scandir] gave;
    [descend tmp] is the recursive call on the directory [tmp]. *)
Fixpoint dir_loop (descend : string → M unit) (path : string)
    (recurse : bool) (l : list dirent) : M unit :=
  match l with
  | [] => ret tt
  | d :: rest =>
      do abort <- get segv_abort in
      if abort then ret tt
      else
        do keep <- keep_stressing in
        if negb keep then ret tt
        else if is_dot_filename (d_name d) then dir_loop descend path recurse rest
        else
          let tmp := path_join path (d_name d) in
          if stress_sys_skip tmp then dir_loop descend path recurse rest
          else
            match d_type d with
            | DT_DIR =>
                if negb recurse then dir_loop descend path recurse rest
                else
                  do st <- stat tmp in
                  match st with
                  | None => dir_loop descend path recurse rest
                  | Some st_mode =>
                      if Z.land st_mode flags =? 0
                      then dir_loop descend path recurse rest
                      else
                        exec inc_counter in
                        exec descend tmp in
                        dir_loop descend path recurse rest
                  end
            | DT_REG =>
                do st <- stat tmp in
                match st with
                | None => dir_loop descend path recurse rest
                | Some st_mode =>
                    if Z.land st_mode flags =? 0
                    then dir_loop descend path recurse rest
                    else
                      exec publish tmp in
                      dir_loop descend path recurse rest
                end
            | DT_OTHER => dir_loop descend path recurse rest
            end
  end.

Fixpoint stress_sys_dir (fuel : nat) (ctxt : ctxt_t) (path : string)
    (recurse : bool) (depth : Z) {struct fuel} : M unit :=
  match fuel with
  | O => out_of_fuel
  | S fuel' =>
      exec emit (EvEnter path depth) in
      exec (do keep <- g_keep_stressing_flag in
            do abort <- get segv_abort in
            if negb keep || abort then ret tt
            else if 20 <? depth then ret tt
            else
              do r <- mwc32 in
              exec modify (with_mixup r) in
              do dlist <- scandir path in
              dir_loop
                (λ tmp, stress_sys_dir fuel' ctxt tmp recurse (depth + 1))
                path recurse dlist) in
      emit EvLeave
  end.

(** ** The readers *)

(** The loop of [stress_kmsg_drain]: read until nothing is left. *)
Fixpoint kmsg_loop (fuel : nat) (fd : Z) (count : Z) : M Z :=
  match fuel with
  | O => out_of_fuel
  | S fuel' =>
      do r <- read fd 1024 in
      if r <=? 0 then ret count
      else kmsg_loop fuel' fd (wrap_int (count + r))
  end.

Definition stress_kmsg_drain (fuel : nat) (fd : Z) : M bool :=
  if fd =? -1 then ret false
  else
    do count <- kmsg_loop fuel fd 0 in
    ret (0 <? count).

(** Where a stretch of [stress_sys_rw] hands over: it runs on to the next
    statement, or it jumps to one of the two labels. *)
Inductive label := Fall | L_next | L_drain.

(** [drain_kmsg = true; (void)close(fd); goto drain;] *)
Definition to_drain (fd : Z) : M label :=
  exec modify (with_drain_kmsg true) in
  exec close fd in
  ret L_drain.

(** The loop of randomly sized reads. *)
Fixpoint read_loop (fuel : nat) (ctxt : ctxt_t) (fd : Z) (i : Z)
  : M (label * Z) :=
  match fuel with
  | O => out_of_fuel
  | S fuel' =>
      if i <? 4096 * SYS_BUF_SZ then
        do r <- mwc32 in
        let sz := 1 + r mod (SYS_BUF_SZ - 1) in
        do keep <- g_keep_stressing_flag in
        if negb keep then ret (Fall, i)
        else
          do n <- read fd sz in
          if n <? 0 then ret (Fall, i)
          else if n <? sz then ret (Fall, i)
          else
            let i := i + sz in
            do burst <- stress_kmsg_drain fuel' (kmsgfd ctxt) in
            if burst then
              do l <- to_drain fd in ret (l, i)
            else
              do late <- time_is_up in
              if late then
                exec close fd in ret (L_next, i)
              else read_loop fuel' ctxt fd i
      else ret (Fall, i)
  end.

(** From the comment "We only attempt writes if we are not root" to the
    label [next]. *)
Definition write_stage (ctxt : ctxt_t) (path : string) : M label :=
  if writeable ctxt then
    do fd <- open path (Z.lor O_WRONLY O_NONBLOCK) in
    if fd <? 0 then ret L_next
    else
      do _r <- write fd 0 in
      exec close fd in
      do late <- time_is_up in
      ret L_next
  else ret L_next.

(** From the label [err] on. *)
Definition at_err (ctxt : ctxt_t) (path : string) (fd : Z) : M label :=
  exec close fd in
  do late <- time_is_up in
  if late then ret L_next
  else write_stage ctxt path.

(** One pass over the target: from [t_start = time_now()] to the jump to
    [next] or to [drain].  [verify] is [g_opt_flags & OPT_FLAGS_VERIFY]. *)
Definition probe (fuel : nat) (verify : bool) (ctxt : ctxt_t)
    (path : string) (i : Z) : M (label * Z) :=
  do fd <- open path (Z.lor O_RDONLY O_NONBLOCK) in
  if fd <? 0 then ret (L_next, i)
  else
    do late <- time_is_up in
    if late then exec close fd in ret (L_next, i)
    else
      do li <- read_loop fuel ctxt fd i in
      let i := snd li in
      match fst li with
      | L_next => ret (L_next, i)
      | L_drain => ret (L_drain, i)
      | Fall =>
          exec (if verify then
                  do r <- ask in
                  if r <? 0 then emit (EvFail "stat") else ret tt
                else ret tt) in
          exec close fd in
          do late <- time_is_up in
          if late then ret (L_next, i)
          else
            do fd <- open path (Z.lor O_RDONLY O_NONBLOCK) in
            if fd <? 0 then ret (L_next, i)
            else
              do n <- read fd 0 in
              if n <? 0 then do l <- at_err ctxt path fd in ret (l, i)
              else
                do late <- time_is_up in
                if late then ret (L_next, i)
                else
                  do burst <- stress_kmsg_drain fuel (kmsgfd ctxt) in
                  if burst then do l <- to_drain fd in ret (l, i)
                  else
                    do n <- (if negb (badbuf ctxt =? NULL)
                             then read_bad fd SYS_BUF_SZ else ret 0) in
                    if n <? 0 then do l <- at_err ctxt path fd in ret (l, i)
                    else
                      do burst <- stress_kmsg_drain fuel (kmsgfd ctxt) in
                      if burst then do l <- to_drain fd in ret (l, i)
                      else do l <- at_err ctxt path fd in ret (l, i)
      end.







(** ** The stressor *)

(** [do stress_sys_dir(...) while (keep_stressing() && !segv_abort)] *)
Fixpoint walk (fuel : nat) (ctxt : ctxt_t) : M unit :=
  match fuel with
  | O => out_of_fuel
  | S fuel' =>
      exec stress_sys_dir fuel' ctxt "/sys" true 0 in
      do keep <- keep_stressing in
      do abort <- get segv_abort in
      if keep && negb abort then walk fuel' ctxt
      else ret tt
  end.

(** [pthread_create] for each reader; the returned codes.  A reader
    that is created runs [stress_sys_rw_thread] on questions of its own
    to the environment; how it ends is [reader_thread], and its run is
    not woven into that of the main thread here. *)
Fixpoint create_threads (n : nat) (i : nat) (ctxt : ctxt_t) : M (list Z) :=
  match n with
  | O => ret []
  | S n' =>
      do r <- ask in
      exec emit (EvThreadCreate i ctxt) in
      do rs <- create_threads n' (S i) ctxt in
      ret (r :: rs)
  end.

Fixpoint for_threads (ev : nat → event) (i : nat) (rets : list Z) : M unit :=
  match rets with
  | [] => ret tt
  | r :: rest =>
      exec (if r =? 0 then emit (ev i) else ret tt) in
      for_threads ev (S i) rest
  end.

(** [stress_sysfs] once [geteuid()] has returned [euid]. *)
Definition stress_sysfs_with (fuel : nat) (euid : Z) : M Z :=
  do fd <- open "/dev/kmsg" (Z.lor O_RDONLY O_NONBLOCK) in
  do _b <- stress_kmsg_drain fuel fd in
  do rc <- ask (* shim_pthread_spin_init *) in
  if negb (rc =? 0) then ret EXIT_NO_RESOURCE
  else
    do buf <- ask (* mmap *) in
    if buf =? MAP_FAILED then ret EXIT_NO_RESOURCE
    else
      let ctxt := mk_ctxt buf (negb (euid =? 0)) fd in
      do rets <- create_threads MAX_READ_THREADS 0 ctxt in
      exec walk fuel ctxt in
      do rc <- shim_pthread_spin_lock in
      exec (if negb (rc =? 0) then ret tt
            else
              exec assign_sysfs_path Static "" in
              shim_pthread_spin_unlock) in
      exec for_threads EvThreadKill 0 rets in
      exec for_threads EvThreadJoin 0 rets in
      exec (if negb (fd =? -1) then close fd else ret tt) in
      ret EXIT_SUCCESS.

(** [stress_sysfs] from [ctxt.args = args] on. *)
Definition stress_sysfs_run (fuel : nat) : M Z :=
  do euid <- ask (* geteuid() *) in
  stress_sysfs_with fuel euid.

(** [stress_sysfs] after [sigsetjmp] has returned 0. *)
Definition stress_sysfs_body (fuel : nat) : M Z :=
  do r <- ask (* stress_sighandler(SIGSEGV, stress_segv_handler) *) in
  if r <? 0 then ret EXIT_FAILURE
  else
    exec modify (with_handler true) in
    exec assign_sysfs_path Static dummy_path in
    stress_sysfs_run fuel.

(** What [pr_err] finds when it reads through [sysfs_path] after the
    jump.  The jump has left every block of [stress_sys_dir]: an array
    [filename] that [sysfs_path] points to is no more, and what is read
    where it was is for the environment to say. *)
Definition read_sysfs_path (e : env) (w : world) : option string :=
  match sysfs_path w with
  | None => None
  | Some p =>
      match duration p with
      | Static => Some (chars p)
      | Automatic => Some (cursor e (clock w))
      end
  end.

(** [stress_sysfs]: [sigsetjmp] returns 0 and the body runs; when the
    handler jumps back, [sigsetjmp] returns 1, the error is reported and
    the stressor returns. *)
Definition stress_sysfs (fuel : nat) : M Z :=
  λ e w,
    match stress_sysfs_body fuel e w with
    | Cut Jumped w' => Done EXIT_FAILURE (log (EvErr (read_sysfs_path e w')) w')
    | r => r
    end.



(** ** Reading runs *)

Definition world_of {A} (r : result A) : world :=
  match r with
  | Done _ w => w
  | Cut _ w => w
  end.

(** A write probe: a [write], or an [open] for anything but reading. *)
Definition is_write (ev : event) : bool :=
  match ev with
  | EvWrite _ _ => true
  | EvOpen _ oflags => negb (Z.land oflags 3 =? O_RDONLY)
  | _ => false
  end.


Definition is_segv (ev : event) : bool :=
  match ev with
  | EvSegv => true
  | _ => false
  end.

Definition segv_free (tr : list event) : Prop :=
  forallb (λ ev, negb (is_segv ev)) tr = true.

Definition is_publish (ev : event) : bool :=
  match ev with
  | EvPublish _ => true
  | _ => false
  end.

Definition is_create (ev : event) : bool :=
  match ev with
  | EvThreadCreate _ _ => true
  | _ => false
  end.

(** An event that is neither a write probe, nor a store to the cursor,
    nor the handler's, nor the start of a thread. *)
Definition plain (ev : event) : bool :=
  negb (is_write ev || is_publish ev || is_segv ev || is_create ev).

(** What [geteuid()] returns in a run of [stress_sysfs] from [boot]: the
    answer to the second question of the run (the first is whether the
    handler could be installed). *)
Definition euid (e : env) : Z := answer e 1.



(** The value last stored in [sysfs_path]. *)
Fixpoint last_published (tr : list event) : option string :=
  match tr with
  | [] => None
  | EvPublish path :: rest =>
      match last_published rest with
      | Some later => Some later
      | None => Some path
      end
  | _ :: rest => last_published rest
  end.

(** Reading a trace of calls: [Some l] when every [stress_sys_dir] entered
    at nesting level [k] (counted from [level]) has [base + k] for its
    depth argument, [l] being the level at the end. *)
Fixpoint nested (base : Z) (level : Z) (tr : list event) : option Z :=
  match tr with
  | [] => Some level
  | EvEnter _ depth :: rest =>
      if depth =? base + level then nested base (level + 1) rest else None
  | EvLeave :: rest => nested base (level - 1) rest
  | _ :: rest => nested base level rest
  end.

(** The cursor holds what was last stored in it, it is not null, and the
    handler has not run; something has been stored in it, and as long as
    that is only the path [stress_sysfs] starts with, it points to
    [dummy_path] itself. *)
Definition cursor_sound (w : world) : Prop :=
  option_map chars (sysfs_path w) = last_published (trace w) ∧
  segv_free (trace w) ∧
  sysfs_path w ≠ None ∧
  List.filter is_publish (trace w) ≠ [] ∧
  (List.filter is_publish (trace w) = [EvPublish dummy_path] →
   sysfs_path w = Some (mk_pointer Static dummy_path)).

(** [keeps I m]: [m] keeps the property [I] of the world, up to the
    handler's doing when the run is cut short by its jump. *)
Definition keeps {A} (I : world → Prop) (m : M A) : Prop :=
  ∀ e w, I w →
    match m e w with
    | Done _ w' => I w'
    | Cut Jumped w' => ∃ w0, I w0 ∧ w' = stress_segv_handler w0
    | Cut _ w' => I w'
    end.

(** [finishes m]: [m] never runs out of fuel. *)
Definition finishes {A} (m : M A) : Prop :=
  ∀ e w w', m e w ≠ Cut OutOfFuel w'.

(** [levels base l m l']: [m] only adds to the trace, and what it adds is
    well nested from level [l], ending at level [l'] when [m] returns. *)
Definition levels {A} (base : Z) (l : Z) (m : M A) (l' : Z) : Prop :=
  ∀ e w, ∃ s, trace (world_of (m e w)) = trace w ++ s ∧
    match m e w with
    | Done _ _ => nested base l s = Some l'
    | Cut _ _ => ∃ k, nested base l s = Some k
    end.

(** An environment given by the list of its answers (0 once the list is
    used up), with a fixed cursor, no directory entries and no fault. *)
Definition scripted (answers : list Z) (path : string) : env :=
  mk_env (λ t, nth t answers 0) (λ _, []) (λ _, path) (λ _, false).



(** A run that is struck by a segmentation fault when it opens /dev/kmsg,
    before the walker has started. *)
Definition early_fault_env : env :=
  mk_env (λ _, 0) (λ _, []) (λ _, "") (λ t, Nat.eqb t 2).



(** A namespace without bottom: every directory holds one directory "d"
    that can be read, and the run is never told to stop. *)
Definition bottomless_env : env :=
  mk_env (λ _, 493) (λ _, [mk_dirent "d" DT_DIR]) (λ _, dummy_path)
    (λ _, false).

Definition is_scandir (ev : event) : bool :=
  match ev with
  | EvScandir _ => true
  | _ => false
  end.

(** ** Reading runs that return *)

(** If [m], run in [e] from [w], returns, its value and the world it
    leaves satisfy [Q]. *)
Definition ifdone {A} (m : M A) (Q : A → world → Prop) (e : env)
    (w : world) : Prop :=
  match m e w with
  | Done a w' => Q a w'
  | Cut _ _ => True
  end.

(** The calls of [open] of a trace less its calls of [close]. *)
Fixpoint held (tr : list event) : Z :=
  match tr with
  | [] => 0
  | EvOpen _ _ :: rest => 1 + held rest
  | EvClose _ :: rest => held rest - 1
  | _ :: rest => held rest
  end.

(** The last event is a call of [open], or a [read] of no bytes. *)
Definition unclosed (ev : option event) : bool :=
  match ev with
  | Some (EvOpen _ _) => true
  | Some (EvRead _ len) => len =? 0
  | _ => false
  end.

(** A pass on "/sys/a" in which both calls of [open] give a descriptor
    and the time is up right after the [read] of no bytes. *)
Definition late_env : env := scripted [5; 0; 7; 0; 0; 6; 0; 1] "/sys/a".

Definition root_reader : ctxt_t := mk_ctxt 0 false (-1).



(** A run in which the walker finds the file "a" and the directory "d"
    under /sys, publishes the one, enters the other and is told to stop
    there. *)
Definition visit_env : env :=
  mk_env
    (λ t, nth t [1; 7; 0; 1; 420; 0; 0; 1; 493; 0; 0] 0)
    (λ t, if Nat.eqb t 2 then [mk_dirent "a" DT_REG; mk_dirent "d" DT_DIR]
          else [])
    (λ _, dummy_path)
    (λ _, false).

(** However the run of [m] ends, it has only added to the trace, and
    only events that satisfy [ok]. *)
Definition emits {A} (ok : event → bool) (m : M A) : Prop :=
  ∀ e w, ∃ s, trace (world_of (m e w)) = trace w ++ s ∧ forallb ok s = true.

(** What the walker does: it enters and leaves directories, lists them,
    stores a path in the cursor and sleeps (and the handler may run), on
    paths that [stress_sys_skip] lets through. *)
Definition walker_event (ev : event) : bool :=
  match ev with
  | EvEnter path _ | EvScandir path | EvPublish path =>
      negb (stress_sys_skip path)
  | EvLeave | EvSleep _ | EvSegv => true
  | _ => false
  end.

Definition is_thread_event (ev : event) : bool :=
  match ev with
  | EvThreadCreate _ _ | EvThreadKill _ | EvThreadJoin _ => true
  | _ => false
  end.

(** An event that is no [open], no [close] and not about a thread. *)
Definition calm (ev : event) : bool :=
  match ev with
  | EvOpen _ _ | EvClose _ => false
  | _ => negb (is_thread_event ev)
  end.

(** The readers that run: the indices, counted from [i], of the codes of
    [pthread_create] that are 0. *)
Fixpoint started (i : nat) (rets : list Z) : list nat :=
  match rets with
  | [] => []
  | r :: rest =>
      if r =? 0 then i :: started (S i) rest else started (S i) rest
  end.

(** What [open("/dev/kmsg")] returns in a run of [stress_sysfs] from
    [boot]: the answer to the third question of the run. *)
Definition kmsg_fd (e : env) : Z := answer e 2.

(** A run in which /dev/kmsg is opened as descriptor 7 and is empty, and
    the lock cannot be initialised. *)
Definition lockless_env : env := scripted [0; 0; 7; 0; 1] dummy_path.

(** A run in which /dev/kmsg cannot be opened, the second reader cannot
    be created and the walker is told to stop at once. *)
Definition three_readers_env : env :=
  scripted [0; 1000; -1; 0; 4096; 0; 11; 0; 0; 0; 0; 0] dummy_path.

(** A kernel log that gives 300 bytes, then 20, then nothing. *)
Definition chatty_env : env := scripted [300; 20; 0] dummy_path.

End SysFs.

Module TimerFd.

(** ** Constants and data *)

Definition COUNT_MAX : Z := 256.

Definition EXIT_SUCCESS : Z := 0.
Definition EXIT_FAILURE : Z := 1.
Definition EINTR : Z := 4.

(** The frequency limits and the default come from a header that is not
    at hand; they are parameters of the stressor. *)
Record config := mk_config {
  MIN_TIMERFD_FREQ : Z;
  MAX_TIMERFD_FREQ : Z;
  DEFAULT_TIMERFD_FREQ : Z
}.

(** The bits of [g_opt_flags] the stressor looks at. *)
Record opt_flags := mk_opt_flags {
  OPT_FLAGS_TIMERFD_RAND : bool;
  OPT_FLAGS_MAXIMIZE : bool;
  OPT_FLAGS_MINIMIZE : bool
}.

(** What the stressor reads of its arguments and settings: [args->pid],
    and the value [get_setting] finds for "timerfd-freq", if any. *)
Record args_t := mk_args {
  pid : Z;
  timerfd_freq_setting : option Z
}.

Record timespec := mk_timespec {
  tv_sec : Z;
  tv_nsec : Z
}.

Record itimerspec := mk_itimerspec {
  it_interval : timespec;
  it_value : timespec
}.

(** The system calls the stressor makes, with what they returned. *)
Inductive event :=
| EvTimerfdCreate (ret : Z)
| EvSettime (fd : Z) (timer : itimerspec) (ret : Z)
| EvOpen (filename : string) (ret : Z)
| EvSelect (nfds : Z) (usec : Z) (ret : Z)
| EvRead (fd : Z) (len : Z) (ret : Z)
| EvGettime (fd : Z) (ret : Z)
| EvLseek (fd : Z) (ret : Z)
| EvClose (fd : Z)
| EvFail (what : string).       (* pr_fail_err *)

(** ** Floating point

    The arithmetic on [double] the stressor uses: the conversion of an
    integer, the four operations, and the conversion to a 64-bit signed
    integer that the casts to [time_t] and [suseconds_t] are. *)
Class Double (double : Type) := mk_Double {
  d_of_Z : Z → double;
  d_add : double → double → double;
  d_sub : double → double → double;
  d_mul : double → double → double;
  d_div : double → double → double;
  d_to_long : double → Z
}.

Section Stressor.
Context {double : Type} {D : Double double}.

(** The file-scope variable [rate_ns], the stressor's counter, the
    return values the environment will give to the coming calls
    ([oracle], consumed front first, 0 once it is used up) and the log of
    system calls. *)
Record state := mk_state {
  rate_ns : double;
  counter : Z;
  oracle : list Z;
  trace : list event
}.

(** ** A state monad; [None] is a loop that was not given enough turns *)

Definition M (A : Type) : Type := state → option (A * state).

Definition ret {A} (a : A) : M A := λ st, Some (a, st).

Definition bind {A B} (m : M A) (k : A → M B) : M B :=
  λ st, match m st with
        | Some (a, st') => k a st'
        | None => None
        end.

Definition out_of_fuel {A} : M A := λ _, None.

Notation "'do' x <- m 'in' k" := (bind m (λ x, k))
  (at level 10, x name, m at level 100, k at level 200, only parsing).
Notation "'exec' m 'in' k" := (bind m (λ _, k))
  (at level 10, m at level 100, k at level 200, only parsing).

Definition pop (st : state) : state :=
  mk_state (rate_ns st) (counter st) (tail (oracle st)) (trace st).

Definition log (ev : event) (st : state) : state :=
  mk_state (rate_ns st) (counter st) (oracle st) (trace st ++ [ev]).

Definition ask : M Z := λ st, Some (hd 0 (oracle st), pop st).

Definition emit (ev : event) : M unit := λ st, Some (tt, log ev st).

Definition get_rate_ns : M double := λ st, Some (rate_ns st, st).

Definition set_rate_ns (v : double) : M unit :=
  λ st, Some (tt, mk_state v (counter st) (oracle st) (trace st)).

(** ** Calls into the system and into stress-ng *)

(** Modelled from the spec: [g_keep_stressing_flag], the cooperative
    "keep running" flag that stress-ng clears from outside. *)
Definition g_keep_stressing_flag : M bool :=
  do r <- ask in ret (negb (r =? 0)).

(** Modelled from the spec: [keep_stressing()], the external "keep
    running" predicate. *)
Definition keep_stressing : M bool :=
  do r <- ask in ret (negb (r =? 0)).

(** Modelled from the spec: [mwc32()], stress-ng's 32-bit random number
    generator; the numbers are the environment's. *)
Definition mwc32 : M Z := do r <- ask in ret (r mod 2 ^ 32).

(** Modelled from the spec: [inc_counter(args)], the externally supplied
    counter-increment callback. *)
Definition inc_counter : M unit :=
  λ st, Some (tt, mk_state (rate_ns st) (counter st + 1) (oracle st) (trace st)).

(** Modelled from the spec: [pr_fail_err], the report of a failed call. *)
Definition pr_fail_err (what : string) : M unit := emit (EvFail what).

Definition timerfd_create : M Z :=
  do r <- ask in
  exec emit (EvTimerfdCreate (wrap_int r)) in
  ret (wrap_int r).

Definition timerfd_settime (fd : Z) (timer : itimerspec) : M Z :=
  do r <- ask in
  exec emit (EvSettime fd timer (wrap_int r)) in
  ret (wrap_int r).

Definition timerfd_gettime (fd : Z) : M Z :=
  do r <- ask in
  exec emit (EvGettime fd (wrap_int r)) in
  ret (wrap_int r).

Definition open (filename : string) : M Z :=
  do r <- ask in
  exec emit (EvOpen filename (wrap_int r)) in
  ret (wrap_int r).

(** [select(nfds, &rdfs, NULL, NULL, &timeout)]: the value it returns and
    the [errno] it leaves when that is negative. *)
Definition select (nfds usec : Z) : M (Z * Z) :=
  do r <- ask in
  exec emit (EvSelect nfds usec (wrap_int r)) in
  if wrap_int r <? 0 then
    do err <- ask in ret (wrap_int r, err)
  else ret (wrap_int r, 0).

(** [ret = read(fd, buf, len)], with [ret] an [int]. *)
Definition read (fd len : Z) : M Z :=
  do r <- ask in
  exec emit (EvRead fd len (wrap_int r)) in
  ret (wrap_int r).

(** [ret = lseek(fd, 0, SEEK_SET)], with [ret] an [int]. *)
Definition lseek (fd : Z) : M Z :=
  do r <- ask in
  exec emit (EvLseek fd (wrap_int r)) in
  ret (wrap_int r).

Definition close (fd : Z) : M unit := emit (EvClose fd).

(** ** The stressor *)

(** [stress_timerfd_set]; the timer it fills in is its result. *)
Definition stress_timerfd_set (o : opt_flags) : M itimerspec :=
  do rate_ns <- get_rate_ns in
  do rate <-
    (if OPT_FLAGS_TIMERFD_RAND o then
       do m <- mwc32 in
       let r := d_div (d_sub (d_of_Z (m mod 10000)) (d_of_Z 5000))
                      (d_of_Z 40000) in
       ret (d_add rate_ns (d_mul rate_ns r))
     else ret rate_ns) in
  let sec := Z.quot (d_to_long rate) 1000000000 in
  let nsec := Z.rem (d_to_long rate) 1000000000 in
  let nsec := if (sec =? 0) && (nsec <? 1) then 1 else nsec in
  ret (mk_itimerspec (mk_timespec sec nsec) (mk_timespec sec nsec)).

(** The test of the [do ... while (keep_stressing())] loop, where
    [continue] and the end of the body lead; [again] is the next turn. *)
Definition loop_test (again : Z → M unit) (count : Z) : M unit :=
  do keep <- keep_stressing in
  if keep then again count else ret tt.

(** The body of the loop; [count] is the local of that name, and [test]
    is the rest of the loop. *)
Definition loop_body (test : Z → M unit) (o : opt_flags)
    (timerfd procfd : Z) (count : Z) : M unit :=
  do flag <- g_keep_stressing_flag in
  if negb flag then ret tt
  else
    do re <- select (timerfd + 1) 500000 in
    if fst re <? 0 then
      if snd re =? EINTR then test count
      else pr_fail_err "select"
    else if fst re <? 1 then test count
    else
      do r <- read timerfd 8 in
      if r <? 0 then pr_fail_err "timerfd read"
      else
        do r <- timerfd_gettime timerfd in
        if r <? 0 then pr_fail_err "timerfd_gettime"
        else
          do r <- (if OPT_FLAGS_TIMERFD_RAND o then
                     do timer <- stress_timerfd_set o in
                     timerfd_settime timerfd timer
                   else ret 0) in
          if r <? 0 then pr_fail_err "timer_settime"
          else
            do count <-
              (if -1 <? procfd then
                 if COUNT_MAX <=? count then
                   do r <- lseek procfd in
                   exec (if r =? 0 then
                           do _r <- read procfd 4096 in ret tt
                         else ret tt) in
                   ret 0
                 else ret (wrap_int (count + 1))
               else ret count) in
            exec inc_counter in
            test count.

Fixpoint timerfd_loop (fuel : nat) (o : opt_flags) (timerfd procfd : Z)
    (count : Z) : M unit :=
  match fuel with
  | O => out_of_fuel
  | S fuel' =>
      loop_body (loop_test (timerfd_loop fuel' o timerfd procfd))
        o timerfd procfd count
  end.

(** [snprintf(filename, sizeof(filename), "/proc/%d/fdinfo/%d", ...)] *)
Definition fdinfo_name (pid timerfd : Z) : string :=
  "/proc/" +:+ pretty pid +:+ "/fdinfo/" +:+ pretty timerfd.

Definition stress_timerfd (fuel : nat) (cfg : config) (o : opt_flags)
    (args : args_t) : M Z :=
  let timerfd_freq :=
    match timerfd_freq_setting args with
    | Some v => v
    | None =>
        let f := if OPT_FLAGS_MAXIMIZE o then MAX_TIMERFD_FREQ cfg
                 else DEFAULT_TIMERFD_FREQ cfg in
        if OPT_FLAGS_MINIMIZE o then MIN_TIMERFD_FREQ cfg else f
    end in
  exec set_rate_ns
         (if negb (timerfd_freq =? 0)
          then d_div (d_of_Z 1000000000) (d_of_Z timerfd_freq)
          else d_of_Z 1000000000) in
  do timerfd <- timerfd_create in
  if timerfd <? 0 then
    exec pr_fail_err "timerfd_create" in
    exec close timerfd in
    ret EXIT_FAILURE
  else
    do timer <- stress_timerfd_set o in
    do r <- timerfd_settime timerfd timer in
    if r <? 0 then
      exec pr_fail_err "timer_settime" in
      exec close timerfd in
      ret EXIT_FAILURE
    else
      do procfd <- open (fdinfo_name (pid args) timerfd) in
      exec timerfd_loop fuel o timerfd procfd 0 in
      exec close timerfd in
      exec (if -1 <? procfd then close procfd else ret tt) in
      ret EXIT_SUCCESS.

(** ** Reading runs *)

Definition is_close (ev : event) : bool :=
  match ev with
  | EvClose _ => true
  | _ => false
  end.

Definition is_lseek (ev : event) : bool :=
  match ev with
  | EvLseek _ _ => true
  | _ => false
  end.

Definition is_select (ev : event) : bool :=
  match ev with
  | EvSelect _ _ _ => true
  | _ => false
  end.

(** An event of the loop: a wait, a read, a look at the timer, a
    re-arming, a seek, or a report. *)
Definition in_loop (ev : event) : bool :=
  match ev with
  | EvSelect _ _ _ | EvRead _ _ _ | EvGettime _ _ | EvSettime _ _ _
  | EvLseek _ _ | EvFail _ => true
  | _ => false
  end.

(** The fdinfo file was opened. *)
Definition is_opened (ev : event) : bool :=
  match ev with
  | EvOpen _ fd => -1 <? fd
  | _ => false
  end.

Definition is_open (ev : event) : bool :=
  match ev with
  | EvOpen _ _ => true
  | _ => false
  end.

(** The number of events of [tr] that [f] picks. *)
Definition count (f : event → bool) (tr : list event) : Z :=
  Z.of_nat (length (List.filter f tr)).

(** The answer [timerfd_settime] gets when the timer is armed before the
    loop: the second of the run, the third when a random number is drawn
    first. *)
Definition arming_answer (o : opt_flags) (st : state) : Z :=
  wrap_int (nth (if OPT_FLAGS_TIMERFD_RAND o then 2 else 1) (oracle st) 0).

(** [wp m Q st]: run from [st], [m] returns, with a result and in a state
    that satisfy [Q]. *)
Definition wp {A} (m : M A) (Q : A → state → Prop) (st : state) : Prop :=
  match m st with
  | Some (a, st') => Q a st'
  | None => False
  end.

(** What a stretch of the loop that starts with [count] at [c] adds: only
    events of the loop, [k] turns counted, and one seek in the fdinfo
    file for every [COUNT_MAX + 1] turns. *)
Definition good (procfd c : Z) (s : list event) (k : Z) : Prop :=
  forallb in_loop s = true ∧ 0 ≤ k ∧
  count is_lseek s = if -1 <? procfd then (c + k) / (COUNT_MAX + 1) else 0.

(** The state reached from [st0] by such a stretch. *)
Definition reached (procfd c : Z) (st0 : state) (st' : state) : Prop :=
  ∃ s k, trace st' = trace st0 ++ s ∧ counter st' = counter st0 + k ∧
    good procfd c s k.

(** The three ways a run of the stressor goes, by the descriptor
    [timerfd_create] returns and the answer to the first arming. *)
Definition run_post (o : opt_flags) (args : args_t) (st : state)
    (rc : Z) (st' : state) : Prop :=
  let timerfd := wrap_int (hd 0 (oracle st)) in
  (timerfd < 0 ∧ rc = EXIT_FAILURE ∧ counter st' = counter st ∧
   trace st' = trace st ++
     [EvTimerfdCreate timerfd; EvFail "timerfd_create"; EvClose timerfd])
  ∨ (0 ≤ timerfd ∧ arming_answer o st < 0 ∧ rc = EXIT_FAILURE ∧
     counter st' = counter st ∧
     ∃ timer, trace st' = trace st ++
       [EvTimerfdCreate timerfd;
        EvSettime timerfd timer (arming_answer o st);
        EvFail "timer_settime"; EvClose timerfd])
  ∨ (0 ≤ timerfd ∧ 0 ≤ arming_answer o st ∧ rc = EXIT_SUCCESS ∧
     ∃ timer procfd s k,
       counter st' = counter st + k ∧ good procfd 0 s k ∧
       trace st' = trace st ++
         [EvTimerfdCreate timerfd;
          EvSettime timerfd timer (arming_answer o st);
          EvOpen (fdinfo_name (pid args) timerfd) procfd]
         ++ s ++ EvClose timerfd
         :: (if -1 <? procfd then [EvClose procfd] else [])).

End Stressor.

(** ** IEEE 754 binary64

    The [double] of the target, on Rocq's primitive floats.  The
    conversion to a 64-bit integer truncates, and gives the most negative
    integer when the value is out of range or not a number, as the
    conversion instruction of x86-64 does. *)

Definition b64_of_N (n : Z) : PrimFloat.float :=
  if n <? 2 ^ 62 then PrimFloat.of_uint63 (Uint63.of_Z n)
  else
    (* halve, keeping a sticky bit, until the value fits *)
    let h := Z.lor (Z.shiftr n 2) (if Z.land n 3 =? 0 then 0 else 1) in
    PrimFloat.mul (PrimFloat.of_uint63 (Uint63.of_Z h))
                  (PrimFloat.of_uint63 (Uint63.of_Z 4)).

Definition b64_of_Z (z : Z) : PrimFloat.float :=
  if z <? 0 then PrimFloat.opp (b64_of_N (- z)) else b64_of_N z.

Definition b64_to_long (x : PrimFloat.float) : Z :=
  match FloatOps.Prim2SF x with
  | SpecFloat.S754_zero _ => 0
  | SpecFloat.S754_finite s m e =>
      let mag := if 0 <=? e then Z.shiftl (Zpos m) e
                 else Z.shiftr (Zpos m) (- e) in
      let v := if s then - mag else mag in
      if (- 2 ^ 63 <=? v) && (v <? 2 ^ 63) then v else - 2 ^ 63
  | _ => - 2 ^ 63
  end.

#[export] Instance binary64 : Double PrimFloat.float :=
  mk_Double PrimFloat.float b64_of_Z PrimFloat.add PrimFloat.sub
    PrimFloat.mul PrimFloat.div b64_to_long.

(** The stressor's default build: frequencies from 1 Hz to 100 MHz, 1 MHz
    when nothing is asked for. *)
Definition example_config : config := mk_config 1 100000000 1000000.

Definition plain_flags : opt_flags := mk_opt_flags false false false.

Definition start (answers : list Z) : @state PrimFloat.float :=
  mk_state (b64_of_Z 0) 0 answers [].

(** A run at descriptor 3 with the fdinfo file at descriptor 4: two
    expiries are read, then a [select] fails with [EBADF]. *)
Definition example_args : args_t := mk_args 4242 None.

Definition example_run : @state PrimFloat.float :=
  start [3; 0; 4; 1; 1; 8; 0; 1; 1; 1; 8; 0; 1; 1; -1; 9].

End TimerFd.

(** * Facts *)

(** ** Machine integers *)

Lemma wrap64_small z : 0 ≤ z < 2 ^ 64 → wrap64 z = z.
Proof. intros H. unfold wrap64. apply Z.mod_small. exact H. Qed.

Lemma wrap64_range z : 0 ≤ wrap64 z < 2 ^ 64.
Proof. unfold wrap64. apply Z.mod_pos_bound. lia. Qed.

Lemma to_ssize_small z : 0 ≤ z < 2 ^ 63 → to_ssize z = z.
Proof.
  intros H. unfold to_ssize. rewrite wrap64_small by lia.
  destruct (Z.ltb_spec z (2 ^ 63)); lia.
Qed.

(** Masking with [~(2^k - 1)] on 64 bits clears the low [k] bits. *)
Lemma land_lnot64_ones x k :
  0 ≤ k < 64 → 0 ≤ x < 2 ^ 64 →
  Z.land x (lnot64 (2 ^ k - 1)) = x - x mod 2 ^ k.
Proof.
  intros Hk Hx. unfold lnot64, wrap64.
  rewrite <- (Z.land_ones _ 64) by lia.
  rewrite Z.land_assoc, (Z.land_comm x), <- Z.land_assoc.
  rewrite (Z.land_comm x (Z.ones 64)), (Z.land_comm (Z.ones 64) x).
  rewrite (Z.land_ones x 64) by lia. rewrite (Z.mod_small x) by lia.
  rewrite Z.land_comm, <- Z.ldiff_land.
  replace (2 ^ k - 1) with (Z.ones k) by (rewrite Z.ones_equiv; lia).
  rewrite Z.ldiff_ones_r by lia.
  rewrite Z.shiftr_div_pow2, Z.shiftl_mul_pow2 by lia.
  pose proof (Z.div_mod x (2 ^ k)) as E. lia.
Qed.

(** The rounding of [stress_shared_heap_malloc]: up to the next multiple of
    the pointer size. *)
Lemma round_up_ptr n :
  0 ≤ n < 2 ^ 63 →
  rounded n = sizeof_ptr * ((n + 7) / sizeof_ptr).
Proof.
  intros Hn. unfold rounded, sizeof_ptr.
  rewrite wrap64_small by lia.
  change (8 - 1) with (2 ^ 3 - 1).
  rewrite land_lnot64_ones by lia.
  change (2 ^ 3) with 8. replace (n + 8 - 1) with (n + 7) by lia.
  pose proof (Z.div_mod (n + 7) 8). lia.
Qed.

Lemma round_up_ptr_bounds n :
  0 ≤ n →
  n ≤ sizeof_ptr * ((n + 7) / sizeof_ptr) < n + sizeof_ptr
  ∧ (sizeof_ptr * ((n + 7) / sizeof_ptr)) mod sizeof_ptr = 0.
Proof.
  intros Hn. unfold sizeof_ptr.
  pose proof (Z.div_mod (n + 7) 8). pose proof (Z.mod_pos_bound (n + 7) 8).
  split; [lia|]. rewrite Z.mul_comm. apply Z.mod_mul. lia.
Qed.

(** A multiple of the pointer size that is at least [n] is at least [n]
    rounded up. *)
Lemma round_up_ptr_le n free :
  0 ≤ n → free mod sizeof_ptr = 0 → n ≤ free →
  sizeof_ptr * ((n + 7) / sizeof_ptr) ≤ free.
Proof.
  unfold sizeof_ptr. intros Hn Hf Hle.
  pose proof (Z.div_mod free 8). pose proof (Z.div_mod (n + 7) 8).
  pose proof (Z.mod_pos_bound (n + 7) 8).
  assert ((n + 7) / 8 ≤ free / 8); [|lia].
  apply Z.div_le_lower_bound; lia.
Qed.

(** An address aligned to a page of [2^k] bytes, [k >= 3], is aligned to
    the pointer size. *)
Lemma pow2_aligned k x :
  3 ≤ k → x mod 2 ^ k = 0 → x mod sizeof_ptr = 0.
Proof.
  intros Hk Hx. apply Z.mod_divide in Hx; [|lia].
  apply Z.mod_divide; [unfold sizeof_ptr; lia|].
  eapply Z.divide_trans; [|exact Hx].
  exists (2 ^ (k - 3)). change sizeof_ptr with (2 ^ 3).
  rewrite <- Z.pow_add_r by lia. f_equal. lia.
Qed.

(** ** C strings *)

Lemma byte_of_inj c d : byte_of c = byte_of d → c = d.
Proof.
  unfold byte_of. intros H. apply N2Z.inj in H.
  rewrite <- (ascii_N_embedding c), <- (ascii_N_embedding d). congruence.
Qed.

Lemma byte_of_NUL c : byte_of c = 0 → c = NUL.
Proof. intros H. apply byte_of_inj. rewrite H. reflexivity. Qed.

Lemma strcmp_zero_iff a b : strcmp a b = 0 ↔ cstr a = cstr b.
Proof.
  revert b. induction a as [|c a IH]; intros [|d b]; simpl.
  - tauto.
  - destruct (Ascii.eqb_spec d NUL) as [->|Hd].
    + split; reflexivity.
    + split; [|discriminate]. intros H. exfalso. apply Hd, byte_of_NUL. lia.
  - destruct (Ascii.eqb_spec c NUL) as [->|Hc].
    + split; reflexivity.
    + split; [|discriminate]. intros H. exfalso. apply Hc, byte_of_NUL. lia.
  - destruct (Ascii.eqb_spec c d) as [->|Hcd].
    + destruct (Ascii.eqb_spec d NUL) as [->|Hd]; [tauto|].
      rewrite IH. split; [congruence|]. intros H. injection H. tauto.
    + split.
      * intros H. exfalso. apply Hcd, byte_of_inj. lia.
      * destruct (Ascii.eqb_spec c NUL) as [->|Hc];
          destruct (Ascii.eqb_spec d NUL) as [->|Hd];
          try discriminate; try congruence.
  Qed.

Lemma cstr_idem s : cstr (cstr s) = cstr s.
Proof.
  induction s as [|c s IH]; simpl; [reflexivity|].
  destruct (Ascii.eqb_spec c NUL) as [->|Hc]; simpl; [reflexivity|].
  destruct (Ascii.eqb_spec c NUL); [contradiction|]. congruence.
Qed.

Lemma strlen_nonneg s : 0 ≤ strlen s.
Proof. unfold strlen. lia. Qed.

Lemma strlen_cstr a b : cstr a = cstr b → strlen a = strlen b.
Proof. unfold strlen. intros ->. reflexivity. Qed.

Module SharedHeapFacts.
Import SharedHeap.

(** ** The list of interned strings *)

Lemma chain_weaken m lo hi hi' p :
  chain m lo hi p → hi ≤ hi' → chain m lo hi' p.
Proof.
  intros Hc Hle. destruct Hc as [hi|hi p nd Hlo Hhi Hm Hc].
  - constructor.
  - econstructor; eauto. lia.
Qed.

Lemma chain_insert_above m lo hi p q nd :
  chain m lo hi p → hi ≤ q → chain (<[q := nd]> m) lo hi p.
Proof.
  intros Hc. induction Hc as [hi|hi p nd' Hlo Hhi Hm Hc IH]; intros Hq.
  - constructor.
  - econstructor; eauto.
    + rewrite lookup_insert_ne by lia. exact Hm.
    + apply IH. lia.
Qed.

Lemma chainb_sound fuel m lo hi p :
  chainb fuel m lo hi p = true → chain m lo hi p.
Proof.
  revert hi p. induction fuel as [|fuel IH]; intros hi p; simpl.
  - destruct (Z.eqb_spec p NULL) as [->|]; [constructor|discriminate].
  - destruct (Z.eqb_spec p NULL) as [->|]; [constructor|].
    destruct (m !! p) as [nd|] eqn:Hm; [|discriminate].
    intros H. apply andb_prop in H as [H H3]. apply andb_prop in H as [H1 H2].
    econstructor; eauto; lia.
Qed.

Lemma heap_wfb_sound w : heap_wfb w = true → heap_wf w.
Proof.
  unfold heap_wfb. intros H.
  repeat (apply andb_prop in H as [H ?]).
  constructor; try lia. eapply chainb_sound; eassumption.
Qed.

(** With enough fuel the walk of a sound list ends. *)
Lemma find_total m lo hi p text fuel :
  chain m lo hi p → (Z.to_nat (hi - lo) < fuel)%nat →
  ∃ r, str_list_find fuel m p text = Some r.
Proof.
  intros Hc. revert fuel.
  induction Hc as [hi|hi p nd Hlo Hhi Hm Hc IH]; intros fuel Hf.
  - exists NULL. destruct fuel; reflexivity.
  - destruct fuel as [|fuel]; [lia|]. simpl.
    destruct (p =? NULL); [eauto|]. rewrite Hm.
    destruct (strcmp text (str nd) =? 0); [eauto|].
    apply IH. lia.
Qed.

Lemma find_fuel_mono fuel fuel' m p text r :
  str_list_find fuel m p text = Some r → (fuel ≤ fuel')%nat →
  str_list_find fuel' m p text = Some r.
Proof.
  revert fuel' p. induction fuel as [|fuel IH]; intros fuel' p; simpl.
  - destruct (Z.eqb_spec p NULL) as [->|]; [|discriminate].
    intros H _. destruct fuel'; exact H.
  - intros H Hle. destruct fuel' as [|fuel']; [lia|]. simpl.
    destruct (p =? NULL); [exact H|].
    destruct (m !! p) as [nd|]; [|discriminate].
    destruct (strcmp text (str nd) =? 0); [exact H|].
    apply IH; [exact H|lia].
Qed.

(** A node written above the list does not change what the walk finds. *)
Lemma find_insert_above m lo hi p q nd text fuel :
  chain m lo hi p → hi ≤ q →
  str_list_find fuel (<[q := nd]> m) p text = str_list_find fuel m p text.
Proof.
  intros Hc. revert fuel.
  induction Hc as [hi|hi p nd' Hlo Hhi Hm Hc IH]; intros fuel Hq.
  - destruct fuel; reflexivity.
  - destruct fuel as [|fuel]; [reflexivity|]. simpl.
    destruct (p =? NULL); [reflexivity|].
    rewrite lookup_insert_ne by lia. rewrite Hm.
    destruct (strcmp text (str nd') =? 0); [reflexivity|].
    apply IH. lia.
Qed.

(** What the walk returns is the string of a stored node with the content
    asked for. *)
Lemma find_found fuel m p text r :
  str_list_find fuel m p text = Some r → r ≠ NULL →
  ∃ nd, m !! (r - sizeof_ptr) = Some nd ∧ cstr text = cstr (str nd).
Proof.
  revert p. induction fuel as [|fuel IH]; intros p; simpl.
  - destruct (p =? NULL); [|discriminate]. intros [= <-] H. contradiction.
  - destruct (p =? NULL); [intros [= <-] H; contradiction|].
    destruct (m !! p) as [nd|] eqn:Hm; [|discriminate].
    destruct (Z.eqb_spec (strcmp text (str nd)) 0) as [E|E].
    + intros [= <-] _. exists nd. split.
      * replace (p + sizeof_ptr - sizeof_ptr) with p by lia. exact Hm.
      * now apply strcmp_zero_iff.
    + apply IH.
Qed.

(** The walk depends on the text only through its content. *)
Lemma find_same_text fuel m p a b :
  cstr a = cstr b → str_list_find fuel m p a = str_list_find fuel m p b.
Proof.
  intros E. revert p. induction fuel as [|fuel IH]; intros p; simpl; [reflexivity|].
  destruct (p =? NULL); [reflexivity|].
  destruct (m !! p) as [nd|]; [|reflexivity].
  assert (H : (strcmp a (str nd) =? 0) = (strcmp b (str nd) =? 0)).
  { destruct (Z.eqb_spec (strcmp a (str nd)) 0) as [Ha|Ha];
      destruct (Z.eqb_spec (strcmp b (str nd)) 0) as [Hb|Hb]; try reflexivity;
      rewrite strcmp_zero_iff in *; congruence. }
  rewrite H. destruct (strcmp b (str nd) =? 0); [reflexivity|]. apply IH.
Qed.

(** ** One call of the allocator *)

Lemma malloc_unfold size w :
  stress_shared_heap_malloc size w =
  let h := g_shared w in
  if hd 0 (oracle w) <? 0 then Some (NULL, pop w)
  else if to_ssize (heap_size h - offset h) <? to_ssize size
  then Some (NULL, upd_heap (with_out_of_memory true) (pop w))
  else Some (wrap64 (heap h + offset h),
             upd_heap (with_offset (wrap64 (offset h + rounded size)))
               (pop w)).
Proof.
  unfold stress_shared_heap_malloc, stress_lock_acquire, stress_lock_release,
    bind, ret, get_heap, set_heap, ask.
  cbn [g_shared pop].
  destruct (hd 0 (oracle w) <? 0); [reflexivity|].
  destruct (to_ssize _ <? to_ssize size); reflexivity.
Qed.

Lemma malloc_lock_fail size w :
  hd 0 (oracle w) < 0 →
  stress_shared_heap_malloc size w = Some (NULL, pop w).
Proof.
  intros H. rewrite malloc_unfold. cbv zeta.
  destruct (Z.ltb_spec (hd 0 (oracle w)) 0); [reflexivity|lia].
Qed.

Lemma malloc_oom size w :
  heap_wf w → 0 ≤ hd 0 (oracle w) → 0 ≤ size < 2 ^ 63 →
  heap_size (g_shared w) - offset (g_shared w) < size →
  stress_shared_heap_malloc size w
  = Some (NULL, upd_heap (with_out_of_memory true) (pop w)).
Proof.
  intros Hwf Hl Hs Hlt. destruct Hwf. rewrite malloc_unfold. cbv zeta.
  destruct (Z.ltb_spec (hd 0 (oracle w)) 0); [lia|].
  rewrite !to_ssize_small by lia.
  destruct (Z.ltb_spec (heap_size (g_shared w) - offset (g_shared w)) size);
    [reflexivity|lia].
Qed.

Lemma malloc_ok size w :
  heap_wf w → 0 ≤ hd 0 (oracle w) → 0 ≤ size < 2 ^ 63 →
  size ≤ heap_size (g_shared w) - offset (g_shared w) →
  stress_shared_heap_malloc size w
  = Some (heap (g_shared w) + offset (g_shared w),
          upd_heap (with_offset
            (offset (g_shared w) + sizeof_ptr * ((size + 7) / sizeof_ptr)))
            (pop w)).
Proof.
  intros Hwf Hl Hs Hle. pose proof Hwf as [].
  rewrite malloc_unfold. cbv zeta.
  destruct (Z.ltb_spec (hd 0 (oracle w)) 0); [lia|].
  rewrite !to_ssize_small by lia.
  destruct (Z.ltb_spec (heap_size (g_shared w) - offset (g_shared w)) size);
    [lia|].
  rewrite round_up_ptr by lia.
  pose proof (round_up_ptr_bounds size ltac:(lia)) as [Hb _].
  assert (Hr : sizeof_ptr * ((size + 7) / sizeof_ptr)
               ≤ heap_size (g_shared w) - offset (g_shared w)).
  { apply round_up_ptr_le; [lia| |lia].
    rewrite Zminus_mod, wf_size_aligned0, wf_offset_aligned0. reflexivity. }
  rewrite !wrap64_small by lia. reflexivity.
Qed.

(** *** The invariant is kept *)

Lemma wf_pop w : heap_wf w → heap_wf (pop w).
Proof. intros []. constructor; assumption. Qed.

Lemma wf_out_of_memory b w :
  heap_wf w → heap_wf (upd_heap (with_out_of_memory b) w).
Proof. intros []. constructor; assumption. Qed.

Lemma wf_bump size w :
  heap_wf w → 0 ≤ size →
  size ≤ heap_size (g_shared w) - offset (g_shared w) →
  heap_wf (upd_heap (with_offset
     (offset (g_shared w) + sizeof_ptr * ((size + 7) / sizeof_ptr))) w).
Proof.
  intros [] Hs Hle.
  pose proof (round_up_ptr_bounds size Hs) as [Hb Hm].
  assert (Hr : sizeof_ptr * ((size + 7) / sizeof_ptr)
               ≤ heap_size (g_shared w) - offset (g_shared w)).
  { apply round_up_ptr_le; [lia| |lia].
    rewrite Zminus_mod, wf_size_aligned0, wf_offset_aligned0. reflexivity. }
  constructor; cbn; try assumption; try lia.
  - rewrite Z.add_mod, wf_offset_aligned0, Hm by (unfold sizeof_ptr; lia).
    reflexivity.
  - eapply chain_weaken; [eassumption|lia].
Qed.

(** The three ways a call can go on a sound heap. *)
Lemma malloc_cases size w :
  heap_wf w → 0 ≤ size < 2 ^ 63 →
  ∃ p w', stress_shared_heap_malloc size w = Some (p, w') ∧ heap_wf w' ∧
    ((p = NULL ∧ hd 0 (oracle w) < 0 ∧ w' = pop w)
     ∨ (p = NULL ∧ 0 ≤ hd 0 (oracle w)
        ∧ heap_size (g_shared w) - offset (g_shared w) < size
        ∧ w' = upd_heap (with_out_of_memory true) (pop w))
     ∨ (p = heap (g_shared w) + offset (g_shared w)
        ∧ 0 ≤ hd 0 (oracle w)
        ∧ size ≤ heap_size (g_shared w) - offset (g_shared w)
        ∧ w' = upd_heap (with_offset
            (offset (g_shared w) + sizeof_ptr * ((size + 7) / sizeof_ptr)))
            (pop w))).
Proof.
  intros Hwf Hs.
  destruct (Z.lt_ge_cases (hd 0 (oracle w)) 0) as [Hl|Hl].
  - eexists _, _. split; [apply malloc_lock_fail; exact Hl|].
    split; [now apply wf_pop|]. left. auto.
  - destruct (Z.lt_ge_cases (heap_size (g_shared w) - offset (g_shared w)) size)
      as [Hc|Hc].
    + eexists _, _. split; [apply malloc_oom; assumption|].
      split; [now apply wf_out_of_memory, wf_pop|]. right; left. auto.
    + eexists _, _. split; [apply malloc_ok; assumption|].
      split; [apply (wf_bump size (pop w)); [now apply wf_pop|lia|exact Hc]|].
      right; right. auto.
Qed.

(** ** Runs of [allocate] *)

Lemma bind_Some {A B} (m : M A) (k : A → M B) w a w1 :
  m w = Some (a, w1) → bind m k w = k a w1.
Proof. unfold bind. intros ->. reflexivity. Qed.

Lemma alloc_seq_sound sizes : ∀ w,
  heap_wf w → Forall (λ n, 0 ≤ n < 2 ^ 63) sizes →
  ∃ rs w', alloc_seq sizes w = Some (rs, w') ∧ heap_wf w' ∧
    heap (g_shared w') = heap (g_shared w) ∧
    heap_size (g_shared w') = heap_size (g_shared w) ∧
    offset (g_shared w) ≤ offset (g_shared w') ∧
    map snd rs = sizes ∧
    (∀ i p n, rs !! i = Some (p, n) → p ≠ NULL →
       heap (g_shared w) + offset (g_shared w) ≤ p ∧
       p + n ≤ heap (g_shared w) + offset (g_shared w') ∧
       p mod sizeof_ptr = 0) ∧
    (∀ i j p n q k, (i < j)%nat →
       rs !! i = Some (p, n) → rs !! j = Some (q, k) →
       p ≠ NULL → q ≠ NULL → p + n ≤ q).
Proof.
  induction sizes as [|n sizes IH]; intros w Hwf Hs.
  - exists [], w. cbn. split; [reflexivity|]. split; [assumption|].
    split; [reflexivity|]. split; [reflexivity|]. split; [lia|].
    split; [reflexivity|]. split.
    + intros i p n H. rewrite lookup_nil in H. discriminate.
    + intros i j p n q k _ H. rewrite lookup_nil in H. discriminate.
  - inversion Hs as [|? ? Hn Hs']; subst.
    destruct (malloc_cases n w Hwf Hn) as (p0 & w1 & E1 & Hwf1 & Hcase).
    destruct (IH w1 Hwf1 Hs') as (rs & w' & E2 & Hwf' & Hh & Hsz & Hoff & Hmap & Hin & Hdis).
    exists ((p0, n) :: rs), w'.
    assert (Hsame : heap (g_shared w1) = heap (g_shared w) ∧
                    heap_size (g_shared w1) = heap_size (g_shared w) ∧
                    offset (g_shared w) ≤ offset (g_shared w1) ∧
                    (p0 ≠ NULL →
                     p0 = heap (g_shared w) + offset (g_shared w) ∧
                     p0 + n ≤ heap (g_shared w) + offset (g_shared w1))).
    { pose proof (round_up_ptr_bounds n ltac:(lia)) as [Hb _].
      destruct Hcase as [(-> & _ & ->)|[(-> & _ & _ & ->)|(-> & _ & _ & ->)]];
        cbn; repeat split; try lia; try (intros H; now contradiction H). }
    destruct Hsame as (Hh1 & Hsz1 & Hoff1 & Hp0).
    split.
    { cbn [alloc_seq]. rewrite (bind_Some _ _ _ _ _ E1).
      rewrite (bind_Some _ _ _ _ _ E2). reflexivity. }
    split; [exact Hwf'|]. split; [congruence|]. split; [congruence|].
    split; [lia|]. split; [cbn; congruence|]. split.
    + intros [|i] p m Hl Hp; cbn in Hl.
      * injection Hl as -> ->. destruct (Hp0 Hp) as [-> Hle].
        split; [lia|]. split; [lia|].
        destruct Hwf. rewrite Z.add_mod, wf_heap_aligned0, wf_offset_aligned0
          by (unfold sizeof_ptr; lia). reflexivity.
      * destruct (Hin i p m Hl Hp) as (H1 & H2 & H3).
        rewrite Hh1 in H1, H2. repeat split; [lia|lia|exact H3].
    + intros [|i] [|j] p m q k Hij Hi Hj Hp Hq; cbn in Hi, Hj; try lia.
      * injection Hi as -> ->. destruct (Hp0 Hp) as [_ Hle].
        destruct (Hin j q k Hj Hq) as (H1 & _). rewrite Hh1 in H1. lia.
      * apply (Hdis i j p m q k); [lia|assumption..].
Qed.

Lemma sizes_bounded sizes cap :
  Forall (λ n, 0 ≤ n) sizes → foldr Z.add 0 sizes ≤ cap →
  Forall (λ n, 0 ≤ n ≤ cap) sizes.
Proof.
  intros H. revert cap. induction H as [|n sizes Hn H IH]; intros cap Hsum.
  - constructor.
  - cbn in Hsum.
    assert (0 ≤ foldr Z.add 0 sizes).
    { clear -H. induction H; cbn; lia. }
    constructor; [lia|].
    eapply Forall_impl; [apply (IH (foldr Z.add 0 sizes)); lia|].
    cbn. intros. lia.
Qed.

(** When every lock is granted and the rounded requests fit into the free
    part of the heap, every request is granted: the chunks follow one
    another from the top of the heap. *)
Lemma demand_nonneg sizes : 0 ≤ demand sizes.
Proof.
  induction sizes as [|n sizes IH]; cbn; [lia|].
  fold (demand sizes).
  assert (0 ≤ rounded n); [|lia].
  unfold rounded. apply Z.land_nonneg. left. unfold wrap64.
  apply Z.mod_pos_bound. lia.
Qed.

Lemma alloc_seq_granted sizes : ∀ w,
  heap_wf w → locks_granted w →
  Forall (λ n, 0 ≤ n < 2 ^ 63) sizes →
  demand sizes ≤ heap_size (g_shared w) - offset (g_shared w) →
  ∃ w', alloc_seq sizes w
        = Some (chunks (heap (g_shared w) + offset (g_shared w)) sizes, w') ∧
        offset (g_shared w') = offset (g_shared w) + demand sizes.
Proof.
  induction sizes as [|n sizes IH]; intros w Hwf Hl Hpos Hfit.
  - exists w. cbn. split; [reflexivity|lia].
  - inversion Hpos as [|? ? Hn Hpos']; subst.
    pose proof (demand_nonneg sizes) as Hd.
    cbn [demand foldr] in Hfit. fold (demand sizes) in Hfit.
    pose proof (round_up_ptr n Hn) as Hr.
    pose proof (round_up_ptr_bounds n ltac:(lia)) as [Hb _].
    rewrite Hr in Hfit.
    assert (Hl0 : 0 ≤ hd 0 (oracle w)).
    { unfold locks_granted in Hl. destruct (oracle w); cbn; [lia|].
      now inversion Hl. }
    assert (Hl1 : locks_granted (pop w)).
    { unfold locks_granted in *. cbn. destruct (oracle w); cbn; [constructor|].
      now inversion Hl. }
    pose proof (malloc_ok n w Hwf Hl0 Hn ltac:(lia)) as E1.
    set (w1 := upd_heap (with_offset
            (offset (g_shared w) + sizeof_ptr * ((n + 7) / sizeof_ptr)))
            (pop w)) in *.
    assert (Hwf1 : heap_wf w1).
    { apply (wf_bump n (pop w)); [now apply wf_pop|lia|cbn; lia]. }
    destruct (IH w1 Hwf1 Hl1 Hpos') as (w' & E2 & Ho).
    { cbn. lia. }
    exists w'. split.
    + cbn [alloc_seq chunks]. rewrite (bind_Some _ _ _ _ _ E1).
      rewrite (bind_Some _ _ _ _ _ E2). cbn [ret].
      cbn [w1 upd_heap g_shared heap offset with_offset pop] in *.
      rewrite Hr, Z.add_assoc. reflexivity.
    + rewrite Ho. cbn. fold (demand sizes). lia.
Qed.

Lemma chunks_not_null sizes : ∀ p,
  0 < p → Forall (λ pn, pn.1 ≠ NULL) (chunks p sizes).
Proof.
  induction sizes as [|n sizes IH]; intros p Hp; cbn [chunks]; constructor.
  - cbn. unfold NULL. lia.
  - apply IH.
    assert (0 ≤ rounded n); [|lia].
    unfold rounded. apply Z.land_nonneg. left. unfold wrap64.
    apply Z.mod_pos_bound. lia.
Qed.

(** C1. For every sequence of [allocate(n)] calls whose sizes add up to at
    most the capacity of the region, on a sound heap and whatever the lock
    does: each call returns, every chunk [p, p+n) returned (a pointer other
    than [NULL]) lies inside the region [heap, heap + heap_size), every
    returned pointer is a multiple of the pointer size, and no two returned
    chunks overlap.  And chunks are returned: when every lock is granted
    and the requests, each rounded up to the pointer size, fit into what
    is free, no call returns [NULL]; the chunks then follow one another
    from the top of the heap, and the offset advances by what they
    take. *)
Theorem alloc_chunks_in_region_aligned_disjoint (w : world) (sizes : list Z) :
  heap_wfb w = true →
  Forall (λ n, 0 ≤ n) sizes →
  foldr Z.add 0 sizes ≤ heap_size (g_shared w) →
  ∃ rs w', alloc_seq sizes w = Some (rs, w') ∧
    map snd rs = sizes ∧
    (∀ i p n, rs !! i = Some (p, n) → p ≠ NULL →
       heap (g_shared w) ≤ p ∧
       p + n ≤ heap (g_shared w) + heap_size (g_shared w) ∧
       p mod sizeof_ptr = 0) ∧
    (∀ i j p n q k, i ≠ j →
       rs !! i = Some (p, n) → rs !! j = Some (q, k) →
       p ≠ NULL → q ≠ NULL → p + n ≤ q ∨ q + k ≤ p) ∧
    (locks_granted w →
     demand sizes ≤ heap_size (g_shared w) - offset (g_shared w) →
     rs = chunks (heap (g_shared w) + offset (g_shared w)) sizes ∧
     Forall (λ pn, pn.1 ≠ NULL) rs ∧
     offset (g_shared w') = offset (g_shared w) + demand sizes).
Proof.
  intros Hb Hpos Hsum. apply heap_wfb_sound in Hb.
  assert (Hs : Forall (λ n, 0 ≤ n < 2 ^ 63) sizes).
  { eapply Forall_impl; [apply (sizes_bounded _ _ Hpos Hsum)|].
    cbn. intros n Hn. destruct Hb. lia. }
  destruct (alloc_seq_sound sizes w Hb Hs)
    as (rs & w' & E & Hwf' & Hh & Hsz & Hoff & Hmap & Hin & Hdis).
  exists rs, w'. split; [exact E|]. split; [exact Hmap|]. split; [|split].
  - intros i p n Hl Hp. destruct (Hin i p n Hl Hp) as (H1 & H2 & H3).
    destruct Hb, Hwf'. rewrite Hsz in *. repeat split; [lia|lia|exact H3].
  - intros i j p n q k Hij Hi Hj Hp Hq.
    destruct (Nat.lt_total i j) as [Hlt|[->|Hlt]]; [|contradiction|].
    + left. eapply Hdis; eauto.
    + right. eapply Hdis; eauto.
  - intros Hl Hfit.
    destruct (alloc_seq_granted sizes w Hb Hl Hs Hfit) as (w2 & E2 & Ho).
    rewrite E in E2. injection E2 as -> <-.
    split; [reflexivity|]. split; [|exact Ho].
    apply chunks_not_null. destruct Hb. lia.
Qed.

(** ** Initialisation *)

Lemma init_request_range cfg : 0 ≤ init_request cfg ≤ 64 * KB.
Proof.
  unfold init_request, STRESS_MINIMUM, STRESS_MAX_SHARED_HEAP_SIZE, KB.
  pose proof (wrap64_range
    (STRESS_MISC_METRICS_MAX cfg * (32 + sizeof_ptr) * STRESS_MAX cfg)) as Hr.
  assert (0 ≤ wrap64 (STRESS_MISC_METRICS_MAX cfg * (32 + sizeof_ptr)
                      * STRESS_MAX cfg) / 2) by (apply Z.div_pos; lia).
  destruct (HAVE_BUILTIN_CONSTANT_P cfg);
    match goal with |- context [if ?a <? ?b then _ else _] =>
      destruct (Z.ltb_spec a b) end; lia.
Qed.

(** A successful [stress_shared_heap_init] on a zero-filled [g_shared]
    leaves a sound, empty heap whose size is the request rounded up to
    whole pages, which is what [mmap] maps for it. *)
Lemma init_sound cfg k answers p l rest :
  page_size cfg = 2 ^ k → 3 ≤ k ≤ 32 →
  answers = p :: l :: rest →
  0 < p → p mod page_size cfg = 0 → p + 2 ^ 33 < 2 ^ 64 → l ≠ NULL →
  ∃ w, stress_shared_heap_init cfg (boot_world answers) = Some (l, w) ∧
    heap_wf w ∧
    g_shared w = mk_shared_heap NULL l p
      (page_size cfg * ((init_request cfg + page_size cfg - 1) / page_size cfg))
      0 false ∧
    mem w = ∅ ∧ oracle w = rest.
Proof.
  intros Hps Hk -> Hp Hal Hend Hl.
  pose proof (init_request_range cfg) as Hr. unfold KB in Hr.
  assert (Hpow : 8 ≤ 2 ^ k ≤ 2 ^ 32).
  { split; [change 8 with (2 ^ 3)|]; apply Z.pow_le_mono_r; lia. }
  assert (Hsz : Z.land (wrap64 (init_request cfg + page_size cfg - 1))
                  (lnot64 (page_size cfg - 1))
                = page_size cfg
                  * ((init_request cfg + page_size cfg - 1) / page_size cfg)).
  { rewrite Hps. rewrite wrap64_small by lia.
    rewrite land_lnot64_ones by lia.
    pose proof (Z.div_mod (init_request cfg + 2 ^ k - 1) (2 ^ k)). lia. }
  assert (Hne : (p =? MAP_FAILED) = false).
  { apply Z.eqb_neq. unfold MAP_FAILED. lia. }
  assert (Hln : (l =? NULL) = false) by now apply Z.eqb_neq.
  eexists. split.
  { unfold stress_shared_heap_init, mmap, stress_lock_create, bind, ret,
      set_heap, get_heap, emit, ask.
    fold (init_request cfg). cbn [boot_world oracle pop upd_heap upd_trace hd tail
      g_shared mem trace].
    rewrite Hne. cbn [boot_world oracle pop upd_heap upd_trace hd tail
      g_shared mem trace].
    rewrite Hln. rewrite Hsz. reflexivity. }
  cbn. split; [|auto].
  set (q := (init_request cfg + page_size cfg - 1) / page_size cfg).
  assert (Hq : 0 ≤ q ≤ 2 ^ 17).
  { unfold q. rewrite Hps. split.
    - apply Z.div_pos; lia.
    - apply Z.div_le_upper_bound; lia. }
  assert (Hmul : 0 ≤ page_size cfg * q ≤ init_request cfg + page_size cfg - 1).
  { split; [rewrite Hps; apply Z.mul_nonneg_nonneg; lia|].
    unfold q. apply Z.mul_div_le. lia. }
  constructor; cbn; try lia.
  - rewrite Hps in Hal. eapply pow2_aligned; eauto. lia.
  - rewrite Hps. apply (pow2_aligned k); [lia|].
    rewrite Z.mul_comm. apply Z.mod_mul. lia.
  - reflexivity.
  - constructor.
Qed.

Lemma alloc_chunks_witness :
  ∃ w', alloc_seq [5; 16; 0; 4000] (example_world [])
        = Some ([(139637976727552, 5); (139637976727560, 16);
                 (139637976727576, 0); (139637976727576, 4000)], w') ∧
        offset (g_shared w') = 4024.
Proof.
  destruct (alloc_chunks_in_region_aligned_disjoint (example_world [])
              [5; 16; 0; 4000])
    as (rs & w' & E & _ & _ & _ & Hg).
  - vm_compute; reflexivity.
  - repeat constructor; lia.
  - vm_compute. discriminate.
  - destruct Hg as (Hrs & _ & Ho).
    + constructor.
    + vm_compute. discriminate.
    + exists w'. rewrite E, Hrs. split; [reflexivity|exact Ho].
Defined.

(** ** One call of [stress_shared_heap_dup_const] *)

Lemma store_twice p link text m :
  store_next p link (store_next p NULL (store_str p text m))
  = <[p := mk_heap_str link (cstr text)]> m.
Proof.
  unfold store_next, store_str.
  rewrite !lookup_insert_eq. cbn. rewrite !insert_insert_eq. reflexivity.
Qed.

Lemma store_once p text m :
  store_next p NULL (store_str p text m)
  = <[p := mk_heap_str NULL (cstr text)]> m.
Proof.
  unfold store_next, store_str.
  rewrite !lookup_insert_eq. cbn. rewrite !insert_insert_eq. reflexivity.
Qed.

Lemma dup_unfold text w :
  stress_shared_heap_dup_const text w =
  if hd 0 (oracle w) <? 0 then Some (NULL, pop w)
  else
    match lookup_text w text with
    | None => None
    | Some found =>
        if negb (found =? NULL) then Some (found, pop w)
        else
          match stress_shared_heap_malloc
                  (wrap64 (strlen text + 1 + sizeof_ptr)) (pop w) with
          | None => None
          | Some (heap_str, w1) =>
              if heap_str =? NULL then Some (NULL, w1)
              else if hd 0 (oracle w1) <? 0
              then Some (heap_str + sizeof_ptr,
                         pop (write_node heap_str NULL text w1))
              else Some (heap_str + sizeof_ptr,
                         upd_heap (with_str_list_head heap_str)
                           (write_node heap_str (str_list_head (g_shared w1))
                              text (pop w1)))
          end
    end.
Proof.
  unfold stress_shared_heap_dup_const, lookup_text.
  unfold bind at 1 2 3 4. unfold get_heap at 1 2, stress_lock_acquire at 1,
    ask at 1, get_mem, ret at 1.
  cbn [g_shared pop mem].
  destruct (hd 0 (oracle w) <? 0); [reflexivity|].
  destruct (str_list_find _ _ _ _) as [found|]; [|reflexivity].
  destruct (negb (found =? NULL)).
  { unfold bind, stress_lock_release, ret. reflexivity. }
  unfold bind at 1 2. unfold stress_lock_release at 1, ret at 1.
  destruct (stress_shared_heap_malloc _ (pop w)) as [[heap_str w1]|];
    [|reflexivity].
  destruct (heap_str =? NULL); [reflexivity|].
  unfold bind, set_mem, stress_lock_acquire, ask, ret, get_heap, set_heap,
    stress_lock_release.
  cbn [oracle upd_mem g_shared mem pop trace].
  destruct (hd 0 (oracle w1) <? 0).
  - unfold write_node, pop, upd_mem. cbn. rewrite store_once. reflexivity.
  - unfold write_node, pop, upd_mem, upd_heap. cbn. rewrite store_twice.
    reflexivity.
Qed.

Lemma fits_len text :
  fits text →
  wrap64 (strlen text + 1 + sizeof_ptr) = strlen text + 1 + sizeof_ptr
  ∧ 9 ≤ strlen text + 1 + sizeof_ptr < 2 ^ 63.
Proof.
  unfold fits. intros H. pose proof (strlen_nonneg text).
  unfold sizeof_ptr in *. rewrite wrap64_small by lia. lia.
Qed.

(** The state after the bump for a request of [size] bytes, the two lock
    acquisitions of the search and of [allocate] consumed. *)
Local Abbreviation bumped size w :=
  (upd_heap (with_offset (offset (g_shared w)
                          + sizeof_ptr * ((size + 7) / sizeof_ptr)))
            (pop (pop w))).

Local Abbreviation top w := (heap (g_shared w) + offset (g_shared w)).

Lemma wf_unpublished text size w :
  heap_wf w → 0 < size →
  size ≤ heap_size (g_shared w) - offset (g_shared w) →
  heap_wf (pop (write_node (top w) NULL text (bumped size w))).
Proof.
  intros Hwf Hs Hle.
  pose proof (wf_bump size w Hwf ltac:(lia) Hle) as Hw.
  pose proof (round_up_ptr_bounds size ltac:(lia)) as [Hb _].
  constructor;
    [apply Hw|apply Hw|apply Hw|apply Hw|apply Hw|apply Hw|apply Hw|apply Hw|].
  cbn. destruct Hwf.
  eapply chain_weaken; [apply chain_insert_above; [eassumption|]|]; lia.
Qed.

Lemma wf_published text size w :
  heap_wf w → 0 < size →
  size ≤ heap_size (g_shared w) - offset (g_shared w) →
  heap_wf (upd_heap (with_str_list_head (top w))
             (write_node (top w) (str_list_head (g_shared w)) text
                (pop (bumped size w)))).
Proof.
  intros Hwf Hs Hle.
  pose proof (wf_bump size w Hwf ltac:(lia) Hle) as Hw.
  pose proof (round_up_ptr_bounds size ltac:(lia)) as [Hb _].
  constructor;
    [apply Hw|apply Hw|apply Hw|apply Hw|apply Hw|apply Hw|apply Hw|apply Hw|].
  cbn. destruct Hwf.
  econstructor.
  - lia.
  - lia.
  - apply lookup_insert_eq.
  - cbn. apply chain_insert_above; [assumption|lia].
Qed.

(** The ways a call can go on a sound heap. *)
Lemma dup_cases text w :
  heap_wf w → fits text →
  ∃ p w', stress_shared_heap_dup_const text w = Some (p, w') ∧ heap_wf w' ∧
    let h := g_shared w in
    let len := strlen text + 1 + sizeof_ptr in
    ((p = NULL ∧ hd 0 (oracle w) < 0 ∧ w' = pop w)
     ∨ (p ≠ NULL ∧ 0 ≤ hd 0 (oracle w) ∧ lookup_text w text = Some p
        ∧ w' = pop w)
     ∨ (lookup_text w text = Some NULL ∧ 0 ≤ hd 0 (oracle w) ∧
        ((p = NULL ∧ hd 0 (oracle (pop w)) < 0 ∧ w' = pop (pop w))
         ∨ (p = NULL ∧ 0 ≤ hd 0 (oracle (pop w))
            ∧ heap_size h - offset h < len
            ∧ w' = upd_heap (with_out_of_memory true) (pop (pop w)))
         ∨ (p = top w + sizeof_ptr ∧ 0 ≤ hd 0 (oracle (pop w))
            ∧ len ≤ heap_size h - offset h
            ∧ hd 0 (oracle (pop (pop w))) < 0
            ∧ w' = pop (write_node (top w) NULL text (bumped len w)))
         ∨ (p = top w + sizeof_ptr ∧ 0 ≤ hd 0 (oracle (pop w))
            ∧ len ≤ heap_size h - offset h
            ∧ 0 ≤ hd 0 (oracle (pop (pop w)))
            ∧ w' = upd_heap (with_str_list_head (top w))
                     (write_node (top w) (str_list_head h) text
                        (pop (bumped len w))))))).
Proof.
  intros Hwf Hfit. cbv zeta.
  destruct (fits_len text Hfit) as [Hlen Hrange].
  rewrite dup_unfold.
  destruct (Z.ltb_spec (hd 0 (oracle w)) 0) as [Hl|Hl].
  { eexists _, _. split; [reflexivity|]. split; [now apply wf_pop|]. auto. }
  destruct (find_total (mem w) (heap (g_shared w)) (top w)
              (str_list_head (g_shared w)) text (walk_bound (g_shared w)))
    as [found Hfound].
  { now destruct Hwf. }
  { unfold walk_bound. lia. }
  unfold lookup_text at 1. rewrite Hfound.
  destruct (Z.eqb_spec found NULL) as [->|Hne]; cbn [negb].
  2:{ eexists _, _. split; [reflexivity|]. split; [now apply wf_pop|].
      right; left. auto. }
  rewrite Hlen.
  pose proof (wf_pop w Hwf) as Hwf1.
  destruct (malloc_cases (strlen text + 1 + sizeof_ptr) (pop w) Hwf1 ltac:(lia))
    as (q & w1 & E & Hwf2 & Hcase).
  rewrite E.
  assert (Htop : top w ≠ NULL).
  { destruct Hwf. unfold NULL. lia. }
  destruct Hcase as [(-> & Hl2 & ->)|[(-> & Hl2 & Hc & ->)|(-> & Hl2 & Hc & ->)]].
  - eexists _, _. split; [reflexivity|]. split; [exact Hwf2|].
    right; right. split; [exact Hfound|]. split; [exact Hl|]. left. auto.
  - eexists _, _. split; [reflexivity|]. split; [exact Hwf2|].
    right; right. split; [exact Hfound|]. split; [exact Hl|]. right; left. auto.
  - cbn [pop g_shared upd_heap oracle].
    destruct (Z.eqb_spec (top w) NULL) as [E0|_]; [contradiction|].
    destruct (Z.ltb_spec (hd 0 (tail (tail (oracle w)))) 0) as [Hl3|Hl3].
    + eexists _, _. split; [reflexivity|].
      split; [apply wf_unpublished; [assumption|lia|exact Hc]|].
      right; right. split; [exact Hfound|]. split; [exact Hl|].
      right; right; left. auto.
    + eexists _, _. split; [reflexivity|].
      split; [apply wf_published; [assumption|lia|exact Hc]|].
      right; right. split; [exact Hfound|]. split; [exact Hl|].
      right; right; right. auto.
Qed.

(** *** What later walks find *)

Lemma find_fuel_enough m lo hi p text f1 f2 :
  chain m lo hi p →
  (Z.to_nat (hi - lo) < f1)%nat → (Z.to_nat (hi - lo) < f2)%nat →
  str_list_find f1 m p text = str_list_find f2 m p text.
Proof.
  intros Hc H1 H2.
  destruct (find_total m lo hi p text f1 Hc H1) as [r Hr].
  destruct (Nat.le_ge_cases f1 f2) as [Hle|Hle].
  - rewrite Hr. symmetry. eapply find_fuel_mono; eauto.
  - destruct (find_total m lo hi p text f2 Hc H2) as [r' Hr'].
    rewrite Hr'. eapply find_fuel_mono; eauto.
Qed.

Lemma lookup_unpublished text size w t :
  heap_wf w → 0 ≤ size →
  lookup_text (pop (write_node (top w) NULL text (bumped size w))) t
  = lookup_text w t.
Proof.
  intros Hwf Hs. destruct Hwf. unfold lookup_text, walk_bound.
  cbn -[str_list_find Z.to_nat Z.add Z.mul Z.div].
  pose proof (round_up_ptr_bounds size Hs) as [Hb _].
  erewrite find_insert_above; [|eassumption|lia].
  eapply find_fuel_enough; [eassumption|lia..].
Qed.

Lemma lookup_published text size w t :
  heap_wf w → 0 < size →
  lookup_text (upd_heap (with_str_list_head (top w))
                 (write_node (top w) (str_list_head (g_shared w)) text
                    (pop (bumped size w)))) t
  = if strcmp t (cstr text) =? 0 then Some (top w + sizeof_ptr)
    else lookup_text w t.
Proof.
  intros Hwf Hs. destruct Hwf. unfold lookup_text at 1. unfold walk_bound.
  cbn -[str_list_find Z.to_nat Z.add Z.mul Z.div lookup_text].
  pose proof (round_up_ptr_bounds size ltac:(lia)) as [Hb _].
  cbn [str_list_find].
  destruct (Z.eqb_spec (top w) NULL) as [E|_]; [unfold NULL in E; lia|].
  rewrite lookup_insert_eq. cbn [str next].
  destruct (strcmp t (cstr text) =? 0); [reflexivity|].
  unfold lookup_text, walk_bound.
  erewrite find_insert_above; [|eassumption|lia].
  eapply find_fuel_enough; [eassumption|lia..].
Qed.

Lemma strcmp_cstr_r t text :
  (strcmp t (cstr text) =? 0) = true ↔ cstr t = cstr text.
Proof.
  rewrite Z.eqb_eq, strcmp_zero_iff, cstr_idem. reflexivity.
Qed.

Lemma lookup_same_text w a b :
  cstr a = cstr b → lookup_text w a = lookup_text w b.
Proof. intros E. unfold lookup_text. now apply find_same_text. Qed.

Lemma granted_hd w : locks_granted w → 0 ≤ hd 0 (oracle w).
Proof.
  unfold locks_granted. intros H. destruct (oracle w); cbn; [lia|].
  now inversion H.
Qed.

Lemma granted_pop w : locks_granted w → locks_granted (pop w).
Proof.
  unfold locks_granted. cbn. intros H. destruct (oracle w); cbn; [constructor|].
  now inversion H.
Qed.

(** A call on a sound heap whose locks are granted: the string is found,
    or the heap is short of room, or a node is allocated and published. *)
Lemma dup_summary text w :
  heap_wf w → fits text → locks_granted w →
  ∃ p w', stress_shared_heap_dup_const text w = Some (p, w') ∧
    heap_wf w' ∧ locks_granted w' ∧
    heap (g_shared w') = heap (g_shared w) ∧
    heap_size (g_shared w') = heap_size (g_shared w) ∧
    let len := strlen text + 1 + sizeof_ptr in
    ((p ≠ NULL ∧ lookup_text w text = Some p ∧
      offset (g_shared w') = offset (g_shared w) ∧
      (∀ t, lookup_text w' t = lookup_text w t))
     ∨ (p = NULL ∧ lookup_text w text = Some NULL ∧
        heap_size (g_shared w) - offset (g_shared w) < len ∧
        offset (g_shared w') = offset (g_shared w) ∧
        (∀ t, lookup_text w' t = lookup_text w t))
     ∨ (p = top w + sizeof_ptr ∧ lookup_text w text = Some NULL ∧
        len ≤ heap_size (g_shared w) - offset (g_shared w) ∧
        offset (g_shared w') = offset (g_shared w) + rounded len ∧
        (∀ t, lookup_text w' t
              = if strcmp t (cstr text) =? 0 then Some p
                else lookup_text w t))).
Proof.
  intros Hwf Hfit Hlk.
  destruct (fits_len text Hfit) as [_ Hrange].
  destruct (dup_cases text w Hwf Hfit) as (p & w' & E & Hwf' & Hcase).
  cbv zeta in Hcase.
  pose proof (granted_hd w Hlk) as H1.
  pose proof (granted_hd _ (granted_pop w Hlk)) as H2.
  pose proof (granted_hd _ (granted_pop _ (granted_pop w Hlk))) as H3.
  exists p, w'. split; [exact E|]. split; [exact Hwf'|].
  destruct Hcase as [(_ & Hl & _)|[(Hp & _ & Hfound & ->)|(Hnf & _ & Hcase)]];
    [lia| |].
  { split; [now apply granted_pop|]. split; [reflexivity|].
    split; [reflexivity|]. left. auto. }
  destruct Hcase as [(_ & Hl & _)|[(-> & _ & Hc & ->)|
                     [(_ & _ & _ & Hl & _)|(-> & _ & Hc & _ & ->)]]];
    [lia| |lia|].
  - split; [now apply granted_pop, granted_pop|]. split; [reflexivity|].
    split; [reflexivity|]. right; left. auto.
  - split; [now apply granted_pop, granted_pop, granted_pop|].
    split; [reflexivity|]. split; [reflexivity|]. right; right.
    split; [reflexivity|]. split; [exact Hnf|]. split; [exact Hc|].
    split; [cbn; now rewrite round_up_ptr by lia|].
    intros t. apply lookup_published; [exact Hwf|lia].
Qed.

(** ** Runs of [stress_shared_heap_dup_const] *)

Lemma intern_seq_cons t rest w p w1 rs w' :
  stress_shared_heap_dup_const t w = Some (p, w1) →
  intern_seq rest w1 = Some (rs, w') →
  intern_seq (t :: rest) w
  = Some ((p, offset (g_shared w1) - offset (g_shared w)) :: rs, w').
Proof.
  intros E1 E2. cbn [intern_seq]. unfold bind, get_heap, ret.
  rewrite E1, E2. reflexivity.
Qed.

(** A string already in the list stays where it is. *)
Lemma lookup_stable text w p w' t r :
  (let len := strlen text + 1 + sizeof_ptr in
   (p ≠ NULL ∧ lookup_text w text = Some p ∧
    offset (g_shared w') = offset (g_shared w) ∧
    (∀ t, lookup_text w' t = lookup_text w t))
   ∨ (p = NULL ∧ lookup_text w text = Some NULL ∧
      heap_size (g_shared w) - offset (g_shared w) < len ∧
      offset (g_shared w') = offset (g_shared w) ∧
      (∀ t, lookup_text w' t = lookup_text w t))
   ∨ (p = top w + sizeof_ptr ∧ lookup_text w text = Some NULL ∧
      len ≤ heap_size (g_shared w) - offset (g_shared w) ∧
      offset (g_shared w') = offset (g_shared w) + rounded len ∧
      (∀ t, lookup_text w' t
            = if strcmp t (cstr text) =? 0 then Some p
              else lookup_text w t))) →
  lookup_text w t = Some r → r ≠ NULL → lookup_text w' t = Some r.
Proof.
  cbv zeta.
  intros [(_ & _ & _ & Hl)|[(_ & _ & _ & _ & Hl)|(_ & Hnf & _ & _ & Hl)]] Hr Hne;
    rewrite Hl; try exact Hr.
  destruct (strcmp t (cstr text) =? 0) eqn:E; [|exact Hr].
  apply strcmp_cstr_r in E.
  rewrite (lookup_same_text w t text E) in Hr. congruence.
Qed.

Lemma intern_seq_props texts : ∀ w,
  heap_wf w → locks_granted w → Forall fits texts →
  ∃ rs w', intern_seq texts w = Some (rs, w') ∧
    heap_wf w' ∧
    heap (g_shared w') = heap (g_shared w) ∧
    offset (g_shared w') = offset (g_shared w) + foldr Z.add 0 (map snd rs) ∧
    length rs = length texts ∧
    (∀ t r, lookup_text w t = Some r → r ≠ NULL →
       lookup_text w' t = Some r ∧
       ∀ j t', texts !! j = Some t' → cstr t' = cstr t →
               rs !! j = Some (r, 0)) ∧
    (∀ t, lookup_text w t = Some NULL →
       heap_size (g_shared w) - offset (g_shared w)
         < strlen t + 1 + sizeof_ptr →
       ∀ j t', texts !! j = Some t' → cstr t' = cstr t →
               rs !! j = Some (NULL, 0)) ∧
    (∀ j t q b, texts !! j = Some t → rs !! j = Some (q, b) →
       (q ≠ NULL → lookup_text w' t = Some q) ∧
       (b = 0 ∨ (b = rounded (strlen t + 1 + sizeof_ptr) ∧ q ≠ NULL))) ∧
    (∀ i j a b p x q y, (i < j)%nat →
       texts !! i = Some a → texts !! j = Some b →
       rs !! i = Some (p, x) → rs !! j = Some (q, y) →
       cstr a = cstr b → p = q ∧ y = 0).
Proof.
  induction texts as [|t0 rest IH]; intros w Hwf Hlk Hfit.
  - exists [], w. cbn. split; [reflexivity|]. split; [exact Hwf|].
    split; [reflexivity|]. split; [lia|]. split; [reflexivity|].
    split; [|split; [|split]].
    + intros t r Hr Hne. split; [exact Hr|]. intros j t' H.
      rewrite lookup_nil in H. discriminate.
    + intros t _ _ j t' H. rewrite lookup_nil in H. discriminate.
    + intros j t q b H. rewrite lookup_nil in H. discriminate.
    + intros i j a b p x q y _ H. rewrite lookup_nil in H. discriminate.
  - inversion Hfit as [|? ? Hfit0 Hfit']; subst.
    destruct (dup_summary t0 w Hwf Hfit0 Hlk)
      as (p0 & w1 & E1 & Hwf1 & Hlk1 & Hh1 & Hsz1 & Hcase).
    destruct (IH w1 Hwf1 Hlk1 Hfit')
      as (rs & w' & E2 & Hwf' & Hh & Hoff & Hlen & HA & HB & HC & HD).
    pose proof (lookup_stable t0 w p0 w1) as Hstab.
    destruct (fits_len t0 Hfit0) as [_ Hrange0].
    assert (Hround : 0 < rounded (strlen t0 + 1 + sizeof_ptr)).
    { rewrite round_up_ptr by lia.
      pose proof (round_up_ptr_bounds (strlen t0 + 1 + sizeof_ptr) ltac:(lia)).
      lia. }
    (* what the first call leaves for later calls on the same content *)
    assert (Hfirst :
      offset (g_shared w) ≤ offset (g_shared w1) ∧
      (offset (g_shared w1) - offset (g_shared w) = 0
       ∨ (offset (g_shared w1) - offset (g_shared w)
          = rounded (strlen t0 + 1 + sizeof_ptr) ∧ p0 ≠ NULL)) ∧
      (p0 ≠ NULL → lookup_text w1 t0 = Some p0) ∧
      (p0 = NULL → lookup_text w1 t0 = Some NULL ∧
                   heap_size (g_shared w1) - offset (g_shared w1)
                     < strlen t0 + 1 + sizeof_ptr)).
    { cbv zeta in Hcase.
      destruct Hcase as [(Hp & Hf & Ho & Hl)|[(-> & Hf & Hc & Ho & Hl)|
                         (-> & Hf & Hc & Ho & Hl)]].
      - split; [lia|]. split; [left; lia|]. split; [|contradiction].
        intros _. rewrite Hl. exact Hf.
      - split; [lia|]. split; [left; lia|]. split; [contradiction|].
        intros _. rewrite Hl, Hsz1, Ho. auto.
      - assert (Hnn : top w + sizeof_ptr ≠ NULL).
        { destruct Hwf. unfold NULL, sizeof_ptr. lia. }
        split; [lia|]. split; [right; split; [lia|exact Hnn]|].
        split; [|contradiction].
        intros _. rewrite Hl.
        destruct (strcmp t0 (cstr t0) =? 0) eqn:E; [reflexivity|].
        apply Z.eqb_neq in E. rewrite strcmp_zero_iff, cstr_idem in E.
        contradiction. }
    destruct Hfirst as (Hoff1 & Hbytes & Hsome & Hnone).
    exists ((p0, offset (g_shared w1) - offset (g_shared w)) :: rs), w'.
    split; [now apply intern_seq_cons|]. split; [exact Hwf'|].
    split; [congruence|]. split; [cbn; lia|]. split; [cbn; congruence|].
    split; [|split; [|split]].
    + (* listed strings *)
      intros t r Hr Hne.
      pose proof (Hstab t r Hcase Hr Hne) as Hr1.
      destruct (HA t r Hr1 Hne) as [Hr' Hrs]. split; [exact Hr'|].
      intros [|j] t' Hj Ht'; cbn in Hj |- *.
      * injection Hj as ->.
        rewrite (lookup_same_text w t' t Ht') in Hcase.
        cbv zeta in Hcase.
        destruct Hcase as [(Hp & Hf & Ho & Hl)|[(_ & Hf & _)|(_ & Hf & _)]];
          try congruence.
        rewrite Ho. f_equal. f_equal; [congruence|lia].
      * now apply (Hrs j t').
    + (* strings the heap has no room for *)
      intros t Hnf Hshort [|j] t' Hj Ht'; cbn in Hj |- *.
      * injection Hj as ->.
        rewrite (lookup_same_text w t' t Ht') in Hcase.
        rewrite (strlen_cstr t' t Ht') in Hcase.
        cbv zeta in Hcase.
        destruct Hcase as [(Hp & Hf & Ho & Hl)|[(-> & Hf & Hc & Ho & Hl)|
                           (_ & _ & Hc & _)]]; [congruence| |lia].
        rewrite Ho. f_equal. f_equal. lia.
      * refine (HB t _ _ j t' Hj Ht').
        -- cbv zeta in Hcase.
           destruct Hcase as [(_ & _ & _ & Hl)|[(_ & _ & _ & _ & Hl)|
                              (_ & _ & Hc & _ & Hl)]];
             rewrite Hl; try exact Hnf.
           destruct (strcmp t (cstr t0) =? 0) eqn:E; [|exact Hnf].
           apply strcmp_cstr_r in E. rewrite (strlen_cstr t t0 E) in Hshort. lia.
        -- rewrite Hsz1. lia.
    + (* what each call returned *)
      intros [|j] t q b Hj Hr; cbn in Hj, Hr.
      * injection Hj as ->. injection Hr as -> <-. split; [|exact Hbytes].
        intros Hq. destruct (HA t q (Hsome Hq) Hq) as [H _]. exact H.
      * apply (HC j t q b Hj Hr).
    + (* two calls on the same content *)
      intros [|i] [|j] a b p x q y Hij Hi Hj Hri Hrj Hab;
        cbn in Hi, Hj, Hri, Hrj; try lia.
      * injection Hi as ->. injection Hri as -> <-.
        destruct (Z.eq_dec p NULL) as [Hp|Hp].
        -- destruct (Hnone Hp) as [Hn1 Hn2].
           pose proof (HB a Hn1 Hn2 j b Hj (eq_sym Hab)) as H.
           pose proof (eq_trans (eq_sym Hrj) H) as E.
           injection E as -> ->. auto.
        -- destruct (HA a p (Hsome Hp) Hp) as [_ H].
           specialize (H j b Hj (eq_sym Hab)).
           pose proof (eq_trans (eq_sym Hrj) H) as E.
           injection E as -> ->. auto.
      * apply (HD i j a b p x q y); [lia|assumption..].
Qed.

(** Interning the same new string again and again on a heap with room
    for it: the first call takes one block, every later call finds it. *)
Lemma intern_repeat n s w :
  heap_wf w → locks_granted w → fits s →
  lookup_text w s = Some NULL →
  strlen s + 1 + sizeof_ptr ≤ heap_size (g_shared w) - offset (g_shared w) →
  ∃ w', intern_seq (replicate (S n) s) w
        = Some ((top w + sizeof_ptr, rounded (strlen s + 1 + sizeof_ptr))
                  :: replicate n (top w + sizeof_ptr, 0), w') ∧
    offset (g_shared w')
    = offset (g_shared w) + rounded (strlen s + 1 + sizeof_ptr).
Proof.
  intros Hwf Hlk Hfit Hnf Hroom.
  destruct (dup_summary s w Hwf Hfit Hlk)
    as (p0 & w1 & E1 & Hwf1 & Hlk1 & Hh1 & Hsz1 & Hcase).
  cbv zeta in Hcase.
  destruct Hcase as [(Hp & Hf & _)|[(_ & _ & Hc & _)|(-> & _ & _ & Ho & Hl)]];
    [congruence|lia|].
  assert (Hnn : top w + sizeof_ptr ≠ NULL).
  { destruct Hwf. unfold NULL, sizeof_ptr. lia. }
  assert (Hfound : lookup_text w1 s = Some (top w + sizeof_ptr)).
  { rewrite Hl. destruct (strcmp s (cstr s) =? 0) eqn:E; [reflexivity|].
    apply Z.eqb_neq in E. rewrite strcmp_zero_iff, cstr_idem in E.
    contradiction. }
  destruct (intern_seq_props (replicate n s) w1 Hwf1 Hlk1)
    as (rs & w' & E2 & Hwf' & Hh & Hoff & Hlen & HA & _).
  { apply Forall_replicate. exact Hfit. }
  destruct (HA s _ Hfound Hnn) as [_ Hrs].
  assert (Hrep : rs = replicate n (top w + sizeof_ptr, 0)).
  { apply list_eq. intros j. rewrite length_replicate in Hlen.
    destruct (decide (j < n)%nat) as [Hj|Hj].
    - rewrite (Hrs j s); [|apply lookup_replicate_2; lia|reflexivity].
      symmetry. apply lookup_replicate_2. exact Hj.
    - rewrite !lookup_ge_None_2; [reflexivity| |]; [rewrite length_replicate|]; lia. }
  subst rs. exists w'. split.
  - cbn [replicate]. rewrite (intern_seq_cons _ _ _ _ _ _ _ E1 E2).
    rewrite Ho. rewrite Z.add_simpl_l. reflexivity.
  - rewrite Hoff, Ho.
    assert (Hz : foldr Z.add 0 (map snd (replicate n (top w + sizeof_ptr, 0))) = 0).
    { clear. induction n; cbn; [reflexivity|]. cbn in IHn. lia. }
    rewrite Hz. lia.
Qed.

Lemma locks_grantedb_sound w : locks_grantedb w = true → locks_granted w.
Proof.
  unfold locks_grantedb, locks_granted. intros H.
  apply List.Forall_forall. intros r Hr.
  apply Z.leb_le. exact (proj1 (forallb_forall _ _) H r Hr).
Qed.

Lemma dup_scan_unfold text w :
  dup_scan text w =
  if hd 0 (oracle w) <? 0 then Some (Some NULL, pop w)
  else
    match lookup_text w text with
    | None => None
    | Some found =>
        if negb (found =? NULL) then Some (Some found, pop w)
        else Some (None, pop w)
    end.
Proof.
  unfold dup_scan, lookup_text.
  unfold bind at 1 2 3 4. unfold get_heap at 1 2, stress_lock_acquire at 1,
    ask at 1, get_mem, ret at 1.
  cbn [g_shared pop mem].
  destruct (hd 0 (oracle w) <? 0); [reflexivity|].
  destruct (str_list_find _ _ _ _) as [found|]; [|reflexivity].
  destruct (negb (found =? NULL)); reflexivity.
Qed.

Lemma dup_copy_unfold text w :
  dup_copy text w =
  match stress_shared_heap_malloc (wrap64 (strlen text + 1 + sizeof_ptr)) w with
  | None => None
  | Some (heap_str, w1) =>
      if heap_str =? NULL then Some (NULL, w1)
      else Some (heap_str, write_node heap_str NULL text w1)
  end.
Proof.
  unfold dup_copy. cbv zeta. unfold bind at 1.
  destruct (stress_shared_heap_malloc _ w) as [[heap_str w1]|]; [|reflexivity].
  destruct (heap_str =? NULL); [reflexivity|].
  unfold bind, set_mem, ret, write_node, upd_mem. cbn.
  rewrite store_once. reflexivity.
Qed.

Lemma dup_publish_unfold heap_str w :
  dup_publish heap_str w =
  if hd 0 (oracle w) <? 0 then Some (heap_str + sizeof_ptr, pop w)
  else Some (heap_str + sizeof_ptr,
             upd_heap (with_str_list_head heap_str)
               (upd_mem (store_next heap_str (str_list_head (g_shared w)))
                  (pop w))).
Proof.
  unfold dup_publish, bind, get_heap, stress_lock_acquire, ask, ret,
    set_mem, set_heap, stress_lock_release.
  cbn [g_shared pop].
  destruct (hd 0 (oracle w) <? 0); reflexivity.
Qed.

Lemma publish_written heap_str link link' text w :
  upd_mem (store_next heap_str link) (pop (write_node heap_str link' text w))
  = write_node heap_str link text (pop w).
Proof.
  unfold write_node, upd_mem, pop, store_next. cbn.
  rewrite lookup_insert_eq. cbn. rewrite insert_insert_eq. reflexivity.
Qed.

Lemma dup_const_by_steps text w :
  stress_shared_heap_dup_const text w = dup_const_in_steps text w.
Proof.
  rewrite dup_unfold. unfold dup_const_in_steps. unfold bind at 1.
  rewrite dup_scan_unfold.
  destruct (hd 0 (oracle w) <? 0); [reflexivity|].
  destruct (lookup_text w text) as [found|]; [|reflexivity].
  destruct (negb (found =? NULL)); [reflexivity|].
  unfold bind at 1. rewrite dup_copy_unfold.
  destruct (stress_shared_heap_malloc _ (pop w)) as [[heap_str w1]|];
    [|reflexivity].
  destruct (heap_str =? NULL) eqn:E; [reflexivity|].
  rewrite E, dup_publish_unfold.
  cbn [oracle write_node upd_mem g_shared].
  destruct (hd 0 (oracle w1) <? 0); [reflexivity|].
  rewrite publish_written. reflexivity.
Qed.

Lemma run_cons a rest ps w :
  run_schedule (a :: rest) ps w
  = match advance a ps w with
    | None => None
    | Some (pr, w1) =>
        match run_schedule rest (fst pr) w1 with
        | None => None
        | Some (rs, w') =>
            Some (match snd pr with
                  | Some ip => ip :: rs
                  | None => rs
                  end, w')
        end
    end.
Proof.
  cbn [run_schedule]. unfold bind at 1.
  destruct (advance a ps w) as [[pr w1]|]; [|reflexivity].
  unfold bind, ret.
  destruct (run_schedule rest (fst pr) w1) as [[rs w']|]; reflexivity.
Qed.

Lemma advance_call i text ps w :
  ps !! i = None →
  advance (Call i text) ps w
  = match dup_scan text w with
    | None => None
    | Some (Some p, w1) => Some ((ps, Some (i, p)), w1)
    | Some (None, w1) => Some ((<[i := Scanned text]> ps, None), w1)
    end.
Proof.
  intros H. cbn [advance]. rewrite H. unfold bind.
  destruct (dup_scan text w) as [[[p|] w1]|]; reflexivity.
Qed.

Lemma advance_idle i ps w :
  ps !! i = None → advance (Go i) ps w = Some ((ps, None), w).
Proof. intros H. cbn [advance]. rewrite H. reflexivity. Qed.

Lemma advance_copy i text ps w :
  ps !! i = Some (Scanned text) →
  advance (Go i) ps w
  = match dup_copy text w with
    | None => None
    | Some (heap_str, w1) =>
        if heap_str =? NULL then Some ((delete i ps, Some (i, NULL)), w1)
        else Some ((<[i := Copied heap_str]> ps, None), w1)
    end.
Proof.
  intros H. cbn [advance]. rewrite H. unfold bind.
  destruct (dup_copy text w) as [[heap_str w1]|]; [|reflexivity].
  destruct (heap_str =? NULL); reflexivity.
Qed.

Lemma advance_publish i heap_str ps w :
  ps !! i = Some (Copied heap_str) →
  advance (Go i) ps w
  = match dup_publish heap_str w with
    | None => None
    | Some (p, w1) => Some ((delete i ps, Some (i, p)), w1)
    end.
Proof.
  intros H. cbn [advance]. rewrite H. unfold bind.
  destruct (dup_publish heap_str w) as [[p w1]|]; reflexivity.
Qed.

(** A call that no other overlaps is the call as a whole. *)
Lemma run_turn i text rest w :
  run_schedule (Call i text :: Go i :: Go i :: rest) ∅ w
  = match stress_shared_heap_dup_const text w with
    | None => None
    | Some (p, w1) =>
        match run_schedule rest ∅ w1 with
        | None => None
        | Some (rs, w') => Some ((i, p) :: rs, w')
        end
    end.
Proof.
  rewrite dup_const_by_steps. unfold dup_const_in_steps.
  rewrite run_cons, advance_call by apply lookup_empty.
  unfold bind at 1.
  destruct (dup_scan text w) as [[[p|] w1]|]; [| |reflexivity].
  - (* found, or no lock: the two steps find no call under way *)
    cbn [fst snd ret].
    rewrite run_cons, advance_idle by apply lookup_empty. cbn [fst snd].
    rewrite run_cons, advance_idle by apply lookup_empty. cbn [fst snd].
    destruct (run_schedule rest ∅ w1) as [[rs w']|]; reflexivity.
  - cbn [fst snd].
    rewrite run_cons, (advance_copy i text) by apply lookup_insert_eq.
    unfold bind at 1.
    destruct (dup_copy text w1) as [[heap_str w2]|]; [|reflexivity].
    destruct (heap_str =? NULL) eqn:E; cbn [fst snd ret].
    + rewrite delete_insert_eq, delete_empty.
      rewrite run_cons, advance_idle by apply lookup_empty. cbn [fst snd].
      destruct (run_schedule rest ∅ w2) as [[rs w']|]; reflexivity.
    + rewrite run_cons, (advance_publish i heap_str)
        by apply lookup_insert_eq.
      destruct (dup_publish heap_str w2) as [[p w3]|]; [|reflexivity].
      cbn [fst snd].
      rewrite delete_insert_eq, delete_insert_eq, delete_empty.
      destruct (run_schedule rest ∅ w3) as [[rs w']|]; reflexivity.
Qed.

Lemma advance_malloc i size ps w :
  ps !! i = None →
  advance (Malloc i size) ps w
  = match stress_shared_heap_malloc size w with
    | None => None
    | Some (p, w1) => Some ((ps, Some (i, p)), w1)
    end.
Proof.
  intros H. cbn [advance]. rewrite H. unfold bind.
  destruct (stress_shared_heap_malloc size w) as [[p w1]|]; reflexivity.
Qed.

Lemma run_malloc i size rest w :
  run_schedule (Malloc i size :: rest) ∅ w
  = match stress_shared_heap_malloc size w with
    | None => None
    | Some (p, w1) =>
        match run_schedule rest ∅ w1 with
        | None => None
        | Some (rs, w') => Some ((i, p) :: rs, w')
        end
    end.
Proof.
  rewrite run_cons, advance_malloc by apply lookup_empty.
  destruct (stress_shared_heap_malloc size w) as [[p w1]|]; reflexivity.
Qed.

Lemma turns_nil sched : turns sched = Some [] → sched = [].
Proof.
  destruct sched as [|[i size|i text|i] rest]; cbn;
    [reflexivity| | |discriminate].
  - destruct (turns rest); discriminate.
  - destruct rest as [|[| |j] [|[| |k] rest]]; try discriminate.
    destruct (Nat.eqb i j && Nat.eqb i k); [|discriminate].
    destruct (turns rest); discriminate.
Qed.

Lemma turns_cons sched c calls :
  turns sched = Some (c :: calls) →
  ∃ rest, turns rest = Some calls ∧
    match snd c with
    | Alloc size => sched = Malloc (fst c) size :: rest
    | Intern text =>
        sched = Call (fst c) text :: Go (fst c) :: Go (fst c) :: rest
    end.
Proof.
  destruct sched as [|[i size|i text|i] rest]; cbn; try discriminate.
  - destruct (turns rest) as [l|] eqn:Et; [|discriminate].
    cbn. intros [= <- <-]. exists rest. split; [exact Et|reflexivity].
  - destruct rest as [|[| |j] [|[| |k] rest]]; try discriminate.
    destruct (Nat.eqb i j && Nat.eqb i k) eqn:E; [|discriminate].
    apply andb_true_iff in E as [Ej Ek].
    apply Nat.eqb_eq in Ej, Ek. subst j k.
    destruct (turns rest) as [l|] eqn:Et; [|discriminate].
    cbn. intros [= <- <-]. exists rest. split; [exact Et|reflexivity].
Qed.

(** A schedule without overlap is the run of its calls one after the
    other. *)
Lemma run_turns calls : ∀ sched w,
  turns sched = Some calls →
  run_schedule sched ∅ w
  = match run_ops (map snd calls) w with
    | None => None
    | Some (rs, w') => Some (zip (map fst calls) rs, w')
    end.
Proof.
  induction calls as [|[i o] calls IH]; intros sched w H.
  - apply turns_nil in H. subst sched. reflexivity.
  - apply turns_cons in H as (rest & H & Hs). cbn [fst snd] in Hs.
    cbn [map run_ops snd fst]. unfold bind at 1.
    destruct o as [size|text]; subst sched; cbn [run_op].
    + rewrite run_malloc.
      destruct (stress_shared_heap_malloc size w) as [[p w1]|]; [|reflexivity].
      rewrite (IH rest w1 H). unfold bind, ret.
      destruct (run_ops (map snd calls) w1) as [[rs w']|]; reflexivity.
    + rewrite run_turn.
      destruct (stress_shared_heap_dup_const text w) as [[p w1]|];
        [|reflexivity].
      rewrite (IH rest w1 H). unfold bind, ret.
      destruct (run_ops (map snd calls) w1) as [[rs w']|]; reflexivity.
Qed.

Lemma run_ops_intern texts : ∀ w,
  run_ops (map Intern texts) w
  = match intern_seq texts w with
    | None => None
    | Some (rs, w') => Some (map fst rs, w')
    end.
Proof.
  induction texts as [|t texts IH]; intros w; [reflexivity|].
  cbn [map run_ops intern_seq run_op].
  unfold bind, get_heap, ret.
  destruct (stress_shared_heap_dup_const t w) as [[p w1]|]; [|reflexivity].
  rewrite IH.
  destruct (intern_seq texts w1) as [[rs w']|]; reflexivity.
Qed.

Lemma turns_in_turn calls :
  turns (in_turn calls) = Some (map (λ c, (fst c, Intern (snd c))) calls).
Proof.
  induction calls as [|[i t] calls IH]; [reflexivity|].
  cbn [in_turn flat_map app fst snd turns map].
  rewrite Nat.eqb_refl. cbn [andb]. fold (in_turn calls). rewrite IH.
  reflexivity.
Qed.

Lemma intern_overlapped :
  let w := scenario_world [] in
  heap_wfb w = true ∧ locks_grantedb w = true ∧
  turns overlapped = None ∧
  ∃ w', run_schedule overlapped ∅ w
        = Some ([(0%nat, 139637976727560); (1%nat, 139637976727584)], w') ∧
        offset (g_shared w') = 48 ∧
        listed (mem w') (str_list_head (g_shared w'))
          ["abcdefgh"; "abcdefgh"]%string.
Proof.
  cbv zeta. split; [vm_compute; reflexivity|].
  split; [vm_compute; reflexivity|]. split; [reflexivity|].
  eexists. split; [vm_compute; reflexivity|]. split; [reflexivity|].
  apply (listed_cons _ 139637976727576
           (mk_heap_str 139637976727552 "abcdefgh") ["abcdefgh"%string]);
    [discriminate|vm_compute; reflexivity|].
  apply (listed_cons _ 139637976727552 (mk_heap_str 0 "abcdefgh") []);
    [discriminate|vm_compute; reflexivity|].
  apply listed_nil.
Qed.

Lemma calls_ops (calls : list (nat * string)) :
  map snd (map (λ c, (fst c, Intern (snd c))) calls)
  = map Intern (map snd calls).
Proof. induction calls as [|c calls IH]; cbn; [|rewrite IH]; reflexivity. Qed.

Lemma calls_ids (calls : list (nat * string)) :
  map fst (map (λ c, (fst c, Intern (snd c))) calls) = map fst calls.
Proof. induction calls as [|c calls IH]; cbn; [|rewrite IH]; reflexivity. Qed.

(** C2, the claim as stated fails, in two ways.  Two calls with the same
    content, one after the other, return different pointers and allocate
    two nodes when the lock cannot be taken the second time in the first
    call, so that its node is never listed.  And with every lock granted,
    two calls with the same content of which the second starts while the
    first is between its two critical sections both miss the string, both
    allocate a node, and both list it. *)
Lemma intern_same_content_two_nodes :
  (let w := scenario_world [0; 0; -1] in
   heap_wfb w = true ∧ heap_size (g_shared w) = 4096 ∧
   fst <$> intern_seq ["abcdefgh"; "abcdefgh"]%string w
   = Some [(139637976727560, 24); (139637976727584, 24)] ∧
   139637976727560 ≠ 139637976727584) ∧
  (let w := scenario_world [] in
   heap_wfb w = true ∧ locks_grantedb w = true ∧
   turns overlapped = None ∧
   ∃ w', run_schedule overlapped ∅ w
         = Some ([(0%nat, 139637976727560); (1%nat, 139637976727584)], w') ∧
         offset (g_shared w') = 48 ∧
         listed (mem w') (str_list_head (g_shared w'))
           ["abcdefgh"; "abcdefgh"]%string).
Proof.
  split; [|exact intern_overlapped].
  cbv zeta. split; [vm_compute; reflexivity|].
  split; [vm_compute; reflexivity|]. split; [vm_compute; reflexivity|lia].
Qed.

(** C2, amended.  On a sound heap, when every lock acquisition succeeds
    and no interning call overlaps another (the schedule is written call
    by call), the schedule runs as its calls one after the other, and in
    it: two calls with equal string content return the same result, and
    the later one allocates nothing, so that the two allocate at most one
    node (one pointer-rounded block); two calls with different content
    that both return a pointer return different pointers.  In particular,
    interning the same 8-byte string, not listed before, fifty times (or
    any number of times) on a heap with room for it allocates exactly one
    node of 24 bytes in the first call, returns the same pointer every
    time, and advances the offset by exactly that block. *)
Theorem intern_dedup_when_locks_granted (w : world) (sched : list act)
    (calls : list (nat * string)) :
  heap_wfb w = true → locks_grantedb w = true →
  turns sched = Some (map (λ c, (fst c, Intern (snd c))) calls) →
  Forall fits (map snd calls) →
  ∃ rs w', intern_seq (map snd calls) w = Some (rs, w') ∧
    run_schedule sched ∅ w = Some (zip (map fst calls) (map fst rs), w') ∧
    (∀ i j a b p x q y, (i < j)%nat →
       map snd calls !! i = Some a → map snd calls !! j = Some b →
       rs !! i = Some (p, x) → rs !! j = Some (q, y) →
       (cstr a = cstr b →
        p = q ∧ y = 0 ∧ (x = 0 ∨ x = rounded (strlen a + 1 + sizeof_ptr))) ∧
       (cstr a ≠ cstr b → p ≠ NULL → q ≠ NULL → p ≠ q)) ∧
    (∀ s n, map snd calls = replicate (S n) s → strlen s = 8 →
       lookup_text w s = Some NULL →
       24 ≤ heap_size (g_shared w) - offset (g_shared w) →
       rs = (SharedHeap.top w + sizeof_ptr, 24)
              :: replicate n (SharedHeap.top w + sizeof_ptr, 0) ∧
       offset (g_shared w') = offset (g_shared w) + 24).
Proof.
  intros Hb Hl Hturns Hfit.
  apply heap_wfb_sound in Hb. apply locks_grantedb_sound in Hl.
  set (texts := map snd calls) in *.
  destruct (intern_seq_props texts w Hb Hl Hfit)
    as (rs & w' & E & Hwf' & Hh & Hoff & Hlen & HA & HB & HC & HD).
  exists rs, w'. split; [exact E|]. split; [|split].
  - rewrite (run_turns _ _ _ Hturns).
    rewrite calls_ops, calls_ids. fold texts.
    rewrite run_ops_intern, E. reflexivity.
  - intros i j a b p x q y Hij Hi Hj Hri Hrj. split.
    + intros Hab. destruct (HD i j a b p x q y Hij Hi Hj Hri Hrj Hab) as [-> ->].
      split; [reflexivity|]. split; [reflexivity|].
      destruct (HC i a q x Hi Hri) as [_ [H|[H _]]]; auto.
    + intros Hab Hp Hq Hpq. subst q.
      destruct (HC i a p x Hi Hri) as [Ha _].
      destruct (HC j b p y Hj Hrj) as [Hb' _].
      destruct (find_found _ _ _ _ _ (Ha Hp) Hp) as (nd & Hnd & Ea).
      destruct (find_found _ _ _ _ _ (Hb' Hp) Hp) as (nd' & Hnd' & Eb).
      congruence.
  - intros s n Hrep Hs Hnf Hroom.
    assert (Hfs : fits s).
    { unfold fits, sizeof_ptr. rewrite Hs. lia. }
    destruct (intern_repeat n s w Hb Hl Hfs Hnf) as (w'' & E' & Ho).
    { rewrite Hs. unfold sizeof_ptr. lia. }
    rewrite Hrep in E. rewrite E in E'. injection E' as -> <-.
    assert (Hr : rounded (strlen s + 1 + sizeof_ptr) = 24).
    { rewrite Hs. reflexivity. }
    rewrite Hr in *. unfold SharedHeap.top. auto.
Qed.

Lemma intern_dedup_witness :
  let w := scenario_world [] in
  let calls := replicate 50 (0%nat, "abcdefgh"%string) in
  ∃ w', run_schedule (in_turn calls) ∅ w
        = Some (replicate 50 (0%nat, 139637976727560), w') ∧
        offset (g_shared w') = 24.
Proof.
  cbv zeta.
  assert (Hf : Forall fits (map snd (replicate 50 (0%nat, "abcdefgh"%string)))).
  { change (Forall fits (replicate 50 "abcdefgh"%string)).
    apply Forall_replicate. vm_compute. reflexivity. }
  destruct (intern_dedup_when_locks_granted (scenario_world [])
              (in_turn (replicate 50 (0%nat, "abcdefgh"%string)))
              (replicate 50 (0%nat, "abcdefgh"%string)))
    as (rs & w' & E & R & _ & Hscen);
    [vm_compute; reflexivity|vm_compute; reflexivity|apply turns_in_turn
    |exact Hf|].
  destruct (Hscen "abcdefgh"%string 49%nat) as [Hrs Ho];
    [reflexivity|reflexivity|vm_compute; reflexivity|vm_compute; discriminate|].
  exists w'. split; [|exact Ho].
  rewrite R, Hrs. reflexivity.
Defined.

(** ** The out-of-memory flag *)

Lemma malloc_flag_kept size w p w' :
  stress_shared_heap_malloc size w = Some (p, w') →
  out_of_memory (g_shared w) = true → out_of_memory (g_shared w') = true.
Proof.
  rewrite malloc_unfold. cbv zeta.
  destruct (hd 0 (oracle w) <? 0); [intros [= <- <-]; auto|].
  destruct (_ <? _); intros [= <- <-]; auto.
Qed.

Lemma dup_flag_kept text w p w' :
  stress_shared_heap_dup_const text w = Some (p, w') →
  out_of_memory (g_shared w) = true → out_of_memory (g_shared w') = true.
Proof.
  rewrite dup_unfold.
  destruct (hd 0 (oracle w) <? 0); [intros [= <- <-]; auto|].
  destruct (lookup_text w text) as [found|]; [|discriminate].
  destruct (negb (found =? NULL)); [intros [= <- <-]; auto|].
  destruct (stress_shared_heap_malloc _ (pop w)) as [[q w1]|] eqn:E;
    [|discriminate].
  intros H Hf.
  pose proof (malloc_flag_kept _ _ _ _ E Hf) as Hf1.
  destruct (q =? NULL); [injection H as <- <-; exact Hf1|].
  destruct (hd 0 (oracle w1) <? 0); injection H as <- <-; exact Hf1.
Qed.

Lemma run_ops_flag_kept ops : ∀ w rs w',
  run_ops ops w = Some (rs, w') →
  out_of_memory (g_shared w) = true → out_of_memory (g_shared w') = true.
Proof.
  induction ops as [|o ops IH]; intros w rs w'; cbn [run_ops].
  - intros [= <- <-]. auto.
  - unfold bind at 1.
    destruct (run_op o w) as [[r w1]|] eqn:E1; [|discriminate].
    unfold bind at 1.
    destruct (run_ops ops w1) as [[rs1 w2]|] eqn:E2; [|discriminate].
    intros [= <- <-] Hf. eapply IH; [exact E2|].
    destruct o; unfold run_op in E1.
    + exact (malloc_flag_kept _ _ _ _ E1 Hf).
    + exact (dup_flag_kept _ _ _ _ E1 Hf).
Qed.

Lemma run_ops_total ops : ∀ w,
  heap_wf w → Forall valid_op ops →
  ∃ rs w', run_ops ops w = Some (rs, w') ∧ heap_wf w'.
Proof.
  induction ops as [|o ops IH]; intros w Hwf Hv.
  - exists [], w. split; [reflexivity|exact Hwf].
  - inversion Hv as [|? ? Ho Hv']; subst.
    assert (H1 : ∃ r w1, run_op o w = Some (r, w1) ∧ heap_wf w1).
    { destruct o; cbn in Ho |- *.
      - destruct (malloc_cases size w Hwf Ho) as (p & w1 & E & Hw & _). eauto.
      - destruct (dup_cases text w Hwf Ho) as (p & w1 & E & Hw & _). eauto. }
    destruct H1 as (r & w1 & E1 & Hwf1).
    destruct (IH w1 Hwf1 Hv') as (rs & w' & E2 & Hwf').
    exists (r :: rs), w'. split; [|exact Hwf'].
    cbn [run_ops]. unfold bind. rewrite E1, E2. reflexivity.
Qed.

(** C5.  On a sound heap: an [allocate] call that takes the lock and finds
    less room than it was asked for fails; after any [allocate] call that
    failed although the lock was granted, the out-of-memory flag is set,
    the offset is what it was, and the flag stays set through every
    sequence of [allocate] and [internConstString] calls, whatever the
    locks do (every such sequence of well-formed calls runs to its end);
    [deinit] (as [init]) writes the flag back to false; and a failing
    [allocate], whatever made it fail, leaves the offset unchanged. *)
Theorem out_of_memory_sticky (w : world) :
  heap_wfb w = true →
  (∀ size, 0 ≤ size < 2 ^ 63 → 0 ≤ hd 0 (oracle w) →
     heap_size (g_shared w) - offset (g_shared w) < size →
     ∃ w1, stress_shared_heap_malloc size w = Some (NULL, w1)) ∧
  (∀ size w1, 0 ≤ hd 0 (oracle w) →
     stress_shared_heap_malloc size w = Some (NULL, w1) →
     out_of_memory (g_shared w1) = true ∧
     offset (g_shared w1) = offset (g_shared w) ∧
     (∀ ops rs w2, run_ops ops w1 = Some (rs, w2) →
        out_of_memory (g_shared w2) = true) ∧
     (∀ ops, Forall valid_op ops →
        ∃ rs w2, run_ops ops w1 = Some (rs, w2) ∧
                 out_of_memory (g_shared w2) = true) ∧
     (∃ w3, stress_shared_heap_deinit w1 = Some (tt, w3) ∧
            out_of_memory (g_shared w3) = false)) ∧
  (∀ size w1, stress_shared_heap_malloc size w = Some (NULL, w1) →
     offset (g_shared w1) = offset (g_shared w)).
Proof.
  intros Hb. apply heap_wfb_sound in Hb. split; [|split].
  - intros size Hs Hl Hc. eexists. apply malloc_oom; assumption.
  - intros size w1 Hl E.
    assert (Hw1 : w1 = upd_heap (with_out_of_memory true) (pop w)).
    { rewrite malloc_unfold in E. cbv zeta in E.
      destruct (Z.ltb_spec (hd 0 (oracle w)) 0); [lia|].
      destruct (_ <? _); [congruence|].
      exfalso. injection E as E _. destruct Hb.
      rewrite wrap64_small in E by lia. unfold NULL in E. lia. }
    assert (Hwf1 : heap_wf w1).
    { subst w1. now apply wf_out_of_memory, wf_pop. }
    split; [subst w1; reflexivity|]. split; [subst w1; reflexivity|].
    assert (Hf : out_of_memory (g_shared w1) = true) by (subst w1; reflexivity).
    split; [|split].
    + intros ops rs w2 E2. eapply run_ops_flag_kept; eauto.
    + intros ops Hv. destruct (run_ops_total ops w1 Hwf1 Hv) as (rs & w2 & E2 & _).
      exists rs, w2. split; [exact E2|]. eapply run_ops_flag_kept; eauto.
    + unfold stress_shared_heap_deinit, bind, get_heap, ret, emit, munmap,
        set_mem, set_heap, stress_lock_destroy.
      destruct (out_of_memory (g_shared w1)), (0 <? offset (g_shared w1)),
        (negb (heap (g_shared w1) =? NULL)), (negb (lock (g_shared w1) =? NULL));
        cbn; eexists; split; reflexivity.
  - intros size w1 E. rewrite malloc_unfold in E. cbv zeta in E.
    destruct (hd 0 (oracle w) <? 0); [injection E as <-; reflexivity|].
    destruct (_ <? _); [injection E as <-; reflexivity|].
    exfalso. injection E as E _. destruct Hb.
    rewrite wrap64_small in E by lia. unfold NULL in E. lia.
Qed.

Lemma out_of_memory_sticky_witness :
  let w := scenario_world [] in
  heap_wfb w = true ∧
  ∃ w1, stress_shared_heap_malloc 5000 w = Some (NULL, w1) ∧
    out_of_memory (g_shared w1) = true ∧
    offset (g_shared w1) = offset (g_shared w) ∧
    ∃ rs w2, run_ops [Alloc 8; Intern "abc"; Alloc 5000] w1 = Some (rs, w2) ∧
             out_of_memory (g_shared w2) = true.
Proof.
  cbv zeta.
  assert (Hb : heap_wfb (scenario_world []) = true) by (vm_compute; reflexivity).
  split; [exact Hb|].
  destruct (out_of_memory_sticky (scenario_world []) Hb) as (Hfail & Hstick & _).
  destruct (Hfail 5000) as [w1 E].
  { lia. }
  { vm_compute. discriminate. }
  { vm_compute. reflexivity. }
  exists w1. split; [exact E|].
  destruct (Hstick 5000 w1) as (Hf & Ho & _ & Htot & _).
  { vm_compute. discriminate. }
  { exact E. }
  split; [exact Hf|]. split; [exact Ho|].
  apply Htot. repeat constructor; cbn; lia.
Defined.

(** ** The unpublished string *)

(** C6.  On a sound heap, when the walk finds no match, the lock is taken
    for the walk and for the allocation, the heap has room, and the lock
    cannot be taken the second time: the call returns the address of the
    string of a new node, the node holds a copy of the text (and a null
    link), the head of the list and what every walk finds are as before,
    and no later call with the same content returns that pointer. *)
Theorem unpublished_when_second_lock_fails
    (w : world) (text : string) (r1 r2 r3 : Z) (rest : list Z) :
  heap_wfb w = true → fits text →
  oracle w = r1 :: r2 :: r3 :: rest → 0 ≤ r1 → 0 ≤ r2 → r3 < 0 →
  lookup_text w text = Some NULL →
  strlen text + 1 + sizeof_ptr
    ≤ heap_size (g_shared w) - offset (g_shared w) →
  ∃ w', stress_shared_heap_dup_const text w
        = Some (SharedHeap.top w + sizeof_ptr, w') ∧
    SharedHeap.top w + sizeof_ptr ≠ NULL ∧
    mem w' !! SharedHeap.top w = Some (mk_heap_str NULL (cstr text)) ∧
    str_list_head (g_shared w') = str_list_head (g_shared w) ∧
    (∀ t, lookup_text w' t = lookup_text w t) ∧
    (∀ text', fits text' → cstr text' = cstr text →
       ∃ q w'', stress_shared_heap_dup_const text' w' = Some (q, w'') ∧
                q ≠ SharedHeap.top w + sizeof_ptr).
Proof.
  intros Hb Hfit Ho H1 H2 H3 Hnf Hroom. apply heap_wfb_sound in Hb.
  destruct (fits_len text Hfit) as [_ Hrange].
  destruct (dup_cases text w Hb Hfit) as (p & w' & E & Hwf' & Hcase).
  cbv zeta in Hcase.
  assert (E1 : hd 0 (oracle w) = r1) by (rewrite Ho; reflexivity).
  assert (E2 : hd 0 (oracle (pop w)) = r2) by (cbn; rewrite Ho; reflexivity).
  assert (E3 : hd 0 (oracle (pop (pop w))) = r3)
    by (cbn; rewrite Ho; reflexivity).
  destruct Hcase as [(_ & Hl & _)|[(Hp & _ & Hf & _)|(_ & _ & Hcase)]];
    [lia|congruence|].
  destruct Hcase as [(_ & Hl & _)|[(_ & _ & Hl & _)|
                     [(-> & _ & _ & _ & Hw')|(_ & _ & _ & Hl & _)]]];
    [lia|lia| |lia].
  assert (Hnn : SharedHeap.top w + sizeof_ptr ≠ NULL).
  { destruct Hb. unfold SharedHeap.top, NULL, sizeof_ptr. lia. }
  assert (Hlook : ∀ t, lookup_text w' t = lookup_text w t).
  { intros t.
    rewrite <- (lookup_unpublished text (strlen text + 1 + sizeof_ptr) w t Hb)
      by lia.
    rewrite Hw'. reflexivity. }
  exists w'. split; [exact E|]. split; [exact Hnn|].
  split; [rewrite Hw'; apply lookup_insert_eq|].
  split; [rewrite Hw'; reflexivity|]. split; [exact Hlook|].
  intros text' Hfit' Hsame.
  destruct (fits_len text' Hfit') as [_ Hrange'].
  destruct (dup_cases text' w' Hwf' Hfit') as (q & w'' & E' & _ & Hcase).
  exists q, w''. split; [exact E'|].
  assert (Hoff : offset (g_shared w) < offset (g_shared w')).
  { rewrite Hw'. cbn.
    pose proof (round_up_ptr_bounds (strlen text + 1 + sizeof_ptr) ltac:(lia)).
    lia. }
  assert (Hheap : heap (g_shared w') = heap (g_shared w)).
  { rewrite Hw'. reflexivity. }
  cbv zeta in Hcase.
  destruct Hcase as [(-> & _)|[(Hq & _ & Hf & _)|(_ & _ & Hcase)]].
  - congruence.
  - rewrite Hlook, (lookup_same_text w text' text Hsame), Hnf in Hf. congruence.
  - destruct Hcase as [(-> & _)|[(-> & _)|[(-> & _)|(-> & _)]]];
      try congruence; unfold SharedHeap.top; lia.
Qed.

Lemma unpublished_witness :
  let w := scenario_world [0; 0; -1] in
  let text := "abcdefgh"%string in
  heap_wfb w = true ∧
  ∃ w', stress_shared_heap_dup_const text w
        = Some (SharedHeap.top w + sizeof_ptr, w') ∧
    SharedHeap.top w + sizeof_ptr ≠ NULL ∧
    mem w' !! SharedHeap.top w = Some (mk_heap_str NULL (cstr text)) ∧
    str_list_head (g_shared w') = str_list_head (g_shared w) ∧
    (∀ t, lookup_text w' t = lookup_text w t) ∧
    (∀ text', fits text' → cstr text' = cstr text →
       ∃ q w'', stress_shared_heap_dup_const text' w' = Some (q, w'') ∧
                q ≠ SharedHeap.top w + sizeof_ptr).
Proof.
  cbv zeta. split; [vm_compute; reflexivity|].
  apply (unpublished_when_second_lock_fails _ _ 0 0 (-1) []).
  - vm_compute; reflexivity.
  - vm_compute; reflexivity.
  - vm_compute; reflexivity.
  - lia.
  - lia.
  - lia.
  - vm_compute; reflexivity.
  - vm_compute. discriminate.
Defined.

(** ** Teardown *)

Lemma deinit_unfold w :
  stress_shared_heap_deinit w =
  let h := g_shared w in
  Some (tt,
    mk_world
      (mk_shared_heap (str_list_head h) NULL NULL (heap_size h) (offset h) false)
      (if negb (heap h =? NULL)
       then filter (λ kv, ¬ (heap h ≤ kv.1 < heap h + heap_size h)) (mem w)
       else mem w)
      (oracle w)
      (trace w
       ++ (if out_of_memory h then [EvPrInf] else [])
       ++ (if 0 <? offset h then [EvPrDbg (offset h) (heap_size h)] else [])
       ++ (if negb (heap h =? NULL) then [EvMunmap (heap h) (heap_size h)] else [])
       ++ (if negb (lock h =? NULL) then [EvLockDestroy (lock h)] else []))).
Proof.
  unfold stress_shared_heap_deinit, bind, get_heap, ret, emit, munmap,
    set_mem, set_heap, stress_lock_destroy.
  destruct w as [[head lk hp hs off oom] m o tr]. cbn.
  destruct oom, (0 <? off), (Z.eqb_spec hp NULL), (Z.eqb_spec lk NULL);
    subst; unfold upd_heap, upd_trace, upd_mem; cbn;
    rewrite <- ?app_assoc, ?app_nil_r; reflexivity.
Qed.

(** C9.  [deinit] is idempotent.  After one call the heap pointer and the
    lock are null and the out-of-memory flag is clear; a second call
    unmaps nothing and destroys no lock, and leaves the shared structure,
    the memory and the environment as the first call left them (all it
    may do is print the usage line again). *)
Theorem deinit_idempotent (w : world) :
  ∃ w1 w2,
    stress_shared_heap_deinit w = Some (tt, w1) ∧
    stress_shared_heap_deinit w1 = Some (tt, w2) ∧
    heap (g_shared w1) = NULL ∧ lock (g_shared w1) = NULL ∧
    out_of_memory (g_shared w1) = false ∧
    g_shared w2 = g_shared w1 ∧ mem w2 = mem w1 ∧ oracle w2 = oracle w1 ∧
    ∃ printed, trace w2 = trace w1 ++ printed ∧
      (printed = [] ∨
       printed = [EvPrDbg (offset (g_shared w1)) (heap_size (g_shared w1))]).
Proof.
  eexists _, _. split; [apply deinit_unfold|]. split; [apply deinit_unfold|].
  cbn. repeat (split; [reflexivity|]).
  exists (if 0 <? offset (g_shared w)
          then [EvPrDbg (offset (g_shared w)) (heap_size (g_shared w))] else []).
  split.
  - rewrite app_nil_r. reflexivity.
  - destruct (0 <? offset (g_shared w)); auto.
Qed.

End SharedHeapFacts.

Module SharedHeapProps.
Import SharedHeap SharedHeapFacts.

(** ** Initialisation and teardown *)

Lemma page_rounding cfg k :
  page_size cfg = 2 ^ k → 0 ≤ k ≤ 32 →
  let size := page_size cfg
              * ((init_request cfg + page_size cfg - 1) / page_size cfg) in
  Z.land (wrap64 (init_request cfg + page_size cfg - 1))
         (lnot64 (page_size cfg - 1)) = size
  ∧ init_request cfg ≤ size < init_request cfg + page_size cfg
  ∧ size mod page_size cfg = 0.
Proof.
  intros Hps Hk. cbv zeta.
  pose proof (init_request_range cfg) as Hr. unfold KB in Hr.
  assert (Hpow : 1 ≤ 2 ^ k ≤ 2 ^ 32).
  { split; [change 1 with (2 ^ 0)|]; apply Z.pow_le_mono_r; lia. }
  rewrite Hps.
  pose proof (Z.div_mod (init_request cfg + 2 ^ k - 1) (2 ^ k) ltac:(lia)) as Hdm.
  pose proof (Z.mod_pos_bound (init_request cfg + 2 ^ k - 1) (2 ^ k) ltac:(lia)).
  split; [|split].
  - rewrite wrap64_small by lia. rewrite land_lnot64_ones by lia. lia.
  - lia.
  - rewrite Z.mul_comm. apply Z.mod_mul. lia.
Qed.

Lemma init_unfold cfg w :
  stress_shared_heap_init cfg w =
  let size := Z.land (wrap64 (init_request cfg + page_size cfg - 1))
                     (lnot64 (page_size cfg - 1)) in
  let p := hd MAP_FAILED (oracle w) in
  let l := hd NULL (tail (oracle w)) in
  let h := g_shared w in
  if p =? MAP_FAILED then
    Some (NULL,
          mk_world (mk_shared_heap NULL NULL p size (offset h) false)
            (mem w) (tail (oracle w))
            (trace w ++ [EvMmap (init_request cfg) p]))
  else if l =? NULL then
    Some (NULL,
          mk_world (mk_shared_heap NULL l NULL size (offset h) false)
            (filter (λ kv, ¬ (p ≤ kv.1 < p + size)) (mem w))
            (tail (tail (oracle w)))
            (trace w ++ [EvMmap (init_request cfg) p; EvLockCreate l;
                         EvMunmap p size]))
  else
    Some (l,
          mk_world (mk_shared_heap NULL l p size (offset h) false)
            (mem w) (tail (tail (oracle w)))
            (trace w ++ [EvMmap (init_request cfg) p; EvLockCreate l])).
Proof.
  unfold stress_shared_heap_init, mmap, stress_lock_create, munmap, bind, ret,
    set_heap, set_mem, get_heap, emit, ask.
  fold (init_request cfg).
  destruct w as [[head lk hp hs off oom] m o tr].
  unfold upd_heap, upd_trace, upd_mem, pop. cbn. cbv zeta.
  destruct (hd MAP_FAILED o =? MAP_FAILED); [reflexivity|].
  cbn. destruct (hd NULL (tail o) =? NULL) eqn:E; cbn;
    rewrite <- ?app_assoc; reflexivity.
Qed.

(** X7.  [stress_shared_heap_init], from any state of the shared
    structure and with pages of a power of two: it returns a lock exactly
    when [mmap] and the creation of the lock both succeed, and null
    otherwise.  The size it records is the request rounded up to whole
    pages; the list is emptied and the flag cleared, but the offset is
    left as it was.  When [mmap] fails the heap pointer is left at
    [MAP_FAILED]; when the lock cannot be created the mapping is undone
    (with the recorded size) and the heap pointer is null. *)
Theorem init_maps_or_cleans_up (cfg : config) (k : Z) (w : world) :
  page_size cfg = 2 ^ k → 0 ≤ k ≤ 32 →
  let request := init_request cfg in
  let size := page_size cfg * ((request + page_size cfg - 1) / page_size cfg) in
  let p := hd MAP_FAILED (oracle w) in
  let l := hd NULL (tail (oracle w)) in
  ∃ r w', stress_shared_heap_init cfg w = Some (r, w') ∧
    (r ≠ NULL ↔ p ≠ MAP_FAILED ∧ l ≠ NULL) ∧
    request ≤ size < request + page_size cfg ∧
    size mod page_size cfg = 0 ∧
    heap_size (g_shared w') = size ∧
    offset (g_shared w') = offset (g_shared w) ∧
    out_of_memory (g_shared w') = false ∧
    str_list_head (g_shared w') = NULL ∧
    ((p = MAP_FAILED ∧ r = NULL ∧
      heap (g_shared w') = MAP_FAILED ∧ lock (g_shared w') = NULL ∧
      trace w' = trace w ++ [EvMmap request MAP_FAILED])
     ∨ (p ≠ MAP_FAILED ∧ l = NULL ∧ r = NULL ∧
        heap (g_shared w') = NULL ∧ lock (g_shared w') = NULL ∧
        trace w' = trace w ++ [EvMmap request p; EvLockCreate NULL;
                               EvMunmap p size])
     ∨ (p ≠ MAP_FAILED ∧ l ≠ NULL ∧ r = l ∧
        heap (g_shared w') = p ∧ lock (g_shared w') = l ∧
        mem w' = mem w ∧
        trace w' = trace w ++ [EvMmap request p; EvLockCreate l])).
Proof.
  intros Hps Hk. cbv zeta.
  destruct (page_rounding cfg k Hps Hk) as (Hsz & Hbound & Hmod).
  rewrite init_unfold. cbv zeta. rewrite Hsz.
  destruct (Z.eqb_spec (hd MAP_FAILED (oracle w)) MAP_FAILED) as [Ep|Ep].
  - eexists _, _. split; [reflexivity|]. cbn.
    split; [split; [intros H; now destruct H|tauto]|].
    do 6 (split; [first [assumption|reflexivity]|]).
    left. rewrite Ep. auto.
  - destruct (Z.eqb_spec (hd NULL (tail (oracle w))) NULL) as [El|El].
    + eexists _, _. split; [reflexivity|]. cbn.
      split; [split; [intros H; now destruct H|tauto]|].
      do 6 (split; [first [assumption|reflexivity]|]).
      right; left. rewrite El. auto 10.
    + eexists _, _. split; [reflexivity|]. cbn.
      split; [tauto|].
      do 6 (split; [first [assumption|reflexivity]|]).
      right; right. auto 10.
Qed.

(** X8.  [stress_shared_heap_init] followed by
    [stress_shared_heap_deinit].  When both [mmap] and the creation of
    the lock succeeded, the mapping is undone once, at the address [mmap]
    gave, and the lock is destroyed once.  When the lock could not be
    created, the mapping that [init] has undone is not undone again.  When
    [mmap] failed, [deinit] finds the heap pointer at [MAP_FAILED], not
    null, and calls [munmap] on it.  In each case the heap pointer and the
    lock end null, and the offset is what it was before [init]. *)
Theorem init_then_deinit (cfg : config) (k : Z) (w : world) :
  page_size cfg = 2 ^ k → 0 ≤ k ≤ 32 →
  hd MAP_FAILED (oracle w) ≠ NULL →
  let request := init_request cfg in
  let size := page_size cfg * ((request + page_size cfg - 1) / page_size cfg) in
  let p := hd MAP_FAILED (oracle w) in
  let l := hd NULL (tail (oracle w)) in
  let usage := if 0 <? offset (g_shared w)
               then [EvPrDbg (offset (g_shared w)) size] else [] in
  ∃ r w1 w2,
    stress_shared_heap_init cfg w = Some (r, w1) ∧
    stress_shared_heap_deinit w1 = Some (tt, w2) ∧
    heap (g_shared w2) = NULL ∧ lock (g_shared w2) = NULL ∧
    offset (g_shared w2) = offset (g_shared w) ∧
    trace w2 = trace w ++
      (if p =? MAP_FAILED then
         [EvMmap request p] ++ usage ++ [EvMunmap MAP_FAILED size]
       else if l =? NULL then
         [EvMmap request p; EvLockCreate NULL; EvMunmap p size] ++ usage
       else
         [EvMmap request p; EvLockCreate l] ++ usage
         ++ [EvMunmap p size; EvLockDestroy l]).
Proof.
  intros Hps Hk Hp0. cbv zeta.
  destruct (page_rounding cfg k Hps Hk) as (Hsz & Hbound & Hmod).
  rewrite init_unfold. cbv zeta. rewrite Hsz.
  destruct (Z.eqb_spec (hd MAP_FAILED (oracle w)) MAP_FAILED) as [Ep|Ep].
  - eexists _, _, _. split; [reflexivity|]. rewrite deinit_unfold. cbn.
    split; [reflexivity|]. do 3 (split; [reflexivity|]).
    rewrite Ep. change (MAP_FAILED =? NULL) with false. cbn.
    rewrite <- !app_assoc. cbn.
    destruct (0 <? offset (g_shared w)); reflexivity.
  - destruct (Z.eqb_spec (hd NULL (tail (oracle w))) NULL) as [El|El].
    + eexists _, _, _. split; [reflexivity|]. rewrite deinit_unfold. cbn.
      split; [reflexivity|]. do 3 (split; [reflexivity|]).
      rewrite El. cbn. rewrite <- !app_assoc. cbn.
      destruct (0 <? offset (g_shared w)); reflexivity.
    + eexists _, _, _. split; [reflexivity|]. rewrite deinit_unfold. cbn.
      split; [reflexivity|]. do 3 (split; [reflexivity|]).
      destruct (Z.eqb_spec (hd MAP_FAILED (oracle w)) NULL) as [E0|_];
        [contradiction|].
      destruct (Z.eqb_spec (hd NULL (tail (oracle w))) NULL) as [E0|_];
        [contradiction|].
      cbn. rewrite <- !app_assoc. cbn.
      destruct (0 <? offset (g_shared w)); reflexivity.
Qed.

(** ** The bounds of [stress_shared_heap_malloc] *)

(** X9.  The bounds of [stress_shared_heap_malloc] on a sound heap whose
    lock is granted.  A request of 0 bytes returns the current top and
    changes nothing, full heap or not; a request of exactly the free
    space is granted and fills the heap; every request above the free
    space (below [SSIZE_MAX]) returns null, sets the flag and leaves the
    offset. *)
Theorem malloc_at_the_bounds (w : world) :
  heap_wf w → 0 ≤ hd 0 (oracle w) →
  let h := g_shared w in
  let free := heap_size h - offset h in
  stress_shared_heap_malloc 0 w = Some (heap h + offset h, pop w) ∧
  stress_shared_heap_malloc free w
  = Some (heap h + offset h, upd_heap (with_offset (heap_size h)) (pop w)) ∧
  (∀ size, free < size < 2 ^ 63 →
     stress_shared_heap_malloc size w
     = Some (NULL, upd_heap (with_out_of_memory true) (pop w))).
Proof.
  intros Hwf Hl. cbv zeta. pose proof Hwf as [].
  split; [|split].
  - rewrite malloc_ok by (try assumption; lia).
    change ((0 + 7) / sizeof_ptr) with 0. rewrite Z.mul_0_r, Z.add_0_r.
    destruct w as [[] ? ? ?]. reflexivity.
  - rewrite malloc_ok by (try assumption; lia).
    assert (E : (heap_size (g_shared w) - offset (g_shared w)) mod sizeof_ptr = 0).
    { rewrite Zminus_mod, (wf_size_aligned _ Hwf), (wf_offset_aligned _ Hwf).
      reflexivity. }
    assert (Hq : sizeof_ptr
                 * ((heap_size (g_shared w) - offset (g_shared w) + 7) / sizeof_ptr)
                 = heap_size (g_shared w) - offset (g_shared w)).
    { apply Z.le_antisymm.
      - apply round_up_ptr_le; [lia|exact E|lia].
      - apply round_up_ptr_bounds. lia. }
    rewrite Hq.
    replace (offset (g_shared w)
             + (heap_size (g_shared w) - offset (g_shared w)))
      with (heap_size (g_shared w)) by lia.
    reflexivity.
  - intros size Hs. apply malloc_oom; try assumption; lia.
Qed.

(** X10.  The room check compares signed values: a request of 2^63
    bytes or more is negative as an [ssize_t], so it is never refused.
    On a sound heap whose lock is granted the call returns the current
    top, not null, although the request is larger than the whole heap,
    and the out-of-memory flag is not touched. *)
Theorem malloc_huge_request_is_not_refused (w : world) (size : Z) :
  heap_wf w → 0 ≤ hd 0 (oracle w) → 2 ^ 63 ≤ size < 2 ^ 64 →
  ∃ w', stress_shared_heap_malloc size w
        = Some (heap (g_shared w) + offset (g_shared w), w') ∧
    heap (g_shared w) + offset (g_shared w) ≠ NULL ∧
    heap_size (g_shared w) < size ∧
    out_of_memory (g_shared w') = out_of_memory (g_shared w).
Proof.
  intros Hwf Hl Hs. pose proof Hwf as [].
  rewrite malloc_unfold. cbv zeta.
  destruct (Z.ltb_spec (hd 0 (oracle w)) 0); [lia|].
  rewrite (to_ssize_small (heap_size (g_shared w) - offset (g_shared w)))
    by lia.
  assert (Hneg : to_ssize size = size - 2 ^ 64).
  { unfold to_ssize. rewrite wrap64_small by lia.
    destruct (Z.ltb_spec size (2 ^ 63)); lia. }
  rewrite Hneg.
  destruct (Z.ltb_spec (heap_size (g_shared w) - offset (g_shared w))
              (size - 2 ^ 64)); [lia|].
  rewrite wrap64_small by lia.
  eexists. split; [reflexivity|]. cbn. unfold NULL. repeat split; lia.
Qed.

(** ** What [stress_shared_heap_dup_const] leaves in memory *)




(** ** The list of interned strings over a run *)

Lemma listed_of_chain m lo hi p :
  chain m lo hi p → 0 < lo → ∃ l, listed m p l.
Proof.
  intros Hc Hlo. induction Hc as [hi|hi p nd Hl Hh Hm Hc [l IH]].
  - exists []. constructor.
  - exists (cstr (str nd) :: l). econstructor; eauto. unfold NULL. lia.
Qed.

Lemma listed_functional m p l1 : ∀ l2,
  listed m p l1 → listed m p l2 → l1 = l2.
Proof.
  intros l2 H1. revert l2.
  induction H1 as [|p nd l Hp Hm H1 IH]; intros l2 H2.
  - inversion H2; [reflexivity|contradiction].
  - inversion H2 as [|p' nd' l' Hp' Hm' H2']; subst; [contradiction|].
    rewrite Hm in Hm'. injection Hm' as <-. f_equal. now apply IH.
Qed.

Lemma listed_insert_above m lo hi p q nd l :
  chain m lo hi p → hi ≤ q → listed m p l → listed (<[q := nd]> m) p l.
Proof.
  intros Hc. revert l.
  induction Hc as [hi|hi p nd' Hl Hh Hm Hc IH]; intros l Hq Hlist.
  - inversion Hlist; [constructor|contradiction].
  - inversion Hlist as [|p' nd'' l' Hp' Hm' Hl']; subst; [constructor|].
    rewrite Hm in Hm'. injection Hm' as <-.
    econstructor; [assumption|rewrite lookup_insert_ne by lia; exact Hm|].
    apply IH; [lia|exact Hl'].
Qed.

(** A walk that comes back empty-handed has met no string with the
    content looked for. *)
Lemma find_none_not_listed m lo hi p text fuel l :
  chain m lo hi p → 0 < lo →
  str_list_find fuel m p text = Some NULL → listed m p l →
  ¬ In (cstr text) l.
Proof.
  intros Hc Hlo. revert fuel l.
  induction Hc as [hi|hi p nd Hl Hh Hm Hc IH]; intros fuel l Hf Hlist.
  - inversion Hlist; [intros []|contradiction].
  - inversion Hlist as [|p' nd' l' Hp' Hm' Hl']; subst; [intros []|].
    rewrite Hm in Hm'. injection Hm' as <-.
    destruct fuel as [|fuel]; cbn in Hf.
    + destruct (Z.eqb_spec p NULL); [contradiction|discriminate].
    + destruct (Z.eqb_spec p NULL); [contradiction|].
      rewrite Hm in Hf.
      destruct (Z.eqb_spec (strcmp text (str nd)) 0) as [E|E].
      * injection Hf as Hf. unfold NULL, sizeof_ptr in *. lia.
      * intros [Hin|Hin].
        -- apply E. apply strcmp_zero_iff. symmetry. exact Hin.
        -- exact (IH fuel l' Hf Hl' Hin).
Qed.

Lemma grows_refl w : grows w w.
Proof.
  repeat split; try reflexivity. intros l Hl Hn. exists []. auto.
Qed.

Lemma grows_trans w1 w2 w3 : grows w1 w2 → grows w2 w3 → grows w1 w3.
Proof.
  intros (H1 & H2 & H3 & H4 & H5 & H6) (G1 & G2 & G3 & G4 & G5 & G6).
  repeat split; try congruence; try lia.
  - intros q Hq. rewrite G5, H5; [reflexivity|lia|lia].
  - intros l Hl Hn. destruct (H6 l Hl Hn) as (a1 & Hl1 & Hn1).
    destruct (G6 _ Hl1 Hn1) as (a2 & Hl2 & Hn2).
    exists (a2 ++ a1). rewrite <- app_assoc. auto.
Qed.

Lemma grows_same w w' :
  g_shared w' = g_shared w → mem w' = mem w → grows w w'.
Proof.
  intros Hg Hm. unfold grows. rewrite Hg, Hm.
  repeat split; try reflexivity. intros l Hl Hn. exists []. auto.
Qed.

Lemma malloc_grows size w :
  heap_wf w → 0 ≤ size < 2 ^ 63 →
  ∃ p w', stress_shared_heap_malloc size w = Some (p, w') ∧
    heap_wf w' ∧ grows w w'.
Proof.
  intros Hwf Hs.
  destruct (malloc_cases size w Hwf Hs) as (p & w' & E & Hwf' & Hcase).
  exists p, w'. split; [exact E|]. split; [exact Hwf'|].
  pose proof (round_up_ptr_bounds size ltac:(lia)) as [Hb _].
  destruct Hcase as [(_ & _ & ->)|[(_ & _ & _ & ->)|(_ & _ & _ & ->)]].
  - now apply grows_same.
  - unfold grows. cbn. repeat split; try reflexivity.
    intros l Hl Hn. exists []. auto.
  - unfold grows. cbn. repeat split; try reflexivity; [lia|].
    intros l Hl Hn. exists []. auto.
Qed.

Lemma dup_grows text w :
  heap_wf w → fits text →
  ∃ p w', stress_shared_heap_dup_const text w = Some (p, w') ∧
    heap_wf w' ∧ grows w w'.
Proof.
  intros Hwf Hfit.
  destruct (fits_len text Hfit) as [_ Hrange].
  destruct (dup_cases text w Hwf Hfit) as (p & w' & E & Hwf' & Hcase).
  cbv zeta in Hcase. exists p, w'. split; [exact E|]. split; [exact Hwf'|].
  pose proof Hwf as [].
  pose proof (round_up_ptr_bounds (strlen text + 1 + sizeof_ptr) ltac:(lia))
    as [Hb _].
  destruct Hcase as [(_ & _ & ->)|[(_ & _ & _ & ->)|(Hnone & _ & Hcase)]].
  - now apply grows_same.
  - now apply grows_same.
  - destruct Hcase as [(_ & _ & ->)|[(_ & _ & _ & ->)|
                       [(_ & _ & Hc & _ & ->)|(_ & _ & Hc & _ & ->)]]].
    + now apply grows_same.
    + unfold grows. cbn. repeat split; try reflexivity.
      intros l Hl Hn. exists []. auto.
    + unfold grows. cbn. repeat split; try reflexivity; [lia| |].
      * intros q Hq. rewrite lookup_insert_ne by lia. reflexivity.
      * intros l Hl Hn. exists []. split; [|exact Hn].
        eapply listed_insert_above; [eassumption|lia|exact Hl].
    + unfold grows. cbn. repeat split; try reflexivity; [lia| |].
      * intros q Hq. rewrite lookup_insert_ne by lia. reflexivity.
      * intros l Hl Hn. exists [cstr text]. cbn [app]. split.
        -- rewrite <- (cstr_idem text) at 2.
           change (cstr (cstr text))
             with (cstr (str (mk_heap_str (str_list_head (g_shared w))
                                          (cstr text)))).
           econstructor.
           ++ unfold NULL. lia.
           ++ apply lookup_insert_eq.
           ++ cbn. eapply listed_insert_above; [eassumption|lia|exact Hl].
        -- constructor; [|exact Hn]. rewrite list_elem_of_In.
           eapply find_none_not_listed; [eassumption|lia|exact Hnone|exact Hl].
Qed.

Lemma run_ops_grows ops : ∀ w,
  heap_wf w → Forall valid_op ops →
  ∃ rs w', run_ops ops w = Some (rs, w') ∧ heap_wf w' ∧ grows w w'.
Proof.
  induction ops as [|o ops IH]; intros w Hwf Hv.
  - exists [], w. split; [reflexivity|]. split; [exact Hwf|apply grows_refl].
  - inversion Hv as [|? ? Ho Hv']; subst.
    assert (H1 : ∃ r w1, run_op o w = Some (r, w1) ∧ heap_wf w1 ∧ grows w w1).
    { destruct o; cbn in Ho |- *.
      - now apply malloc_grows.
      - now apply dup_grows. }
    destruct H1 as (r & w1 & E1 & Hwf1 & G1).
    destruct (IH w1 Hwf1 Hv') as (rs & w' & E2 & Hwf' & G2).
    exists (r :: rs), w'. split; [|split; [exact Hwf'|]].
    + cbn [run_ops]. unfold bind. rewrite E1, E2. reflexivity.
    + eapply grows_trans; eassumption.
Qed.


Lemma turns_one_by_one calls : turns (one_by_one calls) = Some calls.
Proof.
  induction calls as [|[i [size|text]] calls IH]; [reflexivity| |].
  - cbn [one_by_one flat_map app fst snd turns]. fold (one_by_one calls).
    rewrite IH. reflexivity.
  - cbn [one_by_one flat_map app fst snd turns]. fold (one_by_one calls).
    rewrite Nat.eqb_refl, IH. reflexivity.
Qed.

(** X13.  As long as no call overlaps another, the list of interned
    strings only grows at its head and never holds the same content
    twice: a schedule written call by call on a sound heap, whatever the
    locks do, runs as its calls one after the other, the list afterwards
    is the list before with new strings in front, and if the strings of
    the list were all different before, they are all different
    afterwards.  When calls overlap it can hold one twice: from the empty
    list, with every lock granted, two calls with the same content of
    which the second starts between the critical sections of the first
    leave a list that holds the content twice. *)
Theorem list_holds_no_content_twice_unless_calls_overlap
    (w : world) (sched : list act) (calls : list (nat * op)) :
  heap_wf w → turns sched = Some calls → Forall valid_op (map snd calls) →
  (∃ rs w' l,
     run_schedule sched ∅ w = Some (zip (map fst calls) rs, w') ∧
     listed (mem w) (str_list_head (g_shared w)) l ∧
     (NoDup l →
      ∃ added, listed (mem w') (str_list_head (g_shared w')) (added ++ l) ∧
               NoDup (added ++ l))) ∧
  (let w0 := scenario_world [] in
   heap_wfb w0 = true ∧ locks_grantedb w0 = true ∧
   listed (mem w0) (str_list_head (g_shared w0)) [] ∧
   turns overlapped = None ∧
   ∃ rs w0', run_schedule overlapped ∅ w0 = Some (rs, w0') ∧
     listed (mem w0') (str_list_head (g_shared w0'))
       ["abcdefgh"; "abcdefgh"]%string).
Proof.
  intros Hwf Hturns Hv. split.
  - destruct (run_ops_grows (map snd calls) w Hwf Hv)
      as (rs & w' & E & Hwf' & _ & _ & _ & _ & _ & Hl).
    destruct (listed_of_chain _ _ _ _ (wf_chain _ Hwf) (wf_heap_pos _ Hwf))
      as [l Hlist].
    exists rs, w', l. split; [|split; [exact Hlist|]].
    + rewrite (run_turns _ _ _ Hturns), E. reflexivity.
    + intros Hn. exact (Hl l Hlist Hn).
  - cbv zeta.
    destruct intern_overlapped as (Hb & Hg & Ht & w' & E & _ & Hl).
    split; [exact Hb|]. split; [exact Hg|].
    split; [apply listed_nil|]. split; [exact Ht|].
    eexists _, w'. split; [exact E|exact Hl].
Qed.

(** ** The theorems at work *)

Lemma init_maps_or_cleans_up_witness :
  let cfg := example_config in
  let w := boot_world [139637976727552; 0] in
  ∃ r w', stress_shared_heap_init cfg w = Some (r, w') ∧
    (r ≠ NULL ↔
     hd MAP_FAILED (oracle w) ≠ MAP_FAILED ∧ hd NULL (tail (oracle w)) ≠ NULL) ∧
    init_request cfg ≤ 16384 < init_request cfg + page_size cfg ∧
    16384 mod page_size cfg = 0 ∧
    heap_size (g_shared w') = 16384 ∧
    offset (g_shared w') = offset (g_shared w) ∧
    out_of_memory (g_shared w') = false ∧
    str_list_head (g_shared w') = NULL ∧
    ((hd MAP_FAILED (oracle w) = MAP_FAILED ∧ r = NULL ∧
      heap (g_shared w') = MAP_FAILED ∧ lock (g_shared w') = NULL ∧
      trace w' = trace w ++ [EvMmap (init_request cfg) MAP_FAILED])
     ∨ (hd MAP_FAILED (oracle w) ≠ MAP_FAILED ∧
        hd NULL (tail (oracle w)) = NULL ∧ r = NULL ∧
        heap (g_shared w') = NULL ∧ lock (g_shared w') = NULL ∧
        trace w' = trace w ++
          [EvMmap (init_request cfg) (hd MAP_FAILED (oracle w));
           EvLockCreate NULL;
           EvMunmap (hd MAP_FAILED (oracle w)) 16384])
     ∨ (hd MAP_FAILED (oracle w) ≠ MAP_FAILED ∧
        hd NULL (tail (oracle w)) ≠ NULL ∧
        r = hd NULL (tail (oracle w)) ∧
        heap (g_shared w') = hd MAP_FAILED (oracle w) ∧
        lock (g_shared w') = hd NULL (tail (oracle w)) ∧
        mem w' = mem w ∧
        trace w' = trace w ++
          [EvMmap (init_request cfg) (hd MAP_FAILED (oracle w));
           EvLockCreate (hd NULL (tail (oracle w)))])).
Proof.
  cbv zeta.
  apply (init_maps_or_cleans_up example_config 12
           (boot_world [139637976727552; 0])).
  - reflexivity.
  - lia.
Defined.

Lemma init_then_deinit_witness :
  let cfg := example_config in
  let w := boot_world [MAP_FAILED] in
  ∃ r w1 w2,
    stress_shared_heap_init cfg w = Some (r, w1) ∧
    stress_shared_heap_deinit w1 = Some (tt, w2) ∧
    heap (g_shared w2) = NULL ∧ lock (g_shared w2) = NULL ∧
    offset (g_shared w2) = offset (g_shared w) ∧
    trace w2 = trace w ++
      (if hd MAP_FAILED (oracle w) =? MAP_FAILED then
         [EvMmap (init_request cfg) (hd MAP_FAILED (oracle w))]
         ++ (if 0 <? offset (g_shared w)
             then [EvPrDbg (offset (g_shared w)) 16384] else [])
         ++ [EvMunmap MAP_FAILED 16384]
       else if hd NULL (tail (oracle w)) =? NULL then
         [EvMmap (init_request cfg) (hd MAP_FAILED (oracle w));
          EvLockCreate NULL; EvMunmap (hd MAP_FAILED (oracle w)) 16384]
         ++ (if 0 <? offset (g_shared w)
             then [EvPrDbg (offset (g_shared w)) 16384] else [])
       else
         [EvMmap (init_request cfg) (hd MAP_FAILED (oracle w));
          EvLockCreate (hd NULL (tail (oracle w)))]
         ++ (if 0 <? offset (g_shared w)
             then [EvPrDbg (offset (g_shared w)) 16384] else [])
         ++ [EvMunmap (hd MAP_FAILED (oracle w)) 16384;
             EvLockDestroy (hd NULL (tail (oracle w)))]).
Proof.
  cbv zeta.
  apply (init_then_deinit example_config 12 (boot_world [MAP_FAILED])).
  - reflexivity.
  - lia.
  - vm_compute. discriminate.
Defined.

(** [deinit] after an [init] whose [mmap] failed: [munmap] is called on
    [MAP_FAILED]. *)
Example deinit_after_failed_mmap :
  ∃ w1 w2,
    stress_shared_heap_init example_config (boot_world [MAP_FAILED])
    = Some (NULL, w1) ∧
    stress_shared_heap_deinit w1 = Some (tt, w2) ∧
    trace w2 = [EvMmap 16384 MAP_FAILED; EvMunmap MAP_FAILED 16384].
Proof. eexists _, _. vm_compute. repeat split. Qed.

Lemma malloc_at_the_bounds_witness :
  let w := scenario_world [0] in
  let h := g_shared w in
  let free := heap_size h - offset h in
  heap_wfb w = true ∧
  stress_shared_heap_malloc 0 w = Some (heap h + offset h, pop w) ∧
  stress_shared_heap_malloc free w
  = Some (heap h + offset h, upd_heap (with_offset (heap_size h)) (pop w)) ∧
  (∀ size, free < size < 2 ^ 63 →
     stress_shared_heap_malloc size w
     = Some (NULL, upd_heap (with_out_of_memory true) (pop w))).
Proof.
  cbv zeta. split; [vm_compute; reflexivity|].
  apply (malloc_at_the_bounds (scenario_world [0])).
  - apply heap_wfb_sound. vm_compute. reflexivity.
  - vm_compute. discriminate.
Defined.

Lemma malloc_huge_request_witness :
  let w := scenario_world [0] in
  heap_wfb w = true ∧
  ∃ w', stress_shared_heap_malloc (2 ^ 63) w
        = Some (heap (g_shared w) + offset (g_shared w), w') ∧
    heap (g_shared w) + offset (g_shared w) ≠ NULL ∧
    heap_size (g_shared w) < 2 ^ 63 ∧
    out_of_memory (g_shared w') = out_of_memory (g_shared w).
Proof.
  cbv zeta. split; [vm_compute; reflexivity|].
  apply (malloc_huge_request_is_not_refused (scenario_world [0]) (2 ^ 63)).
  - apply heap_wfb_sound. vm_compute. reflexivity.
  - vm_compute. discriminate.
  - lia.
Defined.



Lemma list_holds_no_content_twice_witness :
  let w := scenario_world [0; 0; 0; -1; 0; 0; -1] in
  let calls := [(0%nat, Intern "abc"); (1%nat, Alloc 100);
                (1%nat, Intern "abc"); (0%nat, Intern "de");
                (2%nat, Alloc 5000)] in
  ∃ rs w' l,
    run_schedule (one_by_one calls) ∅ w
      = Some (zip [0; 1; 1; 0; 2]%nat rs, w') ∧
    listed (mem w) (str_list_head (g_shared w)) l ∧
    (NoDup l →
     ∃ added, listed (mem w') (str_list_head (g_shared w')) (added ++ l) ∧
              NoDup (added ++ l)).
Proof.
  cbv zeta.
  refine (proj1 (list_holds_no_content_twice_unless_calls_overlap
           (scenario_world [0; 0; 0; -1; 0; 0; -1]) _
           [(0%nat, Intern "abc"); (1%nat, Alloc 100);
            (1%nat, Intern "abc"); (0%nat, Intern "de");
            (2%nat, Alloc 5000)] _ _ _)).
  - apply heap_wfb_sound. vm_compute. reflexivity.
  - apply turns_one_by_one.
  - repeat constructor; cbn; try lia; vm_compute; reflexivity.
Defined.

End SharedHeapProps.

Module SysBadAddrFacts.
Import SysBadAddr.

Lemma install_handlers_ok ce l :
  (∀ signum, 0 ≤ sighandler_ret ce signum) →
  install_handlers ce l = Some l.
Proof.
  intros H. induction l as [|signum l IH]; cbn; [reflexivity|].
  destruct (Z.ltb_spec (sighandler_ret ce signum) 0) as [Hlt|_].
  - specialize (H signum). lia.
  - rewrite IH. reflexivity.
Qed.

Lemma child_ready ce bad_syscall addr :
  setup_ok ce →
  child ce bad_syscall addr = child_invoke sigs bad_syscall addr (start ce).
Proof.
  intros (Hd & Hs & Ht). unfold child.
  destruct (Z.ltb_spec (drop_capabilities_ret ce) 0); [lia|].
  rewrite install_handlers_ok by exact Hs.
  destruct (Z.ltb_spec (setitimer_ret ce) 0); [lia|]. reflexivity.
Qed.

Lemma deliver_caught signum :
  In signum sigs → deliver sigs signum = Exited 1.
Proof.
  intros H. unfold deliver.
  assert (E : existsb (Z.eqb signum) sigs = true).
  { apply existsb_exists. exists signum. split; [exact H|apply Z.eqb_refl]. }
  rewrite E. reflexivity.
Qed.

Lemma deliver_uncaught signum :
  ¬ In signum sigs → deliver sigs signum = Killed signum.
Proof.
  intros H. unfold deliver.
  destruct (existsb (Z.eqb signum) sigs) eqn:E; [|reflexivity].
  apply existsb_exists in E as (x & Hx & Ex). apply Z.eqb_eq in Ex. subst x.
  contradiction.
Qed.

(** C3, the claim as stated fails: when [open] succeeds in [bad_open] and
    returns descriptor 3, the operation has succeeded and the child leaves
    with status 3, not 0, which is what the parent reads from the wait
    status; and [bad_time] on the null address, where [time] succeeds,
    leaves with the time of day. *)
Lemma child_exits_with_descriptor :
  setup_ok (ready_child [Ret 3 0; Ret 0 0]) ∧
  bad_open 4096 (start (ready_child [Ret 3 0; Ret 0 0]))
    = Ok 3 (mk_ostate 0 []) ∧
  child (ready_child [Ret 3 0; Ret 0 0]) bad_open 4096 = Exited 3 ∧
  Exited 3 ≠ Exited 0 ∧
  WEXITSTATUS (wait_status (Exited 3)) = 3 ∧
  child (ready_child [Ret 1700000001 0]) bad_time NULL = Exited 1700000001 ∧
  WEXITSTATUS (wait_status (Exited 1700000001)) = 1.
Proof.
  split; [repeat split; cbn; lia|].
  repeat split; try reflexivity. discriminate.
Qed.

Lemma WEXITSTATUS_exited code :
  WEXITSTATUS (wait_status (Exited code)) = code mod 256.
Proof.
  unfold WEXITSTATUS, wait_status.
  rewrite Z.shiftr_shiftl_l by lia. cbn [Z.sub Z.shiftl].
  change 255 with (Z.ones 8). rewrite !Z.land_ones by lia.
  change (8 - 8) with 0. rewrite Z.shiftl_0_r.
  apply Z.mod_mod. lia.
Qed.

Lemma WEXITSTATUS_killed signum :
  WEXITSTATUS (wait_status (Killed signum)) = 0.
Proof.
  unfold WEXITSTATUS, wait_status.
  change 127 with (Z.ones 7). change 255 with (Z.ones 8).
  rewrite !Z.land_ones by lia. rewrite Z.shiftr_div_pow2 by lia.
  pose proof (Z.mod_pos_bound signum (2 ^ 7) ltac:(lia)).
  rewrite Z.div_small by lia. reflexivity.
Qed.

Lemma wrap_int_id n : - 2 ^ 31 ≤ n < 2 ^ 31 → wrap_int n = n.
Proof.
  intros H. unfold wrap_int. rewrite Z.mod_small by lia. lia.
Qed.

Lemma trial_reaped pe ce bad_syscall addr :
  keep_stressing pe = true → 0 < fork_ret pe → 0 ≤ waitpid_ret pe →
  stress_do_syscall pe ce bad_syscall addr
  = Returns (WEXITSTATUS (wait_status (child ce bad_syscall addr))) true.
Proof.
  intros Hk Hf Hw. unfold stress_do_syscall. rewrite Hk. cbn [negb].
  destruct (Z.ltb_spec (fork_ret pe) 0); [lia|].
  destruct (Z.ltb_spec (waitpid_ret pe) 0); [lia|]. reflexivity.
Qed.

(** C3, amended.  In the child of a trial whose set-up calls succeed, once
    the operation is invoked: when the operation returns a value that is
    not negative the child leaves with that value (with 0 exactly when
    the operation returns 0), and the status its parent reads, which is
    what [stress_do_syscall] returns when it has forked and reaped the
    child, is that value modulo 256; when it returns a negative value
    the child leaves with [errno]; when it does not come back, the
    interval timer's [SIGALRM] runs the handler and the child leaves with
    the handler's status 1, as it does for every other signal it catches;
    a signal it does not catch kills it, and the parent reads status 0.
    So
    [bad_getcwd] leaves with 0 when [getcwd] succeeds and with its
    [errno] when it fails; [bad_open], when [open] succeeds, leaves with
    the descriptor; and [bad_read], when [read] succeeds, leaves with the
    byte count, which the parent reads as 0 when all 1024 bytes were
    read. *)
Theorem child_exit_status (ce : child_env) (bad_syscall : bad_syscall_t)
    (addr : Z) :
  setup_ok ce →
  let seen := λ op, WEXITSTATUS (wait_status (child ce op addr)) in
  (∀ ret s', bad_syscall addr (start ce) = Ok ret s' → 0 ≤ ret →
     child ce bad_syscall addr = Exited ret ∧
     (child ce bad_syscall addr = Exited 0 ↔ ret = 0) ∧
     seen bad_syscall = ret mod 256) ∧
  (∀ ret s', bad_syscall addr (start ce) = Ok ret s' → ret < 0 →
     child ce bad_syscall addr = Exited (errno s') ∧
     seen bad_syscall = errno s' mod 256) ∧
  (bad_syscall addr (start ce) = Blocked →
     child ce bad_syscall addr = Exited 1 ∧ seen bad_syscall = 1) ∧
  (∀ signum, bad_syscall addr (start ce) = Raise signum →
     (In signum sigs →
      child ce bad_syscall addr = Exited 1 ∧ seen bad_syscall = 1) ∧
     (¬ In signum sigs →
      child ce bad_syscall addr = Killed signum ∧ seen bad_syscall = 0)) ∧
  (∀ p err rest, script (start ce) = Ret p err :: rest →
     (p ≠ 0 → child ce bad_getcwd addr = Exited 0) ∧
     (p = 0 → child ce bad_getcwd addr = Exited err ∧
              seen bad_getcwd = err mod 256)) ∧
  (∀ fd e1 c e2 rest,
     script (start ce) = Ret fd e1 :: Ret c e2 :: rest → 0 ≤ fd →
     child ce bad_open addr = Exited fd ∧ seen bad_open = fd mod 256) ∧
  (∀ fd e1 n e2 c e3 rest,
     script (start ce) = Ret fd e1 :: Ret n e2 :: Ret c e3 :: rest →
     0 ≤ fd → 0 ≤ n ≤ 1024 →
     child ce bad_read addr = Exited n ∧ seen bad_read = n mod 256 ∧
     (n = 1024 → seen bad_read = 0)) ∧
  (∀ pe op,
     keep_stressing pe = true → 0 < fork_ret pe → 0 ≤ waitpid_ret pe →
     stress_do_syscall pe ce op addr = Returns (seen op) true).
Proof.
  intros Hok. cbv zeta.
  assert (Hch : ∀ op, child ce op addr = child_invoke sigs op addr (start ce)).
  { intros op. exact (child_ready ce op addr Hok). }
  rewrite !Hch. unfold child_invoke.
  split; [|split; [|split; [|split; [|split; [|split; [|split]]]]]];
    [| | | | | | |intros pe op Hk Hf Hw; now apply trial_reaped].
  - intros ret s' H Hret. rewrite H.
    destruct (Z.ltb_spec ret 0); [lia|].
    split; [reflexivity|]. split; [|apply WEXITSTATUS_exited].
    split; [intros [= E]; exact E|intros ->; reflexivity].
  - intros ret s' H Hneg. rewrite H.
    destruct (Z.ltb_spec ret 0); [|lia].
    split; [reflexivity|apply WEXITSTATUS_exited].
  - intros ->.
    rewrite (deliver_caught SIGALRM) by (unfold sigs; cbn; tauto).
    split; [reflexivity|reflexivity].
  - intros signum H. rewrite H. split.
    + intros Hin. rewrite (deliver_caught _ Hin). split; reflexivity.
    + intros Hout. rewrite (deliver_uncaught _ Hout).
      split; [reflexivity|apply WEXITSTATUS_killed].
  - intros p err rest Hs. unfold bad_getcwd, obind, syscall_ptr, oret.
    rewrite Hs. split.
    + intros Hp. destruct (Z.eqb_spec p 0); [contradiction|]. reflexivity.
    + intros ->. cbn. split; [reflexivity|apply WEXITSTATUS_exited].
  - intros fd e1 c e2 rest Hs Hfd.
    assert (E1 : (fd =? -1) = false) by (apply Z.eqb_neq; lia).
    assert (E2 : (fd <? 0) = false) by (apply Z.ltb_ge; lia).
    unfold bad_open, obind, syscall, oret. rewrite Hs, E1, E2.
    cbn [negb script]. rewrite E2.
    split; [reflexivity|apply WEXITSTATUS_exited].
  - intros fd e1 n e2 c e3 rest Hs Hfd Hn.
    assert (E1 : (-1 <? fd) = true) by (apply Z.ltb_lt; lia).
    assert (E2 : (n <? 0) = false) by (apply Z.ltb_ge; lia).
    unfold bad_read, obind, syscall, oret. rewrite Hs, E1.
    cbn [script]. rewrite wrap_int_id by lia. rewrite E2.
    split; [reflexivity|]. split; [apply WEXITSTATUS_exited|].
    intros ->. reflexivity.
Qed.

Lemma child_exit_status_witness :
  let ce := ready_child [Ret 0 14] in
  setup_ok ce ∧
  bad_getcwd 4096 (start ce) = Ok (-1) (mk_ostate 14 []) ∧
  child ce bad_getcwd 4096 = Exited 14 ∧
  WEXITSTATUS (wait_status (child ce bad_getcwd 4096)) = 14.
Proof.
  cbv zeta.
  assert (Hok : setup_ok (ready_child [Ret 0 14])).
  { repeat split; cbn; lia. }
  split; [exact Hok|]. split; [reflexivity|].
  destruct (child_exit_status (ready_child [Ret 0 14]) bad_getcwd 4096 Hok)
    as (_ & Hneg & _).
  destruct (Hneg (-1) (mk_ostate 14 [])) as [H1 H2]; [reflexivity|lia|].
  split; [exact H1|exact H2].
Defined.

(** ** What the parent returns *)

(** C10.  When the parent forks and reaps its child, the value a trial
    returns is the child's exit code modulo 256, taken from the exit field
    of the wait status; two children whose exit codes are congruent modulo
    256 give the same value; and a child that leaves with a multiple of
    256, as [bad_read] does after a read of 1024 bytes, gives 0, the value
    of a child that left with status 0. *)
Theorem trial_returns_exit_code_mod_256 (pe : parent_env) :
  keep_stressing pe = true → 0 < fork_ret pe → 0 ≤ waitpid_ret pe →
  (∀ ce bad_syscall addr code,
     child ce bad_syscall addr = Exited code →
     stress_do_syscall pe ce bad_syscall addr = Returns (code mod 256) true) ∧
  (∀ ce1 bad1 addr1 code1 ce2 bad2 addr2 code2,
     child ce1 bad1 addr1 = Exited code1 →
     child ce2 bad2 addr2 = Exited code2 →
     code1 mod 256 = code2 mod 256 →
     stress_do_syscall pe ce1 bad1 addr1 = stress_do_syscall pe ce2 bad2 addr2) ∧
  (∀ addr fd rest, 0 ≤ fd →
     child (ready_child (Ret fd 0 :: Ret 1024 0 :: Ret 0 0 :: rest))
           bad_read addr = Exited 1024 ∧
     stress_do_syscall pe
       (ready_child (Ret fd 0 :: Ret 1024 0 :: Ret 0 0 :: rest)) bad_read addr
     = Returns 0 true ∧
     ∀ ce bad_syscall addr', child ce bad_syscall addr' = Exited 0 →
       stress_do_syscall pe ce bad_syscall addr' = Returns 0 true).
Proof.
  intros Hk Hf Hw.
  assert (H1 : ∀ ce bad_syscall addr code,
     child ce bad_syscall addr = Exited code →
     stress_do_syscall pe ce bad_syscall addr = Returns (code mod 256) true).
  { intros ce bad_syscall addr code E.
    rewrite trial_reaped by assumption. rewrite E, WEXITSTATUS_exited.
    reflexivity. }
  split; [exact H1|]. split.
  - intros ce1 bad1 addr1 code1 ce2 bad2 addr2 code2 E1 E2 Hc.
    rewrite (H1 _ _ _ _ E1), (H1 _ _ _ _ E2), Hc. reflexivity.
  - intros addr fd rest Hfd.
    assert (E : child (ready_child (Ret fd 0 :: Ret 1024 0 :: Ret 0 0 :: rest))
                  bad_read addr = Exited 1024).
    { unfold child, ready_child, child_invoke, bad_read, obind, syscall, oret.
      cbn. destruct (Z.ltb_spec fd 0); [lia|].
      destruct (Z.ltb_spec (-1) fd); [|lia]. reflexivity. }
    split; [exact E|]. split.
    + rewrite (H1 _ _ _ _ E). reflexivity.
    + intros ce bad_syscall addr' E0. rewrite (H1 _ _ _ _ E0). reflexivity.
Qed.

Lemma trial_returns_exit_code_witness :
  keep_stressing calm_parent = true ∧
  child (ready_child [Ret 3 0; Ret 1024 0; Ret 0 0]) bad_read 0 = Exited 1024 ∧
  stress_do_syscall calm_parent (ready_child [Ret 3 0; Ret 1024 0; Ret 0 0])
    bad_read 0 = Returns 0 true.
Proof.
  split; [reflexivity|].
  destruct (trial_returns_exit_code_mod_256 calm_parent) as (_ & _ & H);
    [reflexivity|cbn; lia|cbn; lia|].
  destruct (H 0 3 [] ltac:(lia)) as (E & R & _).
  split; [exact E|exact R].
Defined.

End SysBadAddrFacts.

Module SysBadAddrProps.
Import SysBadAddr SysBadAddrFacts.

(** ** The outcomes of a trial *)

Lemma WEXITSTATUS_range status : 0 ≤ WEXITSTATUS status ≤ 255.
Proof.
  unfold WEXITSTATUS.
  assert (E : Z.land (Z.shiftr status 8) 255 = Z.shiftr status 8 mod 2 ^ 8).
  { change 255 with (Z.ones 8). apply Z.land_ones. lia. }
  rewrite E.
  pose proof (Z.mod_pos_bound (Z.shiftr status 8) (2 ^ 8) ltac:(lia)). lia.
Qed.

(** X14.  A call of [stress_do_syscall] goes one of three ways.  When the
    run is to stop it returns 0 at once and counts nothing.  When [fork]
    fails it does not return: the caller itself leaves with
    [EXIT_NO_RESOURCE].  When [fork] gives a child, it counts the trial and
    returns a value between 0 and 255; after a failed [waitpid], when the
    child is killed before it has ended and reaped, that value is 0. *)
Theorem trial_outcomes (pe : parent_env) (ce : child_env)
    (bad_syscall : bad_syscall_t) (addr : Z) :
  (keep_stressing pe = false →
   stress_do_syscall pe ce bad_syscall addr = Returns 0 false) ∧
  (keep_stressing pe = true → fork_ret pe < 0 →
   stress_do_syscall pe ce bad_syscall addr = Leaves EXIT_NO_RESOURCE) ∧
  (keep_stressing pe = true → 0 < fork_ret pe →
   ∃ rc, stress_do_syscall pe ce bad_syscall addr = Returns rc true ∧
     0 ≤ rc ≤ 255 ∧
     (waitpid_ret pe < 0 → 0 ≤ waitpid_again_ret pe → child_done pe = false →
      rc = 0)).
Proof.
  unfold stress_do_syscall. repeat split.
  - intros ->. reflexivity.
  - intros -> Hf. cbn [negb].
    destruct (Z.ltb_spec (fork_ret pe) 0); [reflexivity|lia].
  - intros -> Hf. cbn [negb].
    destruct (Z.ltb_spec (fork_ret pe) 0); [lia|].
    eexists. split; [reflexivity|]. split; [apply WEXITSTATUS_range|].
    intros Hw Hw2 Hd.
    destruct (Z.ltb_spec (waitpid_ret pe) 0); [|lia].
    destruct (Z.ltb_spec (waitpid_again_ret pe) 0); [lia|].
    rewrite Hd. apply WEXITSTATUS_killed.
Qed.

Lemma trial_outcomes_witness :
  stress_do_syscall (mk_parent_env true 4242 (-1) false 0 0) (ready_child [])
    bad_getcwd 0 = Returns 0 true.
Proof.
  destruct (trial_outcomes (mk_parent_env true 4242 (-1) false 0 0)
              (ready_child []) bad_getcwd 0) as (_ & _ & H).
  destruct H as (rc & E & _ & Hz); [reflexivity|cbn; lia|].
  rewrite E. f_equal. apply Hz; [cbn; lia|cbn; lia|reflexivity].
Defined.

Lemma install_handlers_fails ce l :
  install_handlers ce l = None ↔ ∃ signum, In signum l ∧ sighandler_ret ce signum < 0.
Proof.
  induction l as [|signum l IH]; cbn.
  - split; [discriminate|]. intros (s & [] & _).
  - destruct (Z.ltb_spec (sighandler_ret ce signum) 0) as [Hlt|Hge].
    + split; [|reflexivity]. intros _. exists signum. auto.
    + destruct (install_handlers ce l) as [hs|] eqn:E; cbn.
      * split; [discriminate|]. intros (s & [<-|Hin] & Hs); [lia|].
        assert (H : Some hs = None) by (apply IH; eauto).
        discriminate H.
      * split; [|reflexivity]. intros _.
        destruct (proj1 IH eq_refl) as (s & Hin & Hs). exists s. auto.
Qed.

(** X15.  When one of the set-up calls of the child of a trial fails
    (dropping the capabilities, installing a handler for one of [sigs],
    arming the timer), the child leaves with [EXIT_NO_RESOURCE] or
    [EXIT_FAILURE], with the second exactly when the capabilities were
    dropped and a handler could not be installed; and it leaves in the same
    way whatever the operation and the address are: the operation is not
    called. *)
Theorem child_setup_failure_skips_the_operation (ce : child_env)
    (bad_syscall : bad_syscall_t) (addr : Z) :
  ¬ (0 ≤ drop_capabilities_ret ce ∧
     (∀ signum, In signum sigs → 0 ≤ sighandler_ret ce signum) ∧
     0 ≤ setitimer_ret ce) →
  (child ce bad_syscall addr = Exited EXIT_NO_RESOURCE ∨
   child ce bad_syscall addr = Exited EXIT_FAILURE) ∧
  (child ce bad_syscall addr = Exited EXIT_FAILURE ↔
   0 ≤ drop_capabilities_ret ce ∧
   ∃ signum, In signum sigs ∧ sighandler_ret ce signum < 0) ∧
  ∀ bad_syscall' addr',
    child ce bad_syscall' addr' = child ce bad_syscall addr.
Proof.
  intros Hbad. unfold child, EXIT_NO_RESOURCE, EXIT_FAILURE.
  destruct (Z.ltb_spec (drop_capabilities_ret ce) 0) as [Hd|Hd].
  { split; [auto|]. split; [|reflexivity].
    split; [discriminate|]. lia. }
  destruct (install_handlers ce sigs) as [hs|] eqn:E.
  - assert (Hs : ∀ signum, In signum sigs → 0 ≤ sighandler_ret ce signum).
    { intros s Hin. destruct (Z.lt_ge_cases (sighandler_ret ce s) 0) as [Hlt|];
        [|assumption].
      assert (H : install_handlers ce sigs = None)
        by (apply install_handlers_fails; eauto).
      congruence. }
    destruct (Z.ltb_spec (setitimer_ret ce) 0) as [Ht|Ht]; [|tauto].
    split; [auto|]. split; [|reflexivity].
    split; [discriminate|]. intros (_ & s & Hin & Hlt).
    specialize (Hs s Hin). lia.
  - split; [auto|]. split; [|reflexivity].
    split; [|reflexivity]. intros _. split; [exact Hd|].
    now apply install_handlers_fails.
Qed.

Lemma child_setup_failure_witness :
  child (mk_child_env 0 (λ signum, if signum =? SIGSEGV then -1 else 0) 0
           (mk_ostate 0 [])) bad_open 0 = Exited EXIT_FAILURE.
Proof.
  assert (Hin : In SIGSEGV sigs)
    by (repeat first [left; reflexivity|right]).
  destruct (child_setup_failure_skips_the_operation
              (mk_child_env 0 (λ signum, if signum =? SIGSEGV then -1 else 0)
                 0 (mk_ostate 0 [])) bad_open 0) as (_ & Hiff & _).
  - intros (_ & Hs & _). specialize (Hs SIGSEGV Hin). cbn in Hs. lia.
  - apply Hiff. split; [cbn; lia|].
    exists SIGSEGV. split; [exact Hin|cbn; lia].
Defined.

(** X16.  When the operation raises a signal in a child that is set up
    and is reaped, the trial returns 1 for a signal of [sigs], the status
    of [stress_badhandler]; for any other signal the child is killed, and
    the trial returns 0, the value of an operation that succeeded. *)
Theorem uncaught_signal_reads_as_success (pe : parent_env) (ce : child_env)
    (bad_syscall : bad_syscall_t) (addr : Z) (signum : Z) :
  keep_stressing pe = true → 0 < fork_ret pe → 0 ≤ waitpid_ret pe →
  setup_ok ce → bad_syscall addr (start ce) = Raise signum →
  (In signum sigs →
   stress_do_syscall pe ce bad_syscall addr = Returns 1 true) ∧
  (¬ In signum sigs →
   child ce bad_syscall addr = Killed signum ∧
   stress_do_syscall pe ce bad_syscall addr = Returns 0 true).
Proof.
  intros Hk Hf Hw Hok Hr.
  rewrite trial_reaped by assumption.
  rewrite (child_ready ce bad_syscall addr Hok).
  unfold child_invoke. rewrite Hr. split.
  - intros Hin. rewrite deliver_caught by exact Hin. reflexivity.
  - intros Hout. rewrite deliver_uncaught by exact Hout.
    split; [reflexivity|]. f_equal. apply WEXITSTATUS_killed.
Qed.

Lemma uncaught_signal_witness :
  child (ready_child [Sig 31]) bad_getcwd 0 = Killed 31 ∧
  stress_do_syscall calm_parent (ready_child [Sig 31]) bad_getcwd 0
  = Returns 0 true.
Proof.
  destruct (uncaught_signal_reads_as_success calm_parent
              (ready_child [Sig 31]) bad_getcwd 0 31) as [_ H].
  - reflexivity.
  - cbn. lia.
  - cbn. lia.
  - repeat split; cbn; lia.
  - reflexivity.
  - apply H. intros Hin. cbn in Hin.
    repeat (destruct Hin as [Hin|Hin]; [discriminate Hin|]). exact Hin.
Defined.

(** ** Runs of the stressor *)

Lemma pwp_bind {A B} (m : P A) (k : A → P B) Q st :
  pwp (pbind m k) Q st = pwp m (λ a st', pwp (k a) Q st') st.
Proof. unfold pwp, pbind. destruct (m st) as [[a st']|]; reflexivity. Qed.

Lemma pwp_ret {A} (a : A) Q st : pwp (pret a) Q st = Q a st.
Proof. reflexivity. Qed.

Lemma pwp_ask Q st : pwp p_ask Q st = Q (hd 0 (answers st)) (p_pop st).
Proof. reflexivity. Qed.

Lemma pwp_emit ev Q st : pwp (p_emit ev) Q st = Q tt (p_log ev st).
Proof. reflexivity. Qed.

Lemma pwp_get_ro Q st : pwp get_ro_page Q st = Q (st_ro_page st) st.
Proof. reflexivity. Qed.

Lemma pwp_get_rw Q st : pwp get_rw_page Q st = Q (st_rw_page st) st.
Proof. reflexivity. Qed.

Lemma pwp_set_ro v Q st :
  pwp (set_ro_page v) Q st
  = Q tt (mk_pstate v (st_rw_page st) (answers st) (events st)).
Proof. reflexivity. Qed.

Lemma pwp_set_rw v Q st :
  pwp (set_rw_page v) Q st
  = Q tt (mk_pstate (st_ro_page st) v (answers st) (events st)).
Proof. reflexivity. Qed.

Lemma pwp_mono {A} (m : P A) (Q Q' : A → pstate → Prop) st :
  pwp m Q st → (∀ a st', Q a st' → Q' a st') → pwp m Q' st.
Proof. unfold pwp. destruct (m st) as [[a st']|]; [|tauto]. auto. Qed.

Lemma answers_pop st : answers (p_pop st) = tail (answers st).
Proof. reflexivity. Qed.
Lemma answers_log ev st : answers (p_log ev st) = answers st.
Proof. reflexivity. Qed.
Lemma events_pop st : events (p_pop st) = events st.
Proof. reflexivity. Qed.
Lemma events_log ev st : events (p_log ev st) = events st ++ [ev].
Proof. reflexivity. Qed.
Lemma ro_pop st : st_ro_page (p_pop st) = st_ro_page st.
Proof. reflexivity. Qed.
Lemma ro_log ev st : st_ro_page (p_log ev st) = st_ro_page st.
Proof. reflexivity. Qed.
Lemma rw_pop st : st_rw_page (p_pop st) = st_rw_page st.
Proof. reflexivity. Qed.
Lemma rw_log ev st : st_rw_page (p_log ev st) = st_rw_page st.
Proof. reflexivity. Qed.

Ltac pnorm :=
  cbn [answers events st_ro_page st_rw_page fst snd negb];
  repeat rewrite ?answers_pop, ?answers_log, ?events_pop, ?events_log,
    ?ro_pop, ?ro_log, ?rw_pop, ?rw_log;
  cbn [answers events st_ro_page st_rw_page fst snd].

Ltac pwp_unfold :=
  unfold finish;
  unfold ask_keep_stressing, p_mmap, p_munmap, fork, get_errno, waitpid, kill.

Ltac pwp_step :=
  first
    [ rewrite pwp_bind | rewrite pwp_ret | rewrite pwp_ask | rewrite pwp_emit
    | rewrite pwp_get_ro | rewrite pwp_get_rw
    | rewrite pwp_set_ro | rewrite pwp_set_rw
    | match goal with
      | H : ?b = _ |- pwp (if ?b then _ else _) _ _ => rewrite H
      | |- context [negb (?a =? 0)] => destruct (a =? 0) eqn:?; cbn [negb]
      | |- pwp (if ?b then _ else _) _ _ => destruct b eqn:?
      end ]; pnorm.

Lemma balance_app s1 s2 : balance (s1 ++ s2) = balance s1 + balance s2.
Proof.
  induction s1 as [|ev s1 IH]; [reflexivity|].
  cbn [app balance]. destruct ev; rewrite ?IH; lia.
Qed.

Lemma ended_at_check_app s1 s2 :
  s2 ≠ [] → ended_at_check (s1 ++ s2) = ended_at_check s2.
Proof.
  intros H. unfold ended_at_check.
  destruct s2 as [|ev s2 _] using rev_ind; [contradiction|].
  rewrite app_assoc, !last_snoc. reflexivity.
Qed.

Lemma again_post_after args in_child st0 st1 s1 out st' :
  again_post args in_child st1 out st' →
  events st1 = events st0 ++ s1 → balance s1 = 0 →
  layout_of args st1 = layout_of args st0 →
  again_post args in_child st0 out st'.
Proof.
  intros (s & Hs & Hne & Hout) H1 Hb Hl.
  exists (s1 ++ s). rewrite Hs, H1, <- app_assoc.
  split; [reflexivity|]. split.
  { intros E. apply app_eq_nil in E as [_ E]. contradiction. }
  destruct out; [|rewrite <- Hl; exact Hout].
  rewrite balance_app, Hb, ended_at_check_app by exact Hne. exact Hout.
Qed.

Lemma ptail_shorter {A} (l : list A) n :
  (length l < n)%nat → (length (tail l) < n)%nat.
Proof. destruct l; cbn; lia. Qed.

Lemma ptail_of_asked (l : list Z) n :
  negb (negb (hd 0 l =? 0)) = false → (length l < S n)%nat →
  (length (tail l) < n)%nat.
Proof. destruct l as [|a l]; cbn; [discriminate|]. lia. Qed.

Ltac ptraces :=
  pnorm; first [rewrite <- ?app_assoc; reflexivity | symmetry; apply app_nil_r].

Lemma again_spec args in_child fuel : ∀ st,
  (∀ l, in_child l ≠ None) →
  (length (answers st) < fuel)%nat →
  pwp (again fuel args in_child) (again_post args in_child st) st.
Proof.
  induction fuel as [|fuel IH]; intros st Hchild Hlen; [lia|].
  cbn [again]. pwp_unfold.
  repeat pwp_step.
  all: try match goal with
       | H : (hd 0 (answers ?s) =? 0) = false,
         H' : (length (answers ?s) < S _)%nat |- _ =>
           assert (length (tail (answers s)) < fuel)%nat
             by (destruct (answers s); [discriminate H|cbn in *; lia])
       end.
  all: try (eexists; split; [ptraces|]; split; [discriminate|];
            first [ split; [reflexivity|]; cbn; lia
                  | left; split; [reflexivity|assumption] ]).
  all: try (eapply pwp_mono;
            [apply IH;
             [assumption
             |pnorm; solve [repeat first [assumption|apply ptail_shorter]]]
            |intros ? st' Hr; cbv beta in Hr |- *;
             eapply (again_post_after _ _ _ _ _ _ _ Hr);
             [ptraces|reflexivity|reflexivity]]).
  unfold pwp.
  match goal with |- context [in_child ?l] =>
    destruct (in_child l) as [code|] eqn:E; [|destruct (Hchild _ E)] end.
  eexists. split; [ptraces|]. split; [discriminate|]. right. exact E.
Qed.

Lemma stressor_spec args in_child fuel st :
  (∀ l, in_child l ≠ None) →
  (length (answers st) < fuel)%nat →
  pwp (stress_sysbadaddr fuel args in_child) (stressor_post args in_child st) st.
Proof.
  intros Hchild Hlen. unfold stress_sysbadaddr, setup, stressor_post. cbv zeta.
  pwp_unfold. repeat pwp_step.
  all: repeat match goal with
         | H : (_ =? _) = true |- _ => apply Z.eqb_eq in H
         | H : (_ =? _) = false |- _ => apply Z.eqb_neq in H
         end.
  - left. repeat split; [assumption|ptraces].
  - right; left. repeat split; [assumption|assumption|ptraces].
  - eapply pwp_mono;
      [apply again_spec;
       [assumption
       |pnorm; solve [repeat first [assumption|apply ptail_shorter]]]|].
    intros out st' (s & Hs & Hne & Hout). cbv beta.
    right; right. split; [assumption|]. split; [assumption|].
    exists s. split; [|split; [exact Hne|exact Hout]].
    rewrite Hs. pnorm. rewrite <- !app_assoc. reflexivity.
Qed.

Lemma quiet_child_ends : ∀ l, quiet_child l ≠ None.
Proof. discriminate. Qed.

(** X17.  Given more fuel than the environment has answers, and a child
    that ends, [stress_sysbadaddr] ends; it returns [EXIT_NO_RESOURCE] when
    one of its two [mmap] calls failed and [EXIT_SUCCESS] in every other
    case in which it returns, whatever [fork] and [waitpid] did; and it
    leaves by [_exit] only with status 0 after the child was killed by
    SIGKILL under the OOMABLE option, or as the forked child, which is
    handed the two pages just mapped. *)
Theorem stressor_return_codes (args : args_t) (in_child : layout → option Z)
    (fuel : nat) (script : list Z) :
  (∀ l, in_child l ≠ None) →
  (length script < fuel)%nat →
  ∃ out st',
    stress_sysbadaddr fuel args in_child (boot script) = Some (out, st') ∧
    let ro := wrap64 (hd 0 script) in
    let rw := wrap64 (hd 0 (tail script)) in
    match out with
    | Return rc =>
        (rc = EXIT_NO_RESOURCE ∧ (ro = MAP_FAILED ∨ rw = MAP_FAILED)) ∨
        (rc = EXIT_SUCCESS ∧ ro ≠ MAP_FAILED ∧ rw ≠ MAP_FAILED)
    | Exit code =>
        ro ≠ MAP_FAILED ∧ rw ≠ MAP_FAILED ∧
        ((code = 0 ∧ oomable args = true) ∨
         in_child (mk_layout (args_page_size args) ro rw (args_data args)
                     (args_write_text args)) = Some code)
    end.
Proof.
  intros Hchild Hlen.
  pose proof (stressor_spec args in_child fuel (boot script) Hchild Hlen) as H.
  unfold pwp in H.
  destruct (stress_sysbadaddr fuel args in_child (boot script))
    as [[out st']|]; [|contradiction].
  exists out, st'. split; [reflexivity|]. cbv zeta.
  unfold stressor_post in H. cbn [answers boot events] in H.
  destruct H as [(Hro & -> & _)|[(Hro & Hrw & -> & _)|(Hro & Hrw & s & _ & _ & Hout)]].
  - left. auto.
  - left. auto.
  - destruct out as [rc|code].
    + right. destruct Hout as [-> _]. auto.
    + auto.
Qed.

Lemma stressor_return_codes_witness :
  ∃ st', stress_sysbadaddr 9 small_pages quiet_child
           (boot [40960; 81920; 1; -1; 12]) = Some (Return EXIT_SUCCESS, st').
Proof.
  destruct (stressor_return_codes small_pages quiet_child 9
              [40960; 81920; 1; -1; 12] quiet_child_ends)
    as (out & st' & E & H); [cbn; lia|].
  exists st'. rewrite E. vm_compute in E. injection E as <- _. reflexivity.
Defined.

(** A failed [fork] that is not [EAGAIN] ends the stressor with
    [EXIT_SUCCESS], the pages unmapped; and the forked child, here one
    that makes two rounds of trials, leaves with status 0. *)
Example stressor_example_runs :
  stress_sysbadaddr 9 small_pages quiet_child (boot [40960; 81920; 1; -1; 12])
  = Some (Return EXIT_SUCCESS,
          mk_pstate 40960 81920 []
            [EvMmap 4096 PROT_READ 40960; EvMmap 8192 PROT_READ 81920;
             EvMunmap 86016 4096; EvKeepStressing true; EvFork (-1);
             EvPrErr; EvMunmap 81920 4096; EvMunmap 40960 4096]) ∧
  fst <$> stress_sysbadaddr 9 small_pages
            (in_stressor_child 5 (calm_world 2) bad_syscalls)
            (boot [40960; 81920; 1; 0])
  = Some (Exit 0).
Proof. split; vm_compute; reflexivity. Qed.

(** X18.  Over a run that returns, what [stress_sysbadaddr] mapped it has
    unmapped again, except when it returns from the test at the label
    [again] because [keep_stressing()] said stop: then the read-only page
    and the first of the two other pages, [page_size] bytes each, are
    still mapped. *)
Theorem pages_stay_mapped_after_the_stop_check (args : args_t)
    (in_child : layout → option Z) (fuel : nat) (script : list Z)
    (rc : Z) (st' : pstate) :
  (∀ l, in_child l ≠ None) →
  (length script < fuel)%nat →
  0 ≤ args_page_size args < 2 ^ 63 →
  stress_sysbadaddr fuel args in_child (boot script) = Some (Return rc, st') →
  balance (events st')
  = (if ended_at_check (events st') then 2 * args_page_size args else 0)
  ∧ (ended_at_check (events st') = true → rc = EXIT_SUCCESS).
Proof.
  intros Hchild Hlen Hps E.
  pose proof (stressor_spec args in_child fuel (boot script) Hchild Hlen) as H.
  unfold pwp in H. rewrite E in H.
  unfold stressor_post in H. cbn [answers boot events] in H.
  assert (Hw : wrap64 (Z.shiftl (args_page_size args) 1)
               = 2 * args_page_size args).
  { rewrite Z.shiftl_mul_pow2 by lia. unfold wrap64.
    rewrite Z.mod_small by lia. lia. }
  destruct H as [(Hro & _ & ->)|[(Hro & Hrw & _ & ->)|(Hro & Hrw & s & -> & Hne & -> & Hb)]].
  - apply Z.eqb_eq in Hro. cbn [balance app]. rewrite Hro.
    split; [reflexivity|discriminate].
  - apply Z.eqb_neq in Hro. apply Z.eqb_eq in Hrw.
    cbn [balance app]. rewrite Hro, Hrw.
    split; [cbn; lia|discriminate].
  - apply Z.eqb_neq in Hro. apply Z.eqb_neq in Hrw.
    split; [|reflexivity].
    rewrite !app_nil_l.
    rewrite (ended_at_check_app [_; _; _] s Hne).
    rewrite balance_app. cbn [balance app].
    rewrite Hro, Hrw, Hb, Hw.
    destruct (ended_at_check s); lia.
Qed.

Lemma pages_stay_mapped_witness :
  ∃ st', stress_sysbadaddr 9 small_pages quiet_child (boot [40960; 81920; 0])
         = Some (Return EXIT_SUCCESS, st') ∧
         ended_at_check (events st') = true ∧
         balance (events st') = 8192.
Proof.
  eexists. split; [reflexivity|]. split; [reflexivity|].
  apply (pages_stay_mapped_after_the_stop_check small_pages quiet_child 9
           [40960; 81920; 0] EXIT_SUCCESS);
    [exact quiet_child_ends|cbn; lia|cbn; lia|reflexivity].
Defined.

(** ** The hole behind the second page *)

Lemma mapped_app s1 s2 x now :
  mapped (s1 ++ s2) x now = mapped s2 x (mapped s1 x now).
Proof.
  revert now. induction s1 as [|ev s1 IH]; intros now; [reflexivity|].
  cbn [app mapped]. destruct ev; apply IH.
Qed.

Lemma setup_spec args st :
  pwp (setup args)
    (λ ok st',
       ok = true →
       wrap64 (hd 0 (answers st)) ≠ MAP_FAILED ∧
       wrap64 (hd 0 (tail (answers st))) ≠ MAP_FAILED ∧
       st_ro_page st' = wrap64 (hd 0 (answers st)) ∧
       st_rw_page st' = wrap64 (hd 0 (tail (answers st))) ∧
       events st' = events st ++
         [EvMmap (args_page_size args) PROT_READ (wrap64 (hd 0 (answers st)));
          EvMmap (wrap64 (Z.shiftl (args_page_size args) 1)) PROT_READ
            (wrap64 (hd 0 (tail (answers st))));
          EvMunmap (wrap64 (wrap64 (hd 0 (tail (answers st)))
                            + args_page_size args))
            (args_page_size args)]) st.
Proof.
  unfold setup. cbv zeta. pwp_unfold. repeat pwp_step.
  all: intros Hok; try discriminate Hok.
  repeat match goal with
         | H : (_ =? _) = false |- _ => apply Z.eqb_neq in H
         end.
  repeat split; try assumption. ptraces.
Qed.

(** X19.  Once the lines of [stress_sysbadaddr] before the label [again]
    have the two mappings, and the second lies in the address space with
    its two pages, the page at [rw_page] is mapped readable only, the
    address [bad_end_addr] is its last byte, and [unmapped_addr] is the
    first byte of a page no longer mapped, which follows it. *)
Theorem a_hole_follows_the_second_page (args : args_t) (script : list Z)
    (st' : pstate) :
  0 < args_page_size args →
  setup args (boot script) = Some (true, st') →
  st_rw_page st' + 2 * args_page_size args < 2 ^ 64 →
  let l := layout_of args st' in
  let prot_at x := mapped (events st') x None in
  rw_page l = wrap64 (hd 0 (tail script)) ∧
  bad_end_addr l = rw_page l + page_size l - 1 ∧
  unmapped_addr l = rw_page l + page_size l ∧
  (∀ x, rw_page l ≤ x ≤ bad_end_addr l → prot_at x = Some PROT_READ) ∧
  (∀ x, unmapped_addr l ≤ x < unmapped_addr l + page_size l →
        prot_at x = None).
Proof.
  intros Hps E Hfit. cbv zeta.
  pose proof (setup_spec args (boot script)) as H.
  unfold pwp in H. rewrite E in H.
  destruct (H eq_refl) as (Hro & Hrw & _ & Erw & Eev). clear H.
  cbn [answers boot events app] in *.
  apply Z.eqb_neq in Hrw.
  unfold layout_of, bad_end_addr, unmapped_addr.
  cbn [rw_page page_size]. rewrite Eev.
  rewrite Erw in Hfit |- *. clear Erw.
  set (ps := args_page_size args) in *.
  set (rw := wrap64 (hd 0 (tail script))) in *.
  pose proof (wrap64_range (hd 0 (tail script))) as Hr. fold rw in Hr.
  assert (Hw : wrap64 (Z.shiftl ps 1) = 2 * ps).
  { rewrite Z.shiftl_mul_pow2 by lia. unfold wrap64.
    rewrite Z.mod_small by lia. lia. }
  assert (He : wrap64 (rw + ps - 1) = rw + ps - 1).
  { unfold wrap64. apply Z.mod_small. lia. }
  assert (Hu : wrap64 (rw + ps) = rw + ps).
  { unfold wrap64. apply Z.mod_small. lia. }
  rewrite He, Hu. repeat split.
  - intros x Hx. cbn [mapped]. rewrite Hrw, Hw. cbn [negb andb].
    destruct (Z.leb_spec rw x); [|lia].
    destruct (Z.ltb_spec x (rw + 2 * ps)); [|lia]. cbn [andb].
    destruct (Z.leb_spec (rw + ps) x); [lia|]. reflexivity.
  - intros x Hx. cbn [mapped].
    destruct (Z.leb_spec (rw + ps) x); [|lia].
    destruct (Z.ltb_spec x (rw + ps + ps)); [|lia]. reflexivity.
Qed.

Lemma a_hole_follows_witness :
  ∃ st', setup small_pages (boot [40960; 81920]) = Some (true, st') ∧
         bad_end_addr (layout_of small_pages st') = 86015 ∧
         mapped (events st') 86015 None = Some PROT_READ ∧
         unmapped_addr (layout_of small_pages st') = 86016 ∧
         mapped (events st') 86016 None = None.
Proof.
  eexists. split; [reflexivity|].
  match goal with
  | |- context [layout_of _ ?st] =>
      destruct (a_hole_follows_the_second_page small_pages [40960; 81920] st)
        as (_ & He & Hu & Hin & Hout);
        [reflexivity|reflexivity|reflexivity|]
  end.
  split; [exact He|].
  split; [apply Hin; vm_compute; split; discriminate|].
  split; [exact Hu|].
  apply Hout. vm_compute. split; [discriminate|reflexivity].
Defined.

(** ** Runs of the child *)

Lemma trial_leaves pe ce bad_syscall addr code :
  stress_do_syscall pe ce bad_syscall addr = Leaves code →
  code = EXIT_NO_RESOURCE ∧ keep_stressing pe = true ∧ fork_ret pe < 0.
Proof.
  unfold stress_do_syscall.
  destruct (keep_stressing pe); cbn [negb]; [|discriminate].
  destruct (Z.ltb_spec (fork_ret pe) 0); [|discriminate].
  intros [= <-]. auto.
Qed.

Lemma trial_returns pe ce bad_syscall addr rc c :
  stress_do_syscall pe ce bad_syscall addr = Returns rc c →
  c = keep_stressing pe ∧ ¬ (keep_stressing pe = true ∧ fork_ret pe < 0).
Proof.
  unfold stress_do_syscall.
  destruct (keep_stressing pe); cbn [negb].
  - destruct (Z.ltb_spec (fork_ret pe) 0); [discriminate|].
    intros [= _ <-]. split; [reflexivity|]. lia.
  - intros [= _ <-]. split; [reflexivity|]. intros [? _]. discriminate.
Qed.

Lemma tally_add cw n : ∀ a m,
  tally cw a (n + m) = tally cw a n + tally cw (a + n) m.
Proof.
  induction n as [|n IH]; intros a m; cbn [tally Nat.add].
  - rewrite Nat.add_0_r. lia.
  - rewrite IH. replace (a + S n)%nat with (S a + n)%nat by lia. lia.
Qed.

Section Child.
Variables (cw : child_world) (l : layout).

(** *** When every trial forks *)

Section Calm.
Hypothesis calm : ∀ k, ¬ fork_fails cw k.

Lemma run_trial_calm i j bad_syscall bad_addr pr :
  let pr' := run_trial cw l i j bad_syscall bad_addr pr in
  left_with pr' = None ∧
  calls pr' = calls pr ++ [(i, j)] ∧
  counted pr' = counted pr + tally cw (length (calls pr)) 1.
Proof.
  cbv zeta. unfold run_trial. cbn [tally].
  destruct (stress_do_syscall _ _ _ _) as [rc c|code] eqn:E.
  - apply trial_returns in E as [-> _]. cbn [left_with calls counted].
    repeat split. destruct (keep_stressing _); lia.
  - apply trial_leaves in E as (_ & Hk & Hf).
    destruct (calm (length (calls pr))). split; assumption.
Qed.

Lemma addr_loop_calm i bad_syscall addrs : ∀ j pr,
  left_with pr = None →
  let pr' := addr_loop cw l i bad_syscall j addrs pr in
  left_with pr' = None ∧
  calls pr' = calls pr ++ map (pair i) (seq j (length addrs)) ∧
  counted pr' = counted pr + tally cw (length (calls pr)) (length addrs).
Proof.
  induction addrs as [|bad_addr rest IH]; intros j pr Hl; cbv zeta.
  - cbn. rewrite app_nil_r. repeat split; [assumption|lia].
  - cbn [addr_loop].
    destruct (run_trial_calm i j bad_syscall bad_addr pr) as (Hl1 & Hc1 & Hn1).
    rewrite Hl1.
    destruct (IH (S j) _ Hl1) as (Hl2 & Hc2 & Hn2).
    split; [exact Hl2|]. split.
    + rewrite Hc2, Hc1, <- app_assoc. reflexivity.
    + rewrite Hn2, Hn1, Hc1, length_app, Nat.add_comm.
      change (length (bad_addr :: rest)) with (1 + length rest)%nat.
      rewrite tally_add. cbn [length]. rewrite Nat.add_comm. lia.
Qed.

Lemma sys_loop_calm ops : ∀ i pr,
  left_with pr = None →
  let pr' := sys_loop cw l i ops pr in
  left_with pr' = None ∧
  calls pr' = calls pr ++
    flat_map (λ i, map (pair i) (seq 0 (length bad_addrs)))
      (seq i (length ops)) ∧
  counted pr' = counted pr
    + tally cw (length (calls pr)) (length ops * length bad_addrs).
Proof.
  induction ops as [|bad_syscall rest IH]; intros i pr Hl; cbv zeta.
  - cbn [sys_loop length seq flat_map Nat.mul tally].
    rewrite app_nil_r. repeat split; [assumption|lia].
  - cbn [sys_loop].
    destruct (addr_loop_calm i bad_syscall bad_addrs 0 pr Hl)
      as (Hl1 & Hc1 & Hn1).
    rewrite Hl1.
    destruct (IH (S i) _ Hl1) as (Hl2 & Hc2 & Hn2).
    split; [exact Hl2|]. split.
    + rewrite Hc2, Hc1, <- app_assoc. reflexivity.
    + rewrite Hn2, Hn1, Hc1, length_app, length_map, length_seq.
      change (length (bad_syscall :: rest) * length bad_addrs)%nat
        with (length bad_addrs + length rest * length bad_addrs)%nat.
      rewrite tally_add. lia.
Qed.

Lemma table_length ops :
  length (table ops) = (length ops * length bad_addrs)%nat.
Proof.
  unfold table.
  assert (H : ∀ n m i,
    length (flat_map (λ i, map (pair i) (seq 0 n)) (seq i m)) = (m * n)%nat).
  { intros n m. induction m as [|m IH]; intros i; [reflexivity|].
    cbn [seq flat_map]. rewrite length_app, length_map, length_seq, IH.
    reflexivity. }
  apply H.
Qed.

Lemma rounds_calm ops m : ∀ fuel asked pr,
  left_with pr = None →
  (∀ k, (asked ≤ k < asked + m)%nat → keeps cw k = true) →
  keeps cw (asked + m) = false →
  (m < fuel)%nat →
  ∃ pr', rounds fuel cw l ops asked pr = Some pr' ∧
    left_with pr' = Some EXIT_SUCCESS ∧
    calls pr' = calls pr ++ concat (replicate (S m) (table ops)) ∧
    counted pr' = counted pr
      + tally cw (length (calls pr)) (S m * length (table ops)).
Proof.
  induction m as [|m IH]; intros fuel asked pr Hl Hk Hstop Hfuel;
    (destruct fuel as [|fuel]; [lia|]); cbn [rounds];
    destruct (sys_loop_calm ops 0 pr Hl) as (Hl1 & Hc1 & Hn1);
    fold (table ops) in Hc1; rewrite <- table_length in Hn1;
    rewrite Hl1.
  - rewrite Nat.add_0_r in Hstop. rewrite Hstop.
    eexists. split; [reflexivity|]. cbn [left_with calls counted].
    split; [reflexivity|]. split.
    + rewrite Hc1. cbn [replicate concat]. rewrite app_nil_r. reflexivity.
    + rewrite Hn1. f_equal. f_equal. lia.
  - rewrite (Hk asked) by lia.
    destruct (IH fuel (S asked) _ Hl1) as (pr' & E & Hl2 & Hc2 & Hn2).
    + intros k Hk'. apply Hk. lia.
    + replace (S asked + m)%nat with (asked + S m)%nat by lia. exact Hstop.
    + lia.
    + exists pr'. split; [exact E|]. split; [exact Hl2|]. split.
      * rewrite Hc2, Hc1, <- app_assoc. reflexivity.
      * rewrite Hn2, Hn1, Hc1, length_app.
        change (S (S m) * length (table ops))%nat
          with (length (table ops) + S m * length (table ops))%nat.
        rewrite tally_add. lia.
Qed.

End Calm.

(** *** When a trial cannot fork *)

Lemma run_trial_starved i j bad_syscall bad_addr pr :
  left_with pr = None → starved cw pr →
  starved cw (run_trial cw l i j bad_syscall bad_addr pr).
Proof.
  unfold starved, forks_upto. intros -> Hpr. unfold run_trial.
  destruct (stress_do_syscall _ _ _ _) as [rc c|code] eqn:E;
    cbn [left_with calls]; rewrite length_app, Nat.add_comm; cbn [length Nat.add].
  - apply trial_returns in E as [_ Hno].
    intros k Hk. destruct (Nat.eq_dec k (length (calls pr))) as [->|Hne].
    + exact Hno.
    + apply Hpr. lia.
  - apply trial_leaves in E as (-> & Hk & Hf). left.
    split; [reflexivity|]. exists (length (calls pr)).
    split; [reflexivity|]. split; [split; assumption|exact Hpr].
Qed.

Lemma addr_loop_starved i bad_syscall addrs : ∀ j pr,
  left_with pr = None → starved cw pr →
  starved cw (addr_loop cw l i bad_syscall j addrs pr).
Proof.
  induction addrs as [|bad_addr rest IH]; intros j pr Hl Hpr; [exact Hpr|].
  cbn [addr_loop].
  pose proof (run_trial_starved i j bad_syscall bad_addr pr Hl Hpr) as H1.
  destruct (left_with (run_trial cw l i j bad_syscall bad_addr pr)) eqn:E.
  - exact H1.
  - apply IH; assumption.
Qed.

Lemma sys_loop_starved ops : ∀ i pr,
  left_with pr = None → starved cw pr →
  starved cw (sys_loop cw l i ops pr).
Proof.
  induction ops as [|bad_syscall rest IH]; intros i pr Hl Hpr; [exact Hpr|].
  cbn [sys_loop].
  pose proof (addr_loop_starved i bad_syscall bad_addrs 0 pr Hl Hpr) as H1.
  destruct (left_with (addr_loop cw l i bad_syscall 0 bad_addrs pr)) eqn:E.
  - exact H1.
  - apply IH; assumption.
Qed.

Lemma rounds_starved ops fuel : ∀ asked pr pr',
  left_with pr = None → starved cw pr →
  rounds fuel cw l ops asked pr = Some pr' →
  starved cw pr' ∧ left_with pr' ≠ None.
Proof.
  induction fuel as [|fuel IH]; intros asked pr pr' Hl Hpr E; [discriminate|].
  cbn [rounds] in E.
  pose proof (sys_loop_starved ops 0 pr Hl Hpr) as H1.
  destruct (left_with (sys_loop cw l 0 ops pr)) as [code|] eqn:El.
  - injection E as <-. rewrite El. split; [exact H1|discriminate].
  - destruct (keeps cw asked).
    + eapply IH; eassumption.
    + injection E as <-. unfold starved, forks_upto in *. rewrite El in H1.
      cbn [left_with calls]. split; [|discriminate]. right. auto.
Qed.

End Child.

(** X20.  A child none of whose trials fails to fork, and that is told to
    go on [n] times after its first round, ends (given fuel for [n + 1]
    rounds) with status [EXIT_SUCCESS], having made [n + 1] rounds: in each
    it has called [stress_do_syscall] once for every operation of the table
    with every address of [bad_addrs], operation by operation, never
    stopping inside a round; of these calls it has counted those made while
    the run was to go on. *)
Theorem child_runs_the_whole_table_each_round (fuel : nat) (cw : child_world)
    (l : layout) (ops : list bad_syscall_t) (n : nat) :
  keeps cw 0 = true →
  (∀ k, (1 ≤ k ≤ n)%nat → keeps cw k = true) →
  keeps cw (S n) = false →
  (∀ k, ¬ fork_fails cw k) →
  (n < fuel)%nat →
  ∃ pr, stressor_child fuel cw l ops = Some pr ∧
    left_with pr = Some EXIT_SUCCESS ∧
    calls pr = concat (replicate (S n) (table ops)) ∧
    length (calls pr) = (S n * (length ops * length bad_addrs))%nat ∧
    counted pr = tally cw 0 (length (calls pr)).
Proof.
  intros H0 Hk Hstop Hcalm Hfuel. unfold stressor_child.
  rewrite H0. cbn [negb].
  destruct (rounds_calm cw l Hcalm ops n fuel 1 (mk_progress [] 0 None))
    as (pr & E & Hl & Hc & Hn); [reflexivity| |exact Hstop|exact Hfuel|].
  { intros k Hk'. apply Hk. lia. }
  cbn [calls counted app length] in Hc, Hn.
  exists pr. split; [exact E|]. split; [exact Hl|]. split; [exact Hc|].
  assert (Hlen : length (calls pr) = (S n * length (table ops))%nat).
  { rewrite Hc. generalize (S n). intros m.
    induction m as [|m IH]; [reflexivity|].
    cbn [replicate concat]. rewrite length_app, IH. reflexivity. }
  split; [rewrite Hlen, table_length; reflexivity|].
  rewrite Hn, Hlen. lia.
Qed.

Lemma child_runs_the_whole_table_witness :
  ∃ pr, stressor_child 5 (calm_world 2) (mk_layout 4096 40960 81920 0 0)
          bad_syscalls = Some pr ∧
        length (calls pr) = 70%nat ∧ counted pr = 70.
Proof.
  destruct (child_runs_the_whole_table_each_round 5 (calm_world 2)
              (mk_layout 4096 40960 81920 0 0) bad_syscalls 1)
    as (pr & E & _ & _ & Hlen & Hn).
  - reflexivity.
  - intros k Hk. assert (k = 1%nat) as -> by lia. reflexivity.
  - reflexivity.
  - intros k [_ H]. cbn in H. lia.
  - lia.
  - exists pr. split; [exact E|]. split; [exact Hlen|].
    rewrite Hn, Hlen. reflexivity.
Defined.

(** X21.  A child that ends has left with [EXIT_NO_RESOURCE] or with
    [EXIT_SUCCESS]: with the first when the [fork] of a trial failed while
    the run was to go on, and then that trial is the last call it made and
    the first whose [fork] failed; with the second when no [fork] of the
    trials it made failed. *)
Theorem child_leaves_at_the_first_failed_fork (fuel : nat)
    (cw : child_world) (l : layout) (ops : list bad_syscall_t)
    (pr : progress) :
  stressor_child fuel cw l ops = Some pr →
  (left_with pr = Some EXIT_NO_RESOURCE ∧
   ∃ k, length (calls pr) = S k ∧ fork_fails cw k ∧
        ∀ k', (k' < k)%nat → ¬ fork_fails cw k')
  ∨ (left_with pr = Some EXIT_SUCCESS ∧
     ∀ k, (k < length (calls pr))%nat → ¬ fork_fails cw k).
Proof.
  unfold stressor_child. destruct (keeps cw 0); cbn [negb].
  - intros E.
    destruct (rounds_starved cw l ops fuel 1 (mk_progress [] 0 None) pr)
      as [Hs Hl]; [reflexivity| |exact E|].
    { intros k Hk. cbn in Hk. lia. }
    unfold starved, forks_upto in Hs.
    destruct (left_with pr) as [code|]; [|contradiction].
    destruct Hs as [(-> & Hk)|(-> & Hk)]; [left|right]; auto.
  - intros [= <-]. right. split; [reflexivity|].
    intros k Hk. cbn in Hk. lia.
Qed.

Lemma child_leaves_at_the_first_failed_fork_witness :
  ∃ pr, stressor_child 5 (starved_world 9) (mk_layout 4096 40960 81920 0 0)
          bad_syscalls = Some pr ∧
        left_with pr = Some EXIT_NO_RESOURCE ∧
        length (calls pr) = 10%nat ∧
        last (calls pr) = Some (1%nat, 2%nat).
Proof.
  eexists. split; [vm_compute; reflexivity|].
  match goal with
  | |- left_with ?pr = _ ∧ _ =>
      destruct (child_leaves_at_the_first_failed_fork 5 (starved_world 9)
                  (mk_layout 4096 40960 81920 0 0) bad_syscalls pr)
        as [(Hl & _)|(Hl & _)]; [vm_compute; reflexivity| |discriminate Hl]
  end.
  split; [exact Hl|]. split; reflexivity.
Defined.

End SysBadAddrProps.

Module SysFsFacts.
Import SysFs.

(** ** Rules for [keeps] *)

Section Keeps.
Variable I : world → Prop.

(** The property does not look at the clock, the hash seed, the counter
    or the drain flag. *)
Hypothesis I_clock : ∀ w v, I w → I (with_clock v w).
Hypothesis I_mixup : ∀ w v, I w → I (with_mixup v w).
Hypothesis I_counter : ∀ w v, I w → I (with_counter v w).
Hypothesis I_drain : ∀ w v, I w → I (with_drain_kmsg v w).

Lemma keeps_ret {A} (a : A) : keeps I (ret a).
Proof. intros e w H. exact H. Qed.

Lemma keeps_bind {A B} (m : M A) (k : A → M B) :
  keeps I m → (∀ a, keeps I (k a)) → keeps I (bind m k).
Proof.
  intros Hm Hk e w H. unfold bind. specialize (Hm e w H).
  destruct (m e w) as [a w'|c w']; [|exact Hm].
  apply Hk. exact Hm.
Qed.

Lemma keeps_get {A} (f : world → A) : keeps I (get f).
Proof. intros e w H. exact H. Qed.

Lemma keeps_modify (f : world → world) :
  (∀ w, I w → I (f w)) → keeps I (modify f).
Proof. intros Hf e w H. apply Hf, H. Qed.

Lemma keeps_out_of_fuel {A} : keeps I (@out_of_fuel A).
Proof. intros e w H. exact H. Qed.

Lemma keeps_tick : keeps I tick.
Proof.
  intros e w H. unfold tick.
  destruct (fault e (clock w)); [|apply I_clock, H].
  destruct (handler w); [|exact H]. exists w. auto.
Qed.

Lemma keeps_env {A} (f : env → A) : keeps I (λ e w, Done (f e) w).
Proof. intros e w H. exact H. Qed.

Lemma keeps_ask : keeps I ask.
Proof. apply keeps_bind; [apply keeps_tick|]. intros t e w H. exact H. Qed.

Lemma keeps_ask_flag : keeps I ask_flag.
Proof. apply keeps_bind; [apply keeps_ask|]. intros r. apply keeps_ret. Qed.

Lemma keeps_mwc32 : keeps I mwc32.
Proof. apply keeps_bind; [apply keeps_ask|]. intros r. apply keeps_ret. Qed.

Lemma keeps_inc_counter : keeps I inc_counter.
Proof. apply keeps_modify. intros w H. apply I_counter, H. Qed.

Lemma keeps_stat path : keeps I (stat path).
Proof. apply keeps_bind; [apply keeps_ask|]. intros r. apply keeps_ret. Qed.

Lemma keeps_emit ev :
  (∀ w, I w → I (log ev w)) → keeps I (emit ev).
Proof. intros H. apply keeps_modify, H. Qed.

(** Nor at whether the handler is installed; it survives every event
    that is [plain], and a store to the cursor. *)
Hypothesis I_handler : ∀ w v, I w → I (with_handler v w).
Hypothesis I_plain : ∀ ev w, plain ev = true → I w → I (log ev w).
Hypothesis I_assign : ∀ d path w,
  I w → I (log (EvPublish path)
             (with_sysfs_path (Some (mk_pointer d path)) w)).

(** It survives the start of the readers the run is allowed to
    start. *)
Variable allowed : ctxt_t → Prop.
Hypothesis I_create : ∀ i ctxt w,
  allowed ctxt → I w → I (log (EvThreadCreate i ctxt) w).

Ltac kstep :=
  first
    [ apply keeps_ret | apply keeps_get | apply keeps_out_of_fuel
    | apply keeps_tick | apply keeps_ask | apply keeps_ask_flag
    | apply keeps_mwc32 | apply keeps_inc_counter | apply keeps_stat
    | apply keeps_env
    | apply keeps_bind; [|intros ?]
    | apply keeps_emit; intros; apply I_plain; [reflexivity|assumption]
    | apply keeps_modify; intros;
      first [apply I_drain|apply I_mixup|apply I_handler|apply I_assign];
      assumption
    | match goal with
      | |- keeps _ (if ?b then _ else _) => destruct b
      | |- keeps _ (match ?x with _ => _ end) => destruct x
      end ].

Ltac unfold_calls :=
  unfold g_keep_stressing_flag, keep_stressing, time_is_up,
    shim_pthread_spin_lock, shim_pthread_spin_unlock, shim_usleep,
    open, close, read, read_bad, write, scandir, to_drain,
    assign_sysfs_path.

Lemma keeps_kmsg_loop fuel : ∀ fd count, keeps I (kmsg_loop fuel fd count).
Proof.
  induction fuel as [|fuel IH]; intros fd count; cbn [kmsg_loop].
  - kstep.
  - unfold_calls. repeat kstep. apply IH.
Qed.

Lemma keeps_kmsg_drain fuel fd : keeps I (stress_kmsg_drain fuel fd).
Proof.
  unfold stress_kmsg_drain. kstep; [kstep|].
  kstep; [apply keeps_kmsg_loop|kstep].
Qed.










Lemma keeps_publish tmp : keeps I (publish tmp).
Proof. unfold publish. unfold_calls. repeat kstep. Qed.

Lemma keeps_dir_loop descend path recurse l :
  (∀ tmp, keeps I (descend tmp)) →
  keeps I (dir_loop descend path recurse l).
Proof.
  intros Hd. induction l as [|d rest IHl]; cbn [dir_loop].
  - kstep.
  - unfold_calls.
    repeat first [apply IHl | apply Hd | apply keeps_publish | kstep].
Qed.

Lemma keeps_stress_sys_dir fuel : ∀ ctxt path recurse depth,
  keeps I (stress_sys_dir fuel ctxt path recurse depth).
Proof.
  induction fuel as [|fuel IH]; intros ctxt path recurse depth;
    cbn [stress_sys_dir].
  - kstep.
  - unfold_calls.
    repeat first [apply keeps_dir_loop; intros; apply IH | kstep].
Qed.

Lemma keeps_walk fuel : ∀ ctxt, keeps I (walk fuel ctxt).
Proof.
  induction fuel as [|fuel IH]; intros ctxt; cbn [walk].
  - kstep.
  - unfold_calls.
    repeat first [apply keeps_stress_sys_dir | apply IH | kstep].
Qed.

Lemma keeps_create_threads n : ∀ i ctxt,
  allowed ctxt → keeps I (create_threads n i ctxt).
Proof.
  induction n as [|n IH]; intros i ctxt Ha; cbn [create_threads].
  - kstep.
  - kstep; [kstep|]. kstep.
    + apply keeps_emit. intros w H. apply I_create; assumption.
    + kstep; [apply IH, Ha|kstep].
Qed.

Lemma keeps_for_threads ev rets : ∀ i,
  (∀ i, plain (ev i) = true) → keeps I (for_threads ev i rets).
Proof.
  induction rets as [|r rets IH]; intros i Hev; cbn [for_threads].
  - kstep.
  - apply keeps_bind; [|intros _; apply IH, Hev].
    destruct (r =? 0); [|apply keeps_ret].
    apply keeps_emit. intros w H. apply I_plain; auto.
Qed.

Lemma keeps_stress_sysfs_with fuel euid :
  (∀ buf fd, allowed (mk_ctxt buf (negb (euid =? 0)) fd)) →
  keeps I (stress_sysfs_with fuel euid).
Proof.
  intros Ha. unfold stress_sysfs_with. unfold_calls.
  repeat first [ apply keeps_kmsg_drain | apply keeps_create_threads, Ha
               | apply keeps_walk
               | apply keeps_for_threads; intros; reflexivity | kstep ].
Qed.

End Keeps.

(** ** The readers write only when [writeable] is set *)




Lemma plain_parts ev :
  plain ev = true →
  is_write ev = false ∧ is_publish ev = false ∧ is_segv ev = false
  ∧ is_create ev = false.
Proof.
  unfold plain.
  destruct (is_write ev), (is_publish ev), (is_segv ev), (is_create ev);
    cbn; intros H; try discriminate; auto.
Qed.




(** *** The readers are started with [writeable = (geteuid() != 0)] *)




(** *** What every reader keeps, root or not *)

Section Readers.
Variable I : world → Prop.
Hypothesis I_clock : ∀ w v, I w → I (with_clock v w).
Hypothesis I_drain : ∀ w v, I w → I (with_drain_kmsg v w).
Hypothesis I_log : ∀ ev w, is_segv ev = false → I w → I (log ev w).










End Readers.

(** *** The two parts of a pass *)

Lemma bind_assoc_at {A B C} (m : M A) (k : A → M B) (h : B → M C) e w :
  bind (bind m k) h e w = bind m (λ a, bind (k a) h) e w.
Proof. unfold bind. destruct (m e w); reflexivity. Qed.

Lemma bind_step {A B} (m : M A) (k k' : A → M B) e w :
  (∀ a w', k a e w' = k' a e w') → bind m k e w = bind m k' e w.
Proof. intros H. unfold bind. destruct (m e w); [apply H|reflexivity]. Qed.

Ltac stage :=
  cbv beta zeta;
  lazymatch goal with
  | |- _ = bind (bind ?m ?k) ?h ?e ?w =>
      transitivity (bind m (λ a, bind (k a) h) e w);
      [apply bind_step; intros ? ?|symmetry; apply bind_assoc_at]
  | |- _ = bind (if ?b then _ else _) _ _ _ => destruct b
  | |- _ = bind (match ?l with Fall => _ | _ => _ end) _ _ _ => destruct l
  | |- _ = bind (ret _) _ _ _ => reflexivity
  end.






Section Rest.
Variable I : world → Prop.
Hypothesis I_clock : ∀ w v, I w → I (with_clock v w).
Hypothesis I_drain : ∀ w v, I w → I (with_drain_kmsg v w).
Hypothesis I_log : ∀ ev w, is_segv ev = false → I w → I (log ev w).

End Rest.









(** ** Recovery from a segmentation fault *)

Lemma last_published_snoc tr ev :
  last_published (tr ++ [ev])
  = match ev with
    | EvPublish path => Some path
    | _ => last_published tr
    end.
Proof.
  induction tr as [|x tr IH]; cbn [app last_published].
  - destruct ev; reflexivity.
  - rewrite IH. destruct x; try reflexivity.
    destruct ev; try reflexivity.
Qed.

Lemma segv_free_snoc tr ev :
  segv_free tr → is_segv ev = false → segv_free (tr ++ [ev]).
Proof.
  unfold segv_free. intros H E. rewrite forallb_app, H. cbn. rewrite E.
  reflexivity.
Qed.


Lemma publish_snoc tr ev :
  List.filter is_publish (tr ++ [ev])
  = List.filter is_publish tr ++ (if is_publish ev then [ev] else []).
Proof. rewrite List.filter_app. cbn. destruct (is_publish ev); reflexivity. Qed.

Lemma cursor_sound_log ev w :
  is_publish ev = false → is_segv ev = false →
  cursor_sound w → cursor_sound (log ev w).
Proof.
  intros Hq Hs (H1 & H2 & H3 & H4 & H5).
  assert (Hf : List.filter is_publish (trace (log ev w))
               = List.filter is_publish (trace w)).
  { cbn [log trace]. rewrite publish_snoc, Hq, app_nil_r. reflexivity. }
  split; [|split; [|split; [|split]]].
  - cbn. rewrite last_published_snoc, H1. destruct ev; try reflexivity.
    discriminate.
  - apply segv_free_snoc; assumption.
  - exact H3.
  - rewrite Hf. exact H4.
  - rewrite Hf. exact H5.
Qed.

Lemma cursor_sound_plain ev w :
  plain ev = true → cursor_sound w → cursor_sound (log ev w).
Proof.
  intros Hp. destruct (plain_parts ev Hp) as (_ & Hq & Hs & _).
  now apply cursor_sound_log.
Qed.

Lemma cursor_sound_assign d path w :
  cursor_sound w →
  cursor_sound (log (EvPublish path)
                  (with_sysfs_path (Some (mk_pointer d path)) w)).
Proof.
  intros (H1 & H2 & H3 & H4 & H5).
  assert (Hf : List.filter is_publish
                 (trace (log (EvPublish path)
                           (with_sysfs_path (Some (mk_pointer d path)) w)))
               = List.filter is_publish (trace w) ++ [EvPublish path]).
  { cbn [log trace with_sysfs_path]. rewrite publish_snoc. reflexivity. }
  split; [|split; [|split; [|split]]].
  - cbn. rewrite last_published_snoc. reflexivity.
  - apply segv_free_snoc; [exact H2|reflexivity].
  - discriminate.
  - rewrite Hf. intros E. apply app_eq_nil in E as [_ E]. discriminate.
  - rewrite Hf. intros E. exfalso.
    destruct (List.filter is_publish (trace w)) as [|x [|y l]];
      [contradiction|discriminate|discriminate].
Qed.

Lemma cursor_sound_handler w :
  cursor_sound w →
  sysfs_path (stress_segv_handler w) = sysfs_path w ∧
  clock (stress_segv_handler w) = clock w ∧
  trace (stress_segv_handler w) = trace w ++ [EvSegv] ∧
  segv_abort (stress_segv_handler w) = true.
Proof. intros _. repeat split. Qed.

Lemma keeps_cursor_sound fuel : keeps cursor_sound (stress_sysfs_run fuel).
Proof.
  unfold stress_sysfs_run.
  apply keeps_bind; [apply keeps_ask; intros ? ? H; exact H|]. intros euid.
  apply (keeps_stress_sysfs_with cursor_sound) with (allowed := λ _, True);
    try (intros ? ? H; exact H); auto.
  - apply cursor_sound_plain.
  - apply cursor_sound_assign.
  - intros i c w _ H. apply cursor_sound_log; [reflexivity|reflexivity|exact H].
Qed.

(** How the body of [stress_sysfs] can end. *)
Lemma body_cases fuel e :
  match stress_sysfs_body fuel e boot with
  | Cut Jumped w' => ∃ w0, cursor_sound w0 ∧ w' = stress_segv_handler w0
  | r => segv_free (trace (world_of r))
  end.
Proof.
  unfold stress_sysfs_body, bind at 1, ask, bind at 1, tick.
  cbn [boot clock handler].
  destruct (fault e 0); [reflexivity|].
  destruct (answer e 0 <? 0); [reflexivity|].
  unfold bind at 1, modify at 1, bind at 1, assign_sysfs_path, modify at 1.
  match goal with |- context [stress_sysfs_run fuel e ?w] =>
    set (w1 := w); assert (H1 : cursor_sound w1)
  end.
  { split; [reflexivity|]. split; [reflexivity|].
    split; [discriminate|]. split; [discriminate|]. intros _. reflexivity. }
  pose proof (keeps_cursor_sound fuel e w1 H1) as Hk.
  destruct (stress_sysfs_run fuel e w1) as [a w'|[] w']; cbn; apply Hk.
Qed.

(** ** A fault in a reader *)





(** ** The walk is bounded in depth *)

Lemma finishes_ret {A} (a : A) : finishes (ret a).
Proof. intros e w w'. discriminate. Qed.

Lemma finishes_bind {A B} (m : M A) (k : A → M B) :
  finishes m → (∀ a, finishes (k a)) → finishes (bind m k).
Proof.
  intros Hm Hk e w w'. unfold bind. specialize (Hm e w).
  destruct (m e w) as [a w1|c w1]; [apply Hk|].
  intros [= -> ->]. now apply (Hm w').
Qed.

Lemma finishes_get {A} (f : world → A) : finishes (get f).
Proof. intros e w w'. discriminate. Qed.

Lemma finishes_modify f : finishes (modify f).
Proof. intros e w w'. discriminate. Qed.

Lemma finishes_tick : finishes tick.
Proof.
  intros e w w'. unfold tick.
  destruct (fault e (clock w)); [destruct (handler w)|]; discriminate.
Qed.

Lemma finishes_env {A} (f : env → A) : finishes (λ e w, Done (f e) w).
Proof. intros e w w'. discriminate. Qed.

Ltac fstep :=
  first
    [ apply finishes_ret | apply finishes_get | apply finishes_modify
    | apply finishes_tick | apply finishes_env
    | apply finishes_bind; [|intros ?]
    | match goal with
      | |- finishes (if ?b then _ else _) => destruct b
      | |- finishes (match ?x with _ => _ end) => destruct x
      end ].

Ltac unfold_walker :=
  unfold g_keep_stressing_flag, keep_stressing, shim_pthread_spin_lock,
    shim_pthread_spin_unlock, shim_usleep, scandir, stat, mwc32, inc_counter,
    assign_sysfs_path, ask_flag, ask, emit.

Lemma finishes_publish tmp : finishes (publish tmp).
Proof. unfold publish. unfold_walker. repeat fstep. Qed.

Lemma finishes_dir_loop descend path recurse l :
  (∀ tmp, finishes (descend tmp)) →
  finishes (dir_loop descend path recurse l).
Proof.
  intros Hd. induction l as [|d rest IHl]; cbn [dir_loop].
  - fstep.
  - unfold_walker.
    repeat first [apply IHl | apply Hd | apply finishes_publish | fstep].
Qed.

(** A call at depth [depth] needs no more than [22 - depth] levels of
    recursion, whatever the directories hold. *)
Lemma finishes_stress_sys_dir fuel : ∀ ctxt path recurse depth,
  (Z.to_nat (21 - depth) < fuel)%nat →
  finishes (stress_sys_dir fuel ctxt path recurse depth).
Proof.
  induction fuel as [|fuel IH]; intros ctxt path recurse depth Hf; [lia|].
  cbn [stress_sys_dir]. unfold_walker.
  apply finishes_bind; [fstep|]. intros _.
  apply finishes_bind; [|intros _; fstep].
  apply finishes_bind; [repeat fstep|]. intros keep.
  apply finishes_bind; [fstep|]. intros abort.
  destruct (negb keep || abort); [fstep|].
  destruct (Z.ltb_spec 20 depth) as [Hd|Hd]; [fstep|].
  apply finishes_bind; [repeat fstep|]. intros r.
  apply finishes_bind; [fstep|]. intros _.
  apply finishes_bind; [repeat fstep|]. intros dlist.
  apply finishes_dir_loop. intros tmp. apply IH. lia.
Qed.

(** *** The depth argument follows the nesting of the calls *)

Lemma nested_app base s1 : ∀ l s2,
  nested base l (s1 ++ s2)
  = match nested base l s1 with
    | Some l1 => nested base l1 s2
    | None => None
    end.
Proof.
  induction s1 as [|ev s1 IH]; intros l s2; [reflexivity|].
  cbn [app nested]. destruct ev; try apply IH.
  destruct (depth =? base + l); [apply IH|reflexivity].
Qed.

Lemma levels_ret {A} base l (a : A) : levels base l (ret a) l.
Proof.
  intros e w. exists []. split; [cbn; now rewrite app_nil_r|reflexivity].
Qed.

Lemma levels_out_of_fuel {A} base l l' : levels base l (@out_of_fuel A) l'.
Proof.
  intros e w. exists []. split; [cbn; now rewrite app_nil_r|].
  cbn. eauto.
Qed.

Lemma levels_bind {A B} base l l1 l2 (m : M A) (k : A → M B) :
  levels base l m l1 → (∀ a, levels base l1 (k a) l2) →
  levels base l (bind m k) l2.
Proof.
  intros Hm Hk e w. unfold bind.
  destruct (Hm e w) as (s1 & Ht1 & Hn1).
  destruct (m e w) as [a w1|c w1]; cbn [world_of] in Ht1.
  - destruct (Hk a e w1) as (s2 & Ht2 & Hn2).
    exists (s1 ++ s2). split.
    + rewrite Ht2, Ht1, app_assoc. reflexivity.
    + rewrite nested_app, Hn1.
      destruct (k a e w1); exact Hn2.
  - exists s1. split; [exact Ht1|exact Hn1].
Qed.

Lemma levels_get {A} base l (f : world → A) : levels base l (get f) l.
Proof.
  intros e w. exists []. split; [cbn; now rewrite app_nil_r|reflexivity].
Qed.

Lemma levels_env {A} base l (f : env → A) :
  levels base l (λ e w, Done (f e) w) l.
Proof.
  intros e w. exists []. split; [cbn; now rewrite app_nil_r|reflexivity].
Qed.

Lemma levels_modify base l l' f s :
  (∀ w, trace (f w) = trace w ++ s) → nested base l s = Some l' →
  levels base l (modify f) l'.
Proof. intros Hf Hs e w. exists s. split; [apply Hf|exact Hs]. Qed.

Lemma levels_tick base l : levels base l tick l.
Proof.
  intros e w. unfold tick.
  destruct (fault e (clock w)).
  - destruct (handler w).
    + exists [EvSegv]. split; [reflexivity|]. cbn. eauto.
    + exists []. split; [cbn; now rewrite app_nil_r|]. cbn. eauto.
  - exists []. split; [cbn; now rewrite app_nil_r|reflexivity].
Qed.

Ltac lstep :=
  first
    [ apply levels_ret | apply levels_get | apply levels_out_of_fuel
    | apply levels_tick | apply levels_env
    | eapply levels_modify; [intros; reflexivity|reflexivity]
    | eapply levels_modify with (s := []);
        [intros; cbn; now rewrite app_nil_r|reflexivity]
    | eapply levels_bind; [|intros ?]
    | match goal with
      | |- levels _ _ (if ?b then _ else _) _ => destruct b
      | |- levels _ _ (match ?x with _ => _ end) _ => destruct x
      end ].

Lemma levels_publish base l tmp : levels base l (publish tmp) l.
Proof. unfold publish. unfold_walker. repeat lstep. Qed.

Lemma levels_dir_loop base l descend path recurse dl :
  (∀ tmp, levels base l (descend tmp) l) →
  levels base l (dir_loop descend path recurse dl) l.
Proof.
  intros Hd. induction dl as [|d rest IHl]; cbn [dir_loop].
  - lstep.
  - unfold_walker.
    repeat first [apply IHl | apply Hd | apply levels_publish | lstep].
Qed.

Lemma levels_stress_sys_dir base fuel : ∀ ctxt path recurse l,
  levels base l (stress_sys_dir fuel ctxt path recurse (base + l)) l.
Proof.
  induction fuel as [|fuel IH]; intros ctxt path recurse l;
    cbn [stress_sys_dir].
  - lstep.
  - unfold_walker.
    eapply (levels_bind base l (l + 1)).
    { eapply levels_modify; [intros; reflexivity|].
      cbn. rewrite Z.eqb_refl. reflexivity. }
    intros _.
    eapply (levels_bind base (l + 1) (l + 1)).
    2:{ intros _. eapply levels_modify; [intros; reflexivity|].
        cbn. f_equal. lia. }
    repeat first
      [ apply levels_dir_loop; intros tmp;
        replace (base + l + 1) with (base + (l + 1)) by lia; apply IH
      | lstep ].
Qed.

(** C7.  The walk is bounded in depth.  A call of [stress_sys_dir] at
    depth [depth] ends within [22 - depth] levels of recursion, whatever
    the directories hold and however the run is told to go on, so a pass
    over any tree of finitely many entries per directory terminates; in
    the calls it makes, a call entered at nesting level [k] has
    [depth + k] for its depth argument (each recursive call adds exactly
    one); and a call with a depth above 20 returns at once: it reads the
    stop flag and visits nothing. *)
Theorem walk_is_depth_bounded (e : env) (ctxt : ctxt_t) (path : string)
    (recurse : bool) (depth : Z) (w : world) :
  (∀ fuel w', (Z.to_nat (21 - depth) < fuel)%nat →
     stress_sys_dir fuel ctxt path recurse depth e w ≠ Cut OutOfFuel w') ∧
  (∀ fuel, ∃ s,
     trace (world_of (stress_sys_dir fuel ctxt path recurse depth e w))
     = trace w ++ s ∧
     match stress_sys_dir fuel ctxt path recurse depth e w with
     | Done _ _ => nested depth 0 s = Some 0
     | Cut _ _ => ∃ k, nested depth 0 s = Some k
     end) ∧
  (∀ fuel, 20 < depth → fault e (clock w) = false →
     stress_sys_dir (S fuel) ctxt path recurse depth e w
     = Done tt (log EvLeave
                  (with_clock (S (clock w)) (log (EvEnter path depth) w)))).
Proof.
  split; [|split].
  - intros fuel w' Hf. now apply finishes_stress_sys_dir.
  - intros fuel.
    pose proof (levels_stress_sys_dir depth fuel ctxt path recurse 0 e w) as H.
    rewrite Z.add_0_r in H. exact H.
  - intros fuel Hd Hf. cbn [stress_sys_dir].
    unfold g_keep_stressing_flag, ask_flag, ask, emit, modify, bind, tick, get,
      ret.
    cbn [log clock handler]. rewrite Hf.
    destruct (negb (negb (answer e (clock w) =? 0)) || _); [reflexivity|].
    destruct (Z.ltb_spec 20 depth); [reflexivity|lia].
Qed.

(** In a namespace without bottom one pass from /sys reads the twenty-one
    directories at depths 0 to 20 and returns. *)
Lemma bottomless_walk_ends :
  ∃ w', stress_sys_dir 22 (mk_ctxt 0 false (-1)) "/sys" true 0
          bottomless_env boot = Done tt w' ∧
        length (filter (λ ev, is_scandir ev = true) (trace w')) = 21%nat ∧
        nested 0 0 (trace w') = Some 0.
Proof.
  destruct (stress_sys_dir 22 (mk_ctxt 0 false (-1)) "/sys" true 0
              bottomless_env boot) as [[] w'|c w'] eqn:E.
  - exists w'. split; [reflexivity|].
    assert (Hw : w' = world_of (stress_sys_dir 22 (mk_ctxt 0 false (-1)) "/sys"
                                  true 0 bottomless_env boot))
      by (rewrite E; reflexivity).
    rewrite Hw. split; vm_compute; reflexivity.
  - exfalso. revert E. vm_compute. discriminate.
Qed.

End SysFsFacts.

Module SysFsProps.
Import SysFs.

(** ** The comparison [mixup_sort] *)

Lemma wrap32_range z : 0 ≤ wrap32 z < 2 ^ 32.
Proof. unfold wrap32. apply Z.mod_pos_bound. lia. Qed.

Lemma strlen_String c s :
  Ascii.eqb c NUL = false → strlen (String c s) = 1 + strlen s.
Proof.
  intros E. unfold strlen. cbn [cstr]. rewrite E. cbn [String.length]. lia.
Qed.

(** The sum is the seed shifted out by the length of the name, plus the
    weight of the characters, in 32 bits. *)
Lemma path_sum_loop_closed path : ∀ sum,
  wrap32 (path_sum_loop sum path)
  = wrap32 (sum * 2 ^ strlen path + weight path).
Proof.
  induction path as [|c rest IH]; intros sum.
  - unfold strlen. cbn [path_sum_loop weight cstr String.length].
    change (Z.of_nat 0) with 0.
    rewrite Z.pow_0_r, Z.mul_1_r, Z.add_0_r. reflexivity.
  - cbn [path_sum_loop weight].
    destruct (Ascii.eqb c NUL) eqn:E.
    + unfold strlen. cbn [cstr]. rewrite E. cbn [String.length].
      change (Z.of_nat 0) with 0.
      rewrite Z.pow_0_r, Z.mul_1_r, Z.add_0_r. reflexivity.
    + rewrite IH, (strlen_String _ _ E).
      pose proof (strlen_nonneg rest) as Hn.
      rewrite Z.pow_add_r by lia.
      unfold wrap32. rewrite Z.shiftl_mul_pow2 by lia.
      rewrite Z.add_mod_idemp_l by lia.
      rewrite <- (Z.add_mod_idemp_l (_ * 2 ^ strlen rest)) by lia.
      rewrite Z.mul_mod_idemp_l by lia.
      rewrite Z.add_mod_idemp_l by lia.
      f_equal. ring.
Qed.

Lemma path_sum_loop_wrapped path sum :
  0 < strlen path → wrap32 (path_sum_loop sum path) = path_sum_loop sum path.
Proof.
  revert sum. induction path as [|c rest IH]; intros sum Hlen.
  - unfold strlen in Hlen. cbn [cstr String.length] in Hlen. lia.
  - cbn [path_sum_loop]. destruct (Ascii.eqb c NUL) eqn:E.
    + unfold strlen in Hlen. cbn [cstr] in Hlen. rewrite E in Hlen.
      cbn [String.length] in Hlen. lia.
    + destruct rest as [|d rest'].
      * cbn. unfold wrap32. apply Z.mod_mod. lia.
      * destruct (Ascii.eqb d NUL) eqn:E'.
        -- cbn [path_sum_loop]. rewrite E'. unfold wrap32.
           apply Z.mod_mod. lia.
        -- apply IH. rewrite (strlen_String _ _ E').
           pose proof (strlen_nonneg rest'). lia.
Qed.

Lemma strlen_app_clean p s :
  cstr p = p → strlen (p ++ s) = strlen p + strlen s.
Proof.
  induction p as [|c p IH]; intros Hp.
  - change (EmptyString ++ s)%string with s. unfold strlen at 2.
    cbn [cstr String.length]. lia.
  - cbn [cstr] in Hp. destruct (Ascii.eqb c NUL) eqn:E; [discriminate|].
    injection Hp as Hp.
    change (String c p ++ s)%string with (String c (p ++ s)%string).
    rewrite !(strlen_String _ _ E), IH by exact Hp. lia.
Qed.

Lemma weight_app_clean p s :
  cstr p = p → weight (p ++ s) = weight p * 2 ^ strlen s + weight s.
Proof.
  induction p as [|c p IH]; intros Hp.
  - change (EmptyString ++ s)%string with s. cbn [weight]. lia.
  - cbn [cstr] in Hp. destruct (Ascii.eqb c NUL) eqn:E; [discriminate|].
    injection Hp as Hp.
    change (String c p ++ s)%string with (String c (p ++ s)%string).
    cbn [weight]. rewrite E, IH, strlen_app_clean by exact Hp.
    pose proof (strlen_nonneg p). pose proof (strlen_nonneg s).
    rewrite Z.pow_add_r by lia. ring.
Qed.

Lemma pow2_32_divides n x : 32 ≤ n → wrap32 (x * 2 ^ n) = 0.
Proof.
  intros Hn. unfold wrap32.
  replace n with (32 + (n - 32)) by lia.
  rewrite Z.pow_add_r by lia.
  replace (x * (2 ^ 32 * 2 ^ (n - 32))) with (x * 2 ^ (n - 32) * 2 ^ 32) by ring.
  apply Z.mod_mul. lia.
Qed.

(** X1.  [mixup_sort] is a comparison fit for sorting: it answers -1, 0 or
    1; swapping the arguments negates the answer; "not after" is
    transitive; and it answers 0 exactly when the two names have the same
    [path_sum], whatever the types of the entries. *)
Theorem mixup_sort_is_a_total_preorder (mixup : Z) (a b c : dirent) :
  (mixup_sort mixup a b = -1 ∨ mixup_sort mixup a b = 0
   ∨ mixup_sort mixup a b = 1) ∧
  mixup_sort mixup b a = - mixup_sort mixup a b ∧
  (mixup_sort mixup a b ≤ 0 → mixup_sort mixup b c ≤ 0 →
   mixup_sort mixup a c ≤ 0) ∧
  (mixup_sort mixup a b = 0 ↔
   path_sum mixup (d_name a) = path_sum mixup (d_name b)) ∧
  (d_name a = d_name b → mixup_sort mixup a c = mixup_sort mixup b c).
Proof.
  unfold mixup_sort. cbv zeta.
  set (sa := path_sum mixup (d_name a)).
  set (sb := path_sum mixup (d_name b)).
  set (sc := path_sum mixup (d_name c)).
  repeat split.
  - destruct (Z.eqb_spec sa sb); [auto|]. destruct (Z.ltb_spec sa sb); auto.
  - destruct (Z.eqb_spec sa sb), (Z.eqb_spec sb sa); try lia.
    destruct (Z.ltb_spec sa sb), (Z.ltb_spec sb sa); lia.
  - destruct (Z.eqb_spec sa sb), (Z.eqb_spec sb sc), (Z.eqb_spec sa sc);
      try lia;
      destruct (Z.ltb_spec sa sb), (Z.ltb_spec sb sc), (Z.ltb_spec sa sc);
      lia.
  - destruct (Z.eqb_spec sa sb); [auto|]. destruct (Z.ltb_spec sa sb); lia.
  - intros ->. destruct (Z.eqb_spec sb sb); [reflexivity|lia].
  - intros E. unfold sa, sb. rewrite E. reflexivity.
Qed.

(** X2.  Only the last 32 characters of a name count: a name of 32
    characters or more gets the same [path_sum] whatever the seed [mixup]
    is, and whatever is put in front of it; two entries whose names end in
    the same 32 characters compare equal. *)
Theorem path_sum_sees_the_last_32_characters
    (m1 m2 : Z) (front1 front2 tail : string) (t1 t2 : d_type_t) :
  cstr front1 = front1 → cstr front2 = front2 → 32 ≤ strlen tail →
  path_sum m1 (front1 ++ tail) = path_sum m2 tail ∧
  mixup_sort m1 (mk_dirent (front1 ++ tail) t1)
                (mk_dirent (front2 ++ tail) t2) = 0.
Proof.
  intros H1 H2 Hlen.
  assert (Hsum : ∀ m front, cstr front = front →
            path_sum m (front ++ tail) = wrap32 (weight tail)).
  { intros m front Hf. unfold path_sum.
    pose proof (strlen_nonneg front) as Hn.
    rewrite <- path_sum_loop_wrapped
      by (rewrite strlen_app_clean by exact Hf; lia).
    rewrite path_sum_loop_closed, strlen_app_clean, weight_app_clean
      by exact Hf.
    unfold wrap32. rewrite Z.add_assoc.
    rewrite <- Z.add_mod_idemp_l by lia.
    replace (m * 2 ^ (strlen front + strlen tail)
             + weight front * 2 ^ strlen tail)
      with ((m * 2 ^ strlen front + weight front) * 2 ^ strlen tail)
      by (rewrite Z.pow_add_r by lia; ring).
    fold (wrap32 ((m * 2 ^ strlen front + weight front) * 2 ^ strlen tail)).
    rewrite pow2_32_divides by exact Hlen. reflexivity. }
  split.
  - rewrite Hsum by exact H1.
    rewrite <- (Hsum m2 EmptyString eq_refl). reflexivity.
  - unfold mixup_sort. cbn [d_name].
    rewrite (Hsum m1 front1 H1), (Hsum m1 front2 H2), Z.eqb_refl. reflexivity.
Qed.

Lemma path_sum_last_32_witness :
  path_sum 12345 ("long_" ++ "0123456789abcdef0123456789abcdef")
  = path_sum 0 "0123456789abcdef0123456789abcdef"
  ∧ mixup_sort 12345
      (mk_dirent ("long_" ++ "0123456789abcdef0123456789abcdef") DT_REG)
      (mk_dirent ("other_" ++ "0123456789abcdef0123456789abcdef") DT_DIR) = 0.
Proof.
  apply (path_sum_sees_the_last_32_characters 12345 0 "long_" "other_"
           "0123456789abcdef0123456789abcdef" DT_REG DT_DIR).
  - reflexivity.
  - reflexivity.
  - vm_compute. discriminate.
Defined.

(** ** Rules for [ifdone] *)

Lemma ifdone_bind {A B} (m : M A) (k : A → M B) Q e w :
  ifdone (bind m k) Q e w = ifdone m (λ a w', ifdone (k a) Q e w') e w.
Proof. unfold ifdone, bind. destruct (m e w); reflexivity. Qed.

Lemma ifdone_ret {A} (a : A) Q e w : ifdone (ret a) Q e w = Q a w.
Proof. reflexivity. Qed.

Lemma ifdone_get {A} (f : world → A) Q e w : ifdone (get f) Q e w = Q (f w) w.
Proof. reflexivity. Qed.

Lemma ifdone_modify f Q e w : ifdone (modify f) Q e w = Q tt (f w).
Proof. reflexivity. Qed.

Lemma ifdone_emit ev Q e w : ifdone (emit ev) Q e w = Q tt (log ev w).
Proof. reflexivity. Qed.

Lemma ifdone_env {A} (f : env → A) Q e w :
  ifdone (λ e w, Done (f e) w) Q e w = Q (f e) w.
Proof. reflexivity. Qed.

Lemma ifdone_tick Q e w :
  Q (clock w) (with_clock (S (clock w)) w) → ifdone tick Q e w.
Proof.
  intros H. unfold ifdone, tick.
  destruct (fault e (clock w)); [destruct (handler w); exact I|exact H].
Qed.

Lemma ifdone_ask Q e w :
  Q (answer e (clock w)) (with_clock (S (clock w)) w) → ifdone ask Q e w.
Proof.
  intros H. unfold ask. rewrite ifdone_bind. apply ifdone_tick. exact H.
Qed.

Lemma ifdone_ask_flag Q e w :
  Q (negb (answer e (clock w) =? 0)) (with_clock (S (clock w)) w) →
  ifdone ask_flag Q e w.
Proof.
  intros H. unfold ask_flag. rewrite ifdone_bind. apply ifdone_ask.
  exact H.
Qed.

Lemma ifdone_mwc32 Q e w :
  Q (answer e (clock w) mod 2 ^ 32) (with_clock (S (clock w)) w) →
  ifdone mwc32 Q e w.
Proof.
  intros H. unfold mwc32. rewrite ifdone_bind. apply ifdone_ask. exact H.
Qed.

Lemma ifdone_out_of_fuel {A} (Q : A → world → Prop) e w :
  ifdone out_of_fuel Q e w.
Proof. exact I. Qed.

Lemma ifdone_mono {A} (m : M A) (Q Q' : A → world → Prop) e w :
  ifdone m Q e w → (∀ a w', Q a w' → Q' a w') → ifdone m Q' e w.
Proof. unfold ifdone. destruct (m e w); auto. Qed.

Lemma held_snoc tr ev :
  held (tr ++ [ev])
  = held tr + match ev with
              | EvOpen _ _ => 1
              | EvClose _ => -1
              | _ => 0
              end.
Proof.
  induction tr as [|x tr IH]; cbn [app held].
  - destruct ev; reflexivity.
  - destruct x; rewrite IH; lia.
Qed.

Ltac unfold_sys :=
  unfold to_drain, g_keep_stressing_flag, keep_stressing, time_is_up,
    shim_pthread_spin_lock, shim_pthread_spin_unlock, shim_usleep,
    open, close, read, read_bad, write, scandir, stat,
    assign_sysfs_path, inc_counter.

Ltac wnorm :=
  cbn [trace clock counter segv_abort drain_kmsg sysfs_path mixup handler
       with_clock with_drain_kmsg with_mixup with_counter with_handler
       with_sysfs_path with_segv_abort log fst snd].

Ltac dstep :=
  first
    [ rewrite ifdone_bind | rewrite ifdone_ret | rewrite ifdone_get
    | rewrite ifdone_modify | rewrite ifdone_emit | rewrite ifdone_env
    | apply ifdone_out_of_fuel
    | apply ifdone_ask_flag | apply ifdone_mwc32 | apply ifdone_ask
    | apply ifdone_tick
    | match goal with
      | |- ifdone (if ?b then _ else _) _ _ _ => destruct b eqn:?
      | |- ifdone (match ?x with _ => _ end) _ _ _ => destruct x eqn:?
      end ].

(** ** The descriptors of a pass *)

Lemma kmsg_loop_held fuel e : ∀ fd count w,
  ifdone (kmsg_loop fuel fd count)
    (λ _ w', held (trace w') = held (trace w)) e w.
Proof.
  induction fuel as [|fuel IH]; intros fd count w; cbn [kmsg_loop].
  - dstep.
  - unfold_sys. repeat dstep; wnorm.
    + rewrite held_snoc. lia.
    + eapply ifdone_mono; [apply IH|]. cbv beta. intros _ w' ->. wnorm.
      rewrite held_snoc. lia.
Qed.

Lemma kmsg_drain_held fuel fd e w :
  ifdone (stress_kmsg_drain fuel fd)
    (λ _ w', held (trace w') = held (trace w)) e w.
Proof.
  unfold stress_kmsg_drain. dstep; [dstep; reflexivity|].
  rewrite ifdone_bind. eapply ifdone_mono; [apply kmsg_loop_held|].
  cbv beta. intros c w' H. rewrite ifdone_ret. exact H.
Qed.

Ltac dcall lem := eapply ifdone_mono; [apply lem|cbv beta; intros ? ? ?].

Ltac wnorm_all :=
  cbn [trace clock counter segv_abort drain_kmsg sysfs_path mixup handler
       with_clock with_drain_kmsg with_mixup with_counter with_handler
       with_sysfs_path with_segv_abort log fst snd] in *.

Ltac dsolve :=
  repeat first [dstep | dcall kmsg_drain_held]; wnorm.

Ltac tally :=
  repeat match goal with
         | H : _ ∧ _ |- _ => destruct H
         end;
  rewrite ?last_snoc;
  repeat match goal with
         | H : last _ = _ |- _ => rewrite H; clear H
         end;
  repeat first
    [ rewrite held_snoc
    | match goal with
      | H : held _ = _ |- _ => rewrite H; clear H
      end ];
  cbn [unclosed Z.eqb].

Lemma read_loop_held fuel e : ∀ ctxt fd i w,
  ifdone (read_loop fuel ctxt fd i)
    (λ li w',
       match fst li with
       | Fall => held (trace w') = held (trace w)
       | _ => held (trace w') = held (trace w) - 1 ∧
              last (trace w') = Some (EvClose fd)
       end) e w.
Proof.
  induction fuel as [|fuel IH]; intros ctxt fd i w; cbn [read_loop].
  - dstep.
  - unfold_sys.
    repeat first [dstep | dcall kmsg_drain_held | dcall IH].
    all: wnorm_all.
    all: try match goal with
             | |- match fst ?a with _ => _ end => destruct a as [[] ?]
             end.
    all: wnorm_all.
    all: tally; first [lia | split; [lia|reflexivity]].
Qed.

(** X22.  Over a pass of a reader on its target that returns, the calls of
    [open] less the calls of [close] come to 0, or to 1 when the pass ends
    by a call of [open] (it failed, and the pass goes to [next] at once)
    or by the [read] of no bytes; in both cases the pass goes to [next].
    The second is a descriptor left open: the pass only ends by a [read]
    when that is the [read] of no bytes on a descriptor that [open] gave,
    the time being up right after it. *)
Theorem a_pass_can_leave_its_descriptor_open (fuel : nat) (verify : bool)
    (ctxt : ctxt_t) (path : string) (i : Z) (e : env) (w : world)
    (l : label) (i' : Z) (w' : world) :
  probe fuel verify ctxt path i e w = Done (l, i') w' →
  held (trace w')
  = held (trace w) + (if unclosed (last (trace w')) then 1 else 0)
  ∧ (unclosed (last (trace w')) = true → l = L_next)
  ∧ (∀ fd len, last (trace w') = Some (EvRead fd len) → len = 0 ∧ 0 ≤ fd).
Proof.
  intros E.
  assert (H : ifdone (probe fuel verify ctxt path i)
    (λ li w',
       held (trace w')
       = held (trace w) + (if unclosed (last (trace w')) then 1 else 0)
       ∧ (unclosed (last (trace w')) = true → fst li = L_next)
       ∧ (∀ fd len, last (trace w') = Some (EvRead fd len) →
                    len = 0 ∧ 0 ≤ fd)) e w).
  { unfold probe, at_err, write_stage. unfold_sys.
    repeat first [dstep | dcall kmsg_drain_held | dcall read_loop_held].
    all: wnorm_all.
    all: repeat match goal with
                | H : (_ <? 0) = false |- _ => apply Z.ltb_ge in H
                | H : match ?x with _ => _ end |- _ => destruct x
                | H : _ ∧ _ |- _ => destruct H
                end.
    all: try discriminate.
    all: tally.
    all: try exact I.
    all: split; [lia|]; split; [try discriminate; reflexivity|].
    all: intros ? ? Heq;
      first [ discriminate Heq
            | injection Heq as <- <-; split; [reflexivity|assumption] ].
 }
  unfold ifdone in H. rewrite E in H. exact H.
Qed.

Lemma a_pass_can_leave_its_descriptor_open_witness :
  ∃ w', probe 5 false root_reader "/sys/a" 0 late_env boot
        = Done (L_next, 0) w' ∧
        trace w' = [EvOpen "/sys/a" 2048; EvClose 5;
                    EvOpen "/sys/a" 2048; EvRead 6 0] ∧
        held (trace w') = 1.
Proof.
  eexists. split; [vm_compute; reflexivity|]. split; [reflexivity|].
  match goal with
  | |- held (trace ?w') = 1 =>
      destruct (a_pass_can_leave_its_descriptor_open 5 false root_reader
                  "/sys/a" 0 late_env boot L_next 0 w') as (H & _);
        [vm_compute; reflexivity|]
  end.
  exact H.
Defined.

(** ** What the walker counts *)










(** ** Rules for [emits] *)

Section Emits.
Variable ok : event → bool.

Lemma emits_ret {A} (a : A) : emits ok (ret a).
Proof. intros e w. exists []. rewrite app_nil_r. auto. Qed.

Lemma emits_bind {A B} (m : M A) (k : A → M B) :
  emits ok m → (∀ a, emits ok (k a)) → emits ok (bind m k).
Proof.
  intros Hm Hk e w. unfold bind.
  destruct (Hm e w) as (s1 & E1 & F1).
  destruct (m e w) as [a w1|c w1]; cbn [world_of] in E1.
  - destruct (Hk a e w1) as (s2 & E2 & F2).
    exists (s1 ++ s2). rewrite E2, E1, <- app_assoc.
    split; [reflexivity|]. rewrite forallb_app, F1, F2. reflexivity.
  - exists s1. auto.
Qed.

Lemma emits_get {A} (f : world → A) : emits ok (get f).
Proof. intros e w. exists []. rewrite app_nil_r. auto. Qed.

Lemma emits_env {A} (f : env → A) : emits ok (λ e w, Done (f e) w).
Proof. intros e w. exists []. rewrite app_nil_r. auto. Qed.

Lemma emits_out_of_fuel {A} : emits ok (@out_of_fuel A).
Proof. intros e w. exists []. rewrite app_nil_r. auto. Qed.

Lemma emits_modify f s :
  (∀ w, trace (f w) = trace w ++ s) → forallb ok s = true →
  emits ok (modify f).
Proof. intros Hf Hs e w. exists s. cbn. auto. Qed.

Lemma emits_quiet f : (∀ w, trace (f w) = trace w) → emits ok (modify f).
Proof.
  intros Hf e w. exists []. cbn. rewrite app_nil_r. auto.
Qed.

Lemma emits_emit ev : ok ev = true → emits ok (emit ev).
Proof.
  intros H. apply (emits_modify _ [ev]); [reflexivity|].
  cbn. rewrite H. reflexivity.
Qed.

Hypothesis ok_segv : ok EvSegv = true.

Lemma emits_tick : emits ok tick.
Proof.
  intros e w. unfold tick.
  destruct (fault e (clock w)).
  - destruct (handler w); cbn.
    + exists [EvSegv]. cbn. rewrite ok_segv. auto.
    + exists []. rewrite app_nil_r. auto.
  - exists []. cbn. rewrite app_nil_r. auto.
Qed.

Lemma emits_ask : emits ok ask.
Proof. apply emits_bind; [apply emits_tick|]. intros t. apply emits_env. Qed.

Lemma emits_ask_flag : emits ok ask_flag.
Proof. apply emits_bind; [apply emits_ask|]. intros r. apply emits_ret. Qed.

Lemma emits_mwc32 : emits ok mwc32.
Proof. apply emits_bind; [apply emits_ask|]. intros r. apply emits_ret. Qed.

End Emits.

Ltac estep :=
  first
    [ apply emits_ret | apply emits_get | apply emits_env
    | apply emits_out_of_fuel
    | apply emits_ask_flag; reflexivity | apply emits_mwc32; reflexivity
    | apply emits_ask; reflexivity | apply emits_tick; reflexivity
    | apply emits_bind; [|intros ?]
    | apply emits_emit; reflexivity
    | apply emits_quiet; reflexivity
    | match goal with
      | |- emits _ (if ?b then _ else _) => destruct b eqn:?
      | |- emits _ (match ?x with _ => _ end) => destruct x eqn:?
      end ].

(** ** The walker and the skip list *)

Lemma emits_publish tmp :
  stress_sys_skip tmp = false → emits walker_event (publish tmp).
Proof.
  intros Hs. unfold publish. unfold_sys. repeat estep.
  apply (emits_modify _ _ [EvPublish tmp]); [reflexivity|].
  cbn. rewrite Hs. reflexivity.
Qed.

Lemma emits_dir_loop descend path recurse l :
  (∀ tmp, stress_sys_skip tmp = false → emits walker_event (descend tmp)) →
  emits walker_event (dir_loop descend path recurse l).
Proof.
  intros Hd. induction l as [|d rest IHl]; cbn [dir_loop].
  - estep.
  - unfold_sys.
    repeat first [ apply IHl | apply Hd; assumption
                 | apply emits_publish; assumption | estep ].
Qed.

Lemma emits_stress_sys_dir fuel : ∀ ctxt path recurse depth,
  stress_sys_skip path = false →
  emits walker_event (stress_sys_dir fuel ctxt path recurse depth).
Proof.
  induction fuel as [|fuel IH]; intros ctxt path recurse depth Hs;
    cbn [stress_sys_dir].
  - estep.
  - unfold_sys.
    repeat first
      [ apply emits_dir_loop; intros; apply IH; assumption
      | apply emits_emit; cbn; rewrite Hs; reflexivity
      | estep ].
Qed.

(** X24.  However a call of [stress_sys_dir] on a path that
    [stress_sys_skip] lets through ends, the walker has only entered and
    left directories, listed them, stored paths in the cursor and slept:
    it opens, reads and writes no file itself, and every path it has
    entered, listed or handed to the readers is one that
    [stress_sys_skip] lets through. *)
Theorem walker_keeps_off_the_skipped_paths (fuel : nat) (ctxt : ctxt_t)
    (path : string) (recurse : bool) (depth : Z) (e : env) (w : world) :
  stress_sys_skip path = false →
  ∃ s, trace (world_of (stress_sys_dir fuel ctxt path recurse depth e w))
       = trace w ++ s ∧
       forallb walker_event s = true ∧
       ∀ p, In (EvScandir p) s ∨ In (EvPublish p) s
            ∨ (∃ d, In (EvEnter p d) s) →
            strstr p "PNP0A03" && strstr p "VMBUS" = false.
Proof.
  intros Hs.
  destruct (emits_stress_sys_dir fuel ctxt path recurse depth Hs e w)
    as (s & E & F).
  exists s. split; [exact E|]. split; [exact F|].
  rewrite forallb_forall in F.
  intros p [Hin|[Hin|[d Hin]]]; apply F in Hin; cbn in Hin;
    apply negb_true_iff in Hin; exact Hin.
Qed.

Lemma walker_keeps_off_witness :
  ∃ s, trace (world_of (stress_sys_dir 5 root_reader "/sys" true 0
                          visit_env boot)) = s ∧
       forallb walker_event s = true.
Proof.
  destruct (walker_keeps_off_the_skipped_paths 5 root_reader "/sys" true 0
              visit_env boot) as (s & E & F & _); [reflexivity|].
  exists s. split; [exact E|exact F].
Defined.

(** ** How the stressor ends *)

Lemma emits_weaken {A} (ok ok' : event → bool) (m : M A) :
  (∀ ev, ok ev = true → ok' ev = true) → emits ok m → emits ok' m.
Proof.
  intros Hok Hm e w. destruct (Hm e w) as (s & E & F).
  exists s. split; [exact E|].
  rewrite forallb_forall in *. auto.
Qed.

Lemma ifdone_emits {A} ok (m : M A) e w :
  emits ok m →
  ifdone m (λ _ w', ∃ s, trace w' = trace w ++ s ∧ forallb ok s = true) e w.
Proof.
  intros Hm. unfold ifdone. specialize (Hm e w).
  destruct (m e w); [exact Hm|exact I].
Qed.

Lemma held_app s1 s2 : held (s1 ++ s2) = held s1 + held s2.
Proof.
  induction s1 as [|ev s1 IH]; cbn [app held]; [lia|].
  destruct ev; rewrite ?IH; lia.
Qed.

Lemma calm_held s : forallb calm s = true → held s = 0.
Proof.
  induction s as [|ev s IH]; cbn [forallb held]; [reflexivity|].
  intros H. apply andb_true_iff in H as [Hev Hs].
  destruct ev; try discriminate Hev; auto.
Qed.

Lemma calm_threads s :
  forallb calm s = true → List.filter is_thread_event s = [].
Proof.
  induction s as [|ev s IH]; cbn [forallb List.filter]; [reflexivity|].
  intros H. apply andb_true_iff in H as [Hev Hs].
  destruct ev; try discriminate Hev; auto.
Qed.

Lemma emits_kmsg_loop fuel : ∀ fd count, emits calm (kmsg_loop fuel fd count).
Proof.
  induction fuel as [|fuel IH]; intros fd count; cbn [kmsg_loop].
  - estep.
  - unfold_sys. repeat first [apply IH | estep].
Qed.

Lemma emits_kmsg_drain fuel fd : emits calm (stress_kmsg_drain fuel fd).
Proof.
  unfold stress_kmsg_drain. repeat first [apply emits_kmsg_loop | estep].
Qed.

Lemma emits_walk fuel : ∀ ctxt, emits calm (walk fuel ctxt).
Proof.
  intros ctxt. apply (emits_weaken walker_event).
  { intros ev H. destruct ev; try discriminate H; reflexivity. }
  induction fuel as [|fuel IH]; cbn [walk].
  - estep.
  - unfold_sys.
    repeat first [apply emits_stress_sys_dir; reflexivity | apply IH | estep].
Qed.

Lemma for_threads_trace ev e rets : ∀ i w,
  ifdone (for_threads ev i rets)
    (λ _ w', trace w' = trace w ++ map ev (started i rets)) e w.
Proof.
  induction rets as [|r rets IH]; intros i w; cbn [for_threads started].
  - rewrite ifdone_ret. rewrite app_nil_r. auto.
  - repeat first [dstep | dcall IH]; wnorm_all.
    + rewrite H, <- app_assoc. reflexivity.
    + exact H.
Qed.

Lemma threads_filter {X} (f : X → event) l :
  (∀ x, is_thread_event (f x) = true) →
  List.filter is_thread_event (map f l) = map f l.
Proof.
  intros Hf. induction l as [|x l IH]; cbn [map List.filter]; [reflexivity|].
  rewrite Hf, IH. reflexivity.
Qed.

Lemma threads_held {X} (f : X → event) l :
  (∀ x, is_thread_event (f x) = true) → held (map f l) = 0.
Proof.
  intros Hf. induction l as [|x l IH]; cbn [map held]; [reflexivity|].
  specialize (Hf x). destruct (f x); try discriminate Hf; exact IH.
Qed.

Lemma walk_calm fuel ctxt e w :
  ifdone (walk fuel ctxt)
    (λ _ w', ∃ s, trace w' = trace w ++ s ∧ forallb calm s = true) e w.
Proof. apply ifdone_emits, emits_walk. Qed.

Lemma kmsg_loop_run fuel e : ∀ fd count w,
  ifdone (kmsg_loop fuel fd count)
    (λ _ w', ∃ k, trace w' = trace w ++ repeat (EvRead fd 1024) k ∧
                  clock w' = (clock w + k)%nat) e w.
Proof.
  induction fuel as [|fuel IH]; intros fd count w; cbn [kmsg_loop].
  - dstep.
  - unfold_sys. repeat first [dstep | dcall IH]; wnorm_all.
    + exists 1%nat. split; [reflexivity|lia].
    + destruct H as (k & Ht & Hc). exists (S k). rewrite Ht, Hc.
      cbn [repeat]. rewrite <- app_assoc. split; [reflexivity|lia].
Qed.

Lemma kmsg_drain_run fuel fd e w :
  ifdone (stress_kmsg_drain fuel fd)
    (λ _ w', ∃ k, trace w' = trace w ++ repeat (EvRead fd 1024) k ∧
                  clock w' = (clock w + k)%nat ∧
                  (fd = -1 → k = 0%nat)) e w.
Proof.
  unfold stress_kmsg_drain.
  destruct (Z.eqb_spec fd (-1)) as [E|E].
  - rewrite ifdone_ret. exists 0%nat. rewrite app_nil_r.
    split; [reflexivity|]. split; [lia|reflexivity].
  - rewrite ifdone_bind. dcall kmsg_loop_run. rewrite ifdone_ret.
    destruct H as (k & Ht & Hc). exists k. split; [exact Ht|].
    split; [exact Hc|]. intros. contradiction.
Qed.

Lemma create_threads_run ctxt e n : ∀ i w,
  ifdone (create_threads n i ctxt)
    (λ rets w',
       rets = map (λ j, answer e (clock w + j)%nat) (seq 0 n) ∧
       clock w' = (clock w + n)%nat ∧
       trace w' = trace w ++ map (λ j, EvThreadCreate j ctxt) (seq i n))
    e w.
Proof.
  induction n as [|n IH]; intros i w; cbn [create_threads].
  - rewrite ifdone_ret. rewrite app_nil_r. cbn. auto with arith.
  - repeat first [dstep | dcall IH]. wnorm_all.
    destruct H as (Hr & Hc & Ht). cbn [seq map]. rewrite Hr, Hc, Ht.
    rewrite <- app_assoc, Nat.add_0_r. split; [|split; [lia|reflexivity]].
    f_equal. rewrite <- seq_shift, map_map.
    apply map_ext. intros j. f_equal. lia.
Qed.

Lemma reads_calm fd k : forallb calm (repeat (EvRead fd 1024) k) = true.
Proof. induction k as [|k IH]; [reflexivity|exact IH]. Qed.

Lemma stress_sysfs_body_run fuel e :
  ifdone (stress_sysfs_body fuel)
    (λ rc w',
       (rc = EXIT_FAILURE ∧ answer e 0 < 0 ∧ trace w' = [])
       ∨ (rc = EXIT_NO_RESOURCE ∧
          List.filter is_thread_event (trace w') = [] ∧
          held (trace w') = 1)
       ∨ (rc = EXIT_SUCCESS ∧
          ∃ k rest,
            let ctxt := mk_ctxt (answer e (4 + k)%nat) (negb (euid e =? 0))
                          (kmsg_fd e) in
            let rets := map (λ i, answer e (5 + k + i)%nat)
                          (seq 0 MAX_READ_THREADS) in
            (kmsg_fd e = -1 → k = 0%nat) ∧
            trace w'
            = [EvPublish dummy_path;
               EvOpen "/dev/kmsg" (Z.lor O_RDONLY O_NONBLOCK)]
              ++ repeat (EvRead (kmsg_fd e) 1024) k
              ++ map (λ i, EvThreadCreate i ctxt) (seq 0 MAX_READ_THREADS)
              ++ rest ∧
            List.filter is_thread_event rest
            = map EvThreadKill (started 0 rets)
              ++ map EvThreadJoin (started 0 rets) ∧
            held (trace w') = (if kmsg_fd e =? -1 then 1 else 0)))
    e boot.
Proof.
  unfold stress_sysfs_body, stress_sysfs_run, stress_sysfs_with. unfold_sys.
  repeat first
    [ dstep
    | dcall kmsg_drain_run
    | dcall walk_calm
    | dcall create_threads_run
    | dcall for_threads_trace ].
  all: wnorm_all.
  all: repeat match goal with
              | H : ∃ _, _ |- _ => destruct H
              | H : _ ∧ _ |- _ => destruct H
              end.
  all: try solve
    [ left; split; [reflexivity|];
      split; [apply Z.ltb_lt; assumption|reflexivity] ].
  all: unfold euid, kmsg_fd.
  all: repeat match goal with
              | H : clock ?w = _ |- _ => rewrite H in *; clear H
              end.
  all: cbn [boot clock trace] in *.
  all: subst.
  all: repeat match goal with
              | H : trace ?w = _ |- _ => rewrite H; clear H
              end.
  all: rewrite <- ?app_assoc; cbn [app].
  1-2: right; left; (split; [reflexivity|]);
    cbn [List.filter is_thread_event held];
    rewrite (calm_threads _ (reads_calm _ _)), (calm_held _ (reads_calm _ _));
    split; reflexivity.
  all: right; right; split; [reflexivity|].
  all: match goal with
       | |- context [repeat (EvRead _ 1024) ?k] => exists k
       end.
  all: eexists; cbv zeta.
  all: split; [assumption|].
  all: split; [cbn [app]; reflexivity|].
  all: repeat first
         [ rewrite List.filter_app
         | rewrite (calm_threads _ H4)
         | rewrite threads_filter by reflexivity
         | progress cbn [List.filter is_thread_event app] ].
  all: split; [rewrite ?app_nil_r; reflexivity|].
  all: repeat first
         [ rewrite held_app
         | rewrite (calm_held _ H4)
         | rewrite (calm_held _ (reads_calm _ _))
         | rewrite threads_held by reflexivity
         | progress cbn [held] ].
  all: destruct (answer e 2 =? -1); cbn [negb] in *;
    first [discriminate|lia].
Qed.

(** X25.  A run of [stress_sysfs] that returns ends in one of four ways.
    It returns [EXIT_FAILURE] before anything is done, when the handler
    cannot be installed, or after a SIGSEGV, the handler's run and the
    report being the last things done.  It returns [EXIT_NO_RESOURCE]
    (the lock or the bad buffer cannot be had) with no reader created,
    and with /dev/kmsg, opened before, not closed.  Or it returns
    [EXIT_SUCCESS]: then, after the store of [dummy_path], the opening of
    /dev/kmsg and [k] reads that drain it, the four readers have been
    created with one context, which holds what [mmap], [geteuid] and
    [open] gave; the codes [pthread_create] gave are the four answers of
    the environment that follow that of [mmap]; of the readers, those for
    which the code is 0 have been killed and then joined, each once and
    in order, no other; and /dev/kmsg has been closed when [open] did not
    give -1. *)
Theorem stress_sysfs_endings (fuel : nat) (e : env) (rc : Z) (w' : world) :
  stress_sysfs fuel e boot = Done rc w' →
  (rc = EXIT_FAILURE ∧
   ((answer e 0 < 0 ∧ trace w' = []) ∨
    (∃ pre, trace w' = pre ++ [EvSegv; EvErr (read_sysfs_path e w')] ∧
            segv_free pre)))
  ∨ (rc = EXIT_NO_RESOURCE ∧
     List.filter is_thread_event (trace w') = [] ∧
     held (trace w') = 1)
  ∨ (rc = EXIT_SUCCESS ∧
     ∃ k rest,
       let ctxt := mk_ctxt (answer e (4 + k)%nat) (negb (euid e =? 0))
                     (kmsg_fd e) in
       let rets := map (λ i, answer e (5 + k + i)%nat)
                     (seq 0 MAX_READ_THREADS) in
       (kmsg_fd e = -1 → k = 0%nat) ∧
       trace w'
       = [EvPublish dummy_path;
          EvOpen "/dev/kmsg" (Z.lor O_RDONLY O_NONBLOCK)]
         ++ repeat (EvRead (kmsg_fd e) 1024) k
         ++ map (λ i, EvThreadCreate i ctxt) (seq 0 MAX_READ_THREADS)
         ++ rest ∧
       List.filter is_thread_event rest
       = map EvThreadKill (started 0 rets)
         ++ map EvThreadJoin (started 0 rets) ∧
       List.filter is_thread_event (trace w')
       = map (λ i, EvThreadCreate i ctxt) (seq 0 MAX_READ_THREADS)
         ++ map EvThreadKill (started 0 rets)
         ++ map EvThreadJoin (started 0 rets) ∧
       held (trace w') = (if kmsg_fd e =? -1 then 1 else 0)).
Proof.
  unfold stress_sysfs. intros E.
  pose proof (stress_sysfs_body_run fuel e) as H. unfold ifdone in H.
  pose proof (SysFsFacts.body_cases fuel e) as Hb.
  destruct (stress_sysfs_body fuel e boot) as [rc0 w0|[] w0];
    try discriminate E.
  - injection E as <- <-.
    destruct H as [(-> & Hr & Ht)|[H|(-> & k & rest & H)]];
      [left; auto|right; left; exact H|right; right].
    split; [reflexivity|]. exists k, rest. cbv zeta in *.
    destruct H as (Hk & Ht & Hf & Hh).
    split; [exact Hk|]. split; [exact Ht|]. split; [exact Hf|].
    split; [|exact Hh].
    rewrite Ht. cbn [app List.filter is_thread_event].
    rewrite !List.filter_app, (calm_threads _ (reads_calm _ _)), Hf.
    rewrite threads_filter by reflexivity. reflexivity.
  - injection E as <- <-. left. split; [reflexivity|]. right.
    destruct Hb as (w00 & (_ & Hs & _) & ->).
    exists (trace w00). split; [|exact Hs].
    cbn [trace log stress_segv_handler with_segv_abort].
    rewrite <- app_assoc. reflexivity.
Qed.

Lemma stress_sysfs_endings_witness :
  ∃ w' rest,
    stress_sysfs 5 three_readers_env boot = Done EXIT_SUCCESS w' ∧
    trace w'
    = [EvPublish dummy_path; EvOpen "/dev/kmsg" (Z.lor O_RDONLY O_NONBLOCK)]
      ++ map (λ i, EvThreadCreate i (mk_ctxt 4096 true (-1))) [0; 1; 2; 3]%nat
      ++ rest ∧
    List.filter is_thread_event rest
    = map EvThreadKill [0; 2; 3]%nat ++ map EvThreadJoin [0; 2; 3]%nat.
Proof.
  assert (E : ∃ w', stress_sysfs 5 three_readers_env boot
                    = Done EXIT_SUCCESS w').
  { eexists. vm_compute. reflexivity. }
  destruct E as [w' E]. exists w'.
  destruct (stress_sysfs_endings 5 three_readers_env EXIT_SUCCESS w' E)
    as [[H _]|[[H _]|(_ & k & rest & Hk & Ht & Hf & _)]];
    [discriminate H|discriminate H|].
  exists rest. split; [exact E|].
  cbv zeta in *. rewrite (Hk eq_refl) in *.
  split; [exact Ht|exact Hf].
Defined.

(** The readers that could be created, and only they, are killed and
    joined. *)
Example stress_sysfs_three_readers :
  ∃ w', stress_sysfs 5 three_readers_env boot = Done EXIT_SUCCESS w' ∧
        List.filter is_thread_event (trace w')
        = map (λ i, EvThreadCreate i (mk_ctxt 4096 true (-1))) [0; 1; 2; 3]%nat
          ++ map EvThreadKill [0; 2; 3]%nat
          ++ map EvThreadJoin [0; 2; 3]%nat.
Proof. eexists. split; vm_compute; reflexivity. Qed.

(** ** Draining the kernel log *)

Lemma kmsg_loop_reads fd e n : ∀ fuel count w,
  (n < fuel)%nat →
  0 ≤ count → count + 1024 * Z.of_nat n < 2 ^ 31 →
  (∀ k, (k ≤ n)%nat → fault e (clock w + k) = false) →
  (∀ k, (k < n)%nat → 0 < answer e (clock w + k) ≤ 1024) →
  answer e (clock w + n) ≤ 0 →
  ∃ count' w',
    kmsg_loop fuel fd count e w = Done count' w' ∧
    count ≤ count' ∧ ((0 < n)%nat → count < count') ∧
    trace w' = trace w ++ repeat (EvRead fd 1024) (S n) ∧
    clock w' = (clock w + S n)%nat.
Proof.
  induction n as [|n IH]; intros fuel count w Hfuel Hc Hb Hf Ha Hend;
    (destruct fuel as [|fuel]; [lia|]);
    cbn [kmsg_loop]; unfold read, emit, ask, tick, bind, modify, ret;
    cbn [clock log trace];
    pose proof (Hf 0%nat ltac:(lia)) as Hf0;
    rewrite Nat.add_0_r in Hf0; rewrite Hf0.
  - rewrite Nat.add_0_r in Hend.
    destruct (Z.leb_spec (answer e (clock w)) 0) as [_|]; [|lia].
    eexists _, _. split; [reflexivity|]. cbn [trace clock with_clock log].
    repeat split; try lia.
  - pose proof (Ha 0%nat ltac:(lia)) as Ha0. rewrite Nat.add_0_r in Ha0.
    destruct (Z.leb_spec (answer e (clock w)) 0) as [|_]; [lia|].
    set (w1 := with_clock (S (clock w)) (log (EvRead fd 1024) w)).
    assert (Hw : wrap_int (count + answer e (clock w))
                 = count + answer e (clock w)).
    { unfold wrap_int. rewrite Z.mod_small by lia. lia. }
    rewrite Hw.
    destruct (IH fuel (count + answer e (clock w)) w1)
      as (c' & w' & E & Hle & _ & Ht & Hk); try lia.
    + intros k Hk. replace (clock w1 + k)%nat with (clock w + S k)%nat
        by (cbn; lia). apply Hf. lia.
    + intros k Hk. replace (clock w1 + k)%nat with (clock w + S k)%nat
        by (cbn; lia). apply Ha. lia.
    + replace (clock w1 + n)%nat with (clock w + S n)%nat by (cbn; lia).
      exact Hend.
    + exists c', w'. split; [exact E|]. split; [lia|]. split; [lia|].
      split.
      * rewrite Ht. cbn [w1 trace with_clock log repeat].
        rewrite <- app_assoc. reflexivity.
      * rewrite Hk. cbn. lia.
Qed.

(** X26.  [stress_kmsg_drain] does not read from the descriptor -1.
    From another descriptor it reads 1024 bytes at a time until a [read]
    gives nothing or fails, and not beyond; it answers whether anything
    was read (as long as the bytes read stay below 2^31, the range of
    its counter). *)
Theorem kmsg_drain_reads_until_empty (fuel : nat) (fd : Z) (e : env)
    (w : world) (n : nat) :
  (n < fuel)%nat → Z.of_nat n < 2 ^ 21 →
  (∀ k, (k ≤ n)%nat → fault e (clock w + k) = false) →
  (∀ k, (k < n)%nat → 0 < answer e (clock w + k) ≤ 1024) →
  answer e (clock w + n) ≤ 0 →
  stress_kmsg_drain fuel (-1) e w = Done false w ∧
  (fd ≠ -1 →
   ∃ w', stress_kmsg_drain fuel fd e w = Done (negb (Nat.eqb n 0)) w' ∧
         trace w' = trace w ++ repeat (EvRead fd 1024) (S n) ∧
         clock w' = (clock w + S n)%nat).
Proof.
  intros Hfuel Hn Hf Ha Hend. split; [reflexivity|]. intros Hfd.
  unfold stress_kmsg_drain.
  destruct (Z.eqb_spec fd (-1)) as [|_]; [contradiction|].
  destruct (kmsg_loop_reads fd e n fuel 0 w)
    as (c' & w' & E & Hle & Hlt & Ht & Hk); try assumption; try lia.
  exists w'. unfold bind. rewrite E. unfold ret.
  split; [|split; assumption].
  f_equal. destruct n as [|n]; cbn [Nat.eqb negb].
  - assert (c' = 0) as ->; [|reflexivity].
    destruct fuel as [|fuel]; [lia|]. revert E.
    cbn [kmsg_loop]. unfold read, emit, ask, tick, bind, modify, ret.
    cbn [clock log]. rewrite <- (Nat.add_0_r (clock w)), (Hf 0%nat) by lia.
    destruct (Z.leb_spec (answer e (clock w + 0)) 0); [|lia].
    intros [= <- _]. reflexivity.
  - apply Z.ltb_lt. lia.
Qed.

Lemma kmsg_drain_reads_until_empty_witness :
  stress_kmsg_drain 5 7 chatty_env boot
  = Done true
      (mk_world false false None 0 0 3 false
         [EvRead 7 1024; EvRead 7 1024; EvRead 7 1024]).
Proof.
  assert (Hf : ∀ k, (k ≤ 2)%nat → fault chatty_env (clock boot + k) = false)
    by reflexivity.
  assert (Ha : ∀ k, (k < 2)%nat →
                    0 < answer chatty_env (clock boot + k) ≤ 1024).
  { intros k Hk. destruct k as [|[|k]]; cbn; lia. }
  assert (Hend : answer chatty_env (clock boot + 2) ≤ 0) by (cbn; lia).
  destruct (kmsg_drain_reads_until_empty 5 7 chatty_env boot 2
              ltac:(lia) ltac:(lia) Hf Ha Hend) as [_ H].
  destruct H as (w' & E & _); [lia|].
  rewrite E. vm_compute in E. injection E as <-. reflexivity.
Defined.

End SysFsProps.

Module TimerFdFacts.
Import TimerFd.

(** ** The timer that is set *)

Lemma split_nanoseconds T :
  0 ≤ T →
  let sec := Z.quot T 1000000000 in
  let nsec := Z.rem T 1000000000 in
  let nsec' := if (sec =? 0) && (nsec <? 1) then 1 else nsec in
  0 ≤ sec ∧ 0 ≤ nsec' < 1000000000 ∧
  sec * 1000000000 + nsec' = Z.max T 1.
Proof.
  intros HT. cbv zeta.
  rewrite Z.quot_div_nonneg, Z.rem_mod_nonneg by lia.
  pose proof (Z.div_mod T 1000000000 ltac:(lia)) as Hdm.
  pose proof (Z.mod_pos_bound T 1000000000 ltac:(lia)) as Hm.
  assert (0 ≤ T / 1000000000) by (apply Z.div_pos; lia).
  destruct (Z.eqb_spec (T / 1000000000) 0) as [E|E];
    destruct (Z.ltb_spec (T mod 1000000000) 1); cbn [andb]; lia.
Qed.

Lemma never_both_zero T :
  let sec := Z.quot T 1000000000 in
  let nsec := Z.rem T 1000000000 in
  let nsec' := if (sec =? 0) && (nsec <? 1) then 1 else nsec in
  ¬ (sec = 0 ∧ nsec' < 1).
Proof.
  cbv zeta.
  destruct (Z.eqb_spec (Z.quot T 1000000000) 0) as [E|E];
    destruct (Z.ltb_spec (Z.rem T 1000000000) 1); cbn [andb]; lia.
Qed.

Lemma negative_rate T :
  let sec := Z.quot T 1000000000 in
  let nsec := Z.rem T 1000000000 in
  let nsec' := if (sec =? 0) && (nsec <? 1) then 1 else nsec in
  (-1000000000 < T < 0 → sec = 0 ∧ nsec' = 1) ∧
  (T ≤ -1000000000 → sec < 0).
Proof.
  cbv zeta.
  pose proof (Z.quot_rem' T 1000000000) as Hqr.
  split.
  - intros HT.
    assert (E : Z.quot T 1000000000 = 0).
    { rewrite <- (Z.opp_involutive T), Z.quot_opp_l by lia.
      rewrite Z.quot_small by lia. reflexivity. }
    rewrite E. cbn [Z.eqb andb].
    destruct (Z.ltb_spec (Z.rem T 1000000000) 1); [auto|lia].
  - intros HT.
    rewrite <- (Z.opp_involutive T), Z.quot_opp_l by lia.
    assert (1 ≤ Z.quot (- T) 1000000000); [|lia].
    apply Z.quot_le_lower_bound; lia.
Qed.

(** X3.  [stress_timerfd_set] never produces a zero timer, whatever the
    floating-point arithmetic gives: the expiry it sets is not 0s 0ns,
    and the interval is the same as the expiry.  It touches neither the
    counter nor the log.  The timer is made from [T], the rate truncated
    to an integer, where the rate is [rate_ns] without the random
    variation, and nothing is asked of the environment then, and
    [rate_ns + rate_ns * ((mwc32() % 10000 - 5000) / 40000)] with it, for
    the one random number drawn.  When [T] is not negative, the timer is
    [T] nanoseconds split into seconds and nanoseconds below a second,
    one nanosecond when [T] is 0; a negative [T] above minus one second
    gives one nanosecond too, and a [T] of minus one second or below
    gives a negative number of seconds. *)
Theorem timer_is_never_zero {double : Type} {D : Double double}
    (o : opt_flags) (st : state) :
  let drawn := hd 0 (oracle st) mod 2 ^ 32 in
  let r := d_div (d_sub (d_of_Z (drawn mod 10000)) (d_of_Z 5000))
                 (d_of_Z 40000) in
  let rate := if OPT_FLAGS_TIMERFD_RAND o
              then d_add (rate_ns st) (d_mul (rate_ns st) r)
              else rate_ns st in
  let T := d_to_long rate in
  ∃ timer st', stress_timerfd_set o st = Some (timer, st') ∧
    it_interval timer = it_value timer ∧
    ¬ (tv_sec (it_value timer) = 0 ∧ tv_nsec (it_value timer) < 1) ∧
    counter st' = counter st ∧ trace st' = trace st ∧
    rate_ns st' = rate_ns st ∧
    oracle st' = (if OPT_FLAGS_TIMERFD_RAND o then tail (oracle st)
                  else oracle st) ∧
    tv_sec (it_value timer) = Z.quot T 1000000000 ∧
    (0 ≤ T →
     0 ≤ tv_sec (it_value timer) ∧
     0 ≤ tv_nsec (it_value timer) < 1000000000 ∧
     tv_sec (it_value timer) * 1000000000 + tv_nsec (it_value timer)
     = Z.max T 1) ∧
    (-1000000000 < T < 0 →
     tv_sec (it_value timer) = 0 ∧ tv_nsec (it_value timer) = 1) ∧
    (T ≤ -1000000000 → tv_sec (it_value timer) < 0).
Proof.
  cbv zeta.
  unfold stress_timerfd_set, bind, get_rate_ns, mwc32, ask, ret.
  destruct (OPT_FLAGS_TIMERFD_RAND o).
  - eexists _, _. split; [reflexivity|]. cbn.
    split; [reflexivity|]. split; [apply never_both_zero|].
    do 5 (split; [reflexivity|]).
    split; [apply split_nanoseconds|]. apply negative_rate.
  - eexists _, _. split; [reflexivity|]. cbn.
    split; [reflexivity|]. split; [apply never_both_zero|].
    do 5 (split; [reflexivity|]).
    split; [apply split_nanoseconds|]. apply negative_rate.
Qed.

(** ** The loop *)

Lemma count_app f s1 s2 : count f (s1 ++ s2) = count f s1 + count f s2.
Proof.
  unfold count. rewrite List.filter_app, length_app. lia.
Qed.

Lemma length_tail_le {A} (l : list A) : (length (tail l) ≤ length l)%nat.
Proof. destruct l; cbn; lia. Qed.

Lemma wrap_int_small z : - 2 ^ 31 ≤ z < 2 ^ 31 → wrap_int z = z.
Proof.
  intros H. unfold wrap_int. rewrite Z.mod_small by lia. lia.
Qed.

Lemma good_nil procfd c : 0 ≤ c ≤ COUNT_MAX → good procfd c [] 0.
Proof.
  intros Hc. unfold good, COUNT_MAX in *. repeat split; [lia|].
  destruct (-1 <? procfd); [|reflexivity].
  rewrite Z.add_0_r, Z.div_small by lia. reflexivity.
Qed.

Lemma good_quiet procfd c s1 s k :
  forallb in_loop s1 = true → count is_lseek s1 = 0 →
  good procfd c s k → good procfd c (s1 ++ s) k.
Proof.
  intros H1 H0 (Hs & Hk & Hc). unfold good.
  rewrite forallb_app, H1, Hs, count_app, H0, Hc. auto.
Qed.

Lemma good_turn procfd c s1 s k :
  forallb in_loop s1 = true → count is_lseek s1 = 0 →
  good procfd (c + 1) s k → good procfd c (s1 ++ s) (1 + k).
Proof.
  intros H1 H0 (Hs & Hk & Hl). unfold good.
  rewrite forallb_app, H1, Hs, count_app, H0, Hl.
  repeat split; [lia|].
  destruct (-1 <? procfd); [|reflexivity].
  replace (c + (1 + k)) with (c + 1 + k) by lia. reflexivity.
Qed.

Lemma good_still procfd c s1 s k :
  forallb in_loop s1 = true → count is_lseek s1 = 0 →
  (-1 <? procfd) = false →
  good procfd c s k → good procfd c (s1 ++ s) (1 + k).
Proof.
  intros H1 H0 Hp (Hs & Hk & Hl). unfold good.
  rewrite forallb_app, H1, Hs, count_app, H0, Hl, Hp.
  repeat split; lia.
Qed.

Lemma good_seek procfd c s1 s k :
  forallb in_loop s1 = true → count is_lseek s1 = 1 →
  (-1 <? procfd) = true → c = COUNT_MAX →
  good procfd 0 s k → good procfd c (s1 ++ s) (1 + k).
Proof.
  intros H1 H0 Hp -> (Hs & Hk & Hl). unfold good, COUNT_MAX in *.
  rewrite Hp, Z.add_0_l in Hl.
  rewrite forallb_app, H1, Hs, count_app, H0, Hl, Hp.
  repeat split; [lia|].
  replace (256 + (1 + k)) with (k + 1 * (256 + 1)) by lia.
  rewrite Z.div_add by lia. lia.
Qed.

(** ** Reasoning about runs *)

Section Runs.
Context {double : Type} {D : Double double}.

Lemma wp_bind {A B} (m : @M double A) (k : A → M B) Q st :
  wp (bind m k) Q st = wp m (λ a st', wp (k a) Q st') st.
Proof. unfold wp, bind. destruct (m st) as [[a st']|]; reflexivity. Qed.

Lemma wp_ret {A} (a : A) Q (st : @state double) : wp (ret a) Q st = Q a st.
Proof. reflexivity. Qed.

Lemma wp_ask Q (st : @state double) : wp ask Q st = Q (hd 0 (oracle st)) (pop st).
Proof. reflexivity. Qed.

Lemma wp_emit ev Q (st : @state double) : wp (emit ev) Q st = Q tt (log ev st).
Proof. reflexivity. Qed.

Lemma wp_inc_counter Q (st : @state double) :
  wp inc_counter Q st
  = Q tt (mk_state (rate_ns st) (counter st + 1) (oracle st) (trace st)).
Proof. reflexivity. Qed.

Lemma wp_get_rate_ns Q (st : @state double) : wp get_rate_ns Q st = Q (rate_ns st) st.
Proof. reflexivity. Qed.

Lemma wp_mono {A} (m : @M double A) (Q Q' : A → state → Prop) st :
  wp m Q st → (∀ a st', Q a st' → Q' a st') → wp m Q' st.
Proof. unfold wp. destruct (m st) as [[a st']|]; [|tauto]. auto. Qed.

Lemma oracle_pop (st : @state double) : oracle (pop st) = tail (oracle st).
Proof. reflexivity. Qed.
Lemma oracle_log ev (st : @state double) : oracle (log ev st) = oracle st.
Proof. reflexivity. Qed.
Lemma trace_pop (st : @state double) : trace (pop st) = trace st.
Proof. reflexivity. Qed.
Lemma trace_log ev (st : @state double) : trace (log ev st) = trace st ++ [ev].
Proof. reflexivity. Qed.
Lemma counter_pop (st : @state double) : counter (pop st) = counter st.
Proof. reflexivity. Qed.
Lemma counter_log ev (st : @state double) : counter (log ev st) = counter st.
Proof. reflexivity. Qed.
Lemma rate_pop (st : @state double) : rate_ns (pop st) = rate_ns st.
Proof. reflexivity. Qed.
Lemma rate_log ev (st : @state double) : rate_ns (log ev st) = rate_ns st.
Proof. reflexivity. Qed.

Ltac norm :=
  cbn [oracle trace counter rate_ns fst snd];
  repeat rewrite ?oracle_pop, ?oracle_log, ?trace_pop, ?trace_log,
    ?counter_pop, ?counter_log, ?rate_pop, ?rate_log;
  cbn [oracle trace counter rate_ns fst snd].

Lemma wp_stress_timerfd_set o (Q : itimerspec → state → Prop) st :
  (∀ timer, Q timer (if OPT_FLAGS_TIMERFD_RAND o then pop st else st)) →
  wp (stress_timerfd_set o) Q st.
Proof.
  intros H. unfold stress_timerfd_set, mwc32.
  rewrite wp_bind, wp_get_rate_ns.
  destruct (OPT_FLAGS_TIMERFD_RAND o).
  - rewrite !wp_bind, wp_ask, !wp_ret. apply H.
  - rewrite wp_bind, !wp_ret. apply H.
Qed.

Ltac wp_unfold :=
  unfold g_keep_stressing_flag, keep_stressing, mwc32, pr_fail_err,
    timerfd_create, timerfd_settime, timerfd_gettime, open, select, read,
    lseek, close.

Ltac wp_step :=
  first
    [ rewrite wp_bind | rewrite wp_ret | rewrite wp_ask | rewrite wp_emit
    | rewrite wp_inc_counter | rewrite wp_get_rate_ns
    | apply wp_stress_timerfd_set; intros ?timer;
      try match goal with
          | H : OPT_FLAGS_TIMERFD_RAND _ = _ |- _ => rewrite H
          end
    | match goal with
      | H : ?b = _ |- wp (if ?b then _ else _) _ _ => rewrite H
      | |- wp (if ?b then _ else _) _ _ => destruct b eqn:?
      end ]; norm.

(** One stretch, then another. *)
Lemma reached_quiet procfd c (st : @state double) st1 st' s1 :
  reached procfd c st1 st' →
  trace st1 = trace st ++ s1 → counter st1 = counter st →
  forallb in_loop s1 = true → count is_lseek s1 = 0 →
  reached procfd c st st'.
Proof.
  intros (s & k & Ht' & Hk' & Hg) Ht Hk H1 H0.
  exists (s1 ++ s), k. rewrite Ht', Ht, Hk', Hk, <- app_assoc.
  split; [reflexivity|]. split; [reflexivity|].
  now apply good_quiet.
Qed.

Lemma reached_here procfd c (st : @state double) st1 s1 :
  trace st1 = trace st ++ s1 → counter st1 = counter st →
  forallb in_loop s1 = true → count is_lseek s1 = 0 →
  0 ≤ c ≤ COUNT_MAX →
  reached procfd c st st1.
Proof.
  intros Ht Hk H1 H0 Hc. exists s1, 0. rewrite Ht, Hk.
  split; [reflexivity|]. split; [lia|].
  rewrite <- (app_nil_r s1). apply good_quiet; auto using good_nil.
Qed.

Lemma reached_turn procfd c (st : @state double) st1 st' s1 :
  reached procfd (c + 1) st1 st' →
  trace st1 = trace st ++ s1 → counter st1 = counter st + 1 →
  forallb in_loop s1 = true → count is_lseek s1 = 0 →
  reached procfd c st st'.
Proof.
  intros (s & k & Ht' & Hk' & Hg) Ht Hk H1 H0.
  exists (s1 ++ s), (1 + k). rewrite Ht', Ht, Hk', Hk, <- app_assoc.
  split; [reflexivity|]. split; [lia|].
  now apply good_turn.
Qed.

Lemma reached_still procfd c (st : @state double) st1 st' s1 :
  reached procfd c st1 st' →
  trace st1 = trace st ++ s1 → counter st1 = counter st + 1 →
  forallb in_loop s1 = true → count is_lseek s1 = 0 →
  (-1 <? procfd) = false →
  reached procfd c st st'.
Proof.
  intros (s & k & Ht' & Hk' & Hg) Ht Hk H1 H0 Hp.
  exists (s1 ++ s), (1 + k). rewrite Ht', Ht, Hk', Hk, <- app_assoc.
  split; [reflexivity|]. split; [lia|].
  now apply good_still.
Qed.

Lemma reached_seek procfd c (st : @state double) st1 st' s1 :
  reached procfd 0 st1 st' →
  trace st1 = trace st ++ s1 → counter st1 = counter st + 1 →
  forallb in_loop s1 = true → count is_lseek s1 = 1 →
  (-1 <? procfd) = true → c = COUNT_MAX →
  reached procfd c st st'.
Proof.
  intros (s & k & Ht' & Hk' & Hg) Ht Hk H1 H0 Hp Hc.
  exists (s1 ++ s), (1 + k). rewrite Ht', Ht, Hk', Hk, <- app_assoc.
  split; [reflexivity|]. split; [lia|].
  now apply good_seek.
Qed.

Lemma tail_shorter {A} (l : list A) n :
  (length l < n)%nat → (length (tail l) < n)%nat.
Proof. pose proof (length_tail_le l). lia. Qed.

Lemma tail_of_asked (l : list Z) n :
  negb (negb (hd 0 l =? 0)) = false → (length l < S n)%nat →
  (length (tail l) < n)%nat.
Proof.
  destruct l as [|a l]; cbn; [discriminate|]. lia.
Qed.

Ltac traces :=
  norm; first [rewrite <- ?app_assoc; reflexivity | symmetry; apply app_nil_r].

Ltac bounds :=
  repeat match goal with
         | H : (_ <=? _) = false |- _ => apply Z.leb_gt in H
         | H : (_ <=? _) = true |- _ => apply Z.leb_le in H
         end;
  unfold COUNT_MAX in *; lia.

Ltac joined lem :=
  eapply lem; [traces|norm; reflexivity|reflexivity|reflexivity|..].

Ltac joined_to lem Hr :=
  eapply (lem _ _ _ _ _ _ Hr); [traces|norm; reflexivity|reflexivity|reflexivity|..].

Lemma body_spec test o timerfd procfd n :
  (∀ c st, (length (oracle st) < n)%nat → 0 ≤ c ≤ COUNT_MAX →
           wp (test c) (λ _, reached procfd c st) st) →
  ∀ c st, (length (oracle st) < S n)%nat → 0 ≤ c ≤ COUNT_MAX →
          wp (loop_body test o timerfd procfd c) (λ _, reached procfd c st) st.
Proof.
  intros Htest c st Hlen Hc.
  unfold loop_body. wp_unfold.
  repeat wp_step.
  all: try match goal with
       | H : negb (negb (hd 0 (oracle ?s) =? 0)) = false,
         H' : (length (oracle ?s) < S _)%nat |- _ =>
           pose proof (tail_of_asked _ _ H H')
       end.
  all: try (rewrite (wrap_int_small (c + 1)) by bounds).
  all: try (joined reached_here; assumption).
  all: eapply wp_mono;
         [apply Htest; [norm; solve [repeat first [assumption|apply tail_shorter]]
                       |bounds]
         |intros ? st' Hr; cbv beta in Hr |- *;
          first [ joined_to reached_quiet Hr
                | joined_to reached_turn Hr
                | joined_to reached_still Hr; assumption
                | joined_to reached_seek Hr; [assumption|bounds] ]].
Qed.

Lemma loop_spec o timerfd procfd fuel : ∀ c st,
  (length (oracle st) < fuel)%nat → 0 ≤ c ≤ COUNT_MAX →
  wp (timerfd_loop fuel o timerfd procfd c) (λ _, reached procfd c st) st.
Proof.
  induction fuel as [|fuel IH]; intros c st Hlen Hc; [lia|].
  cbn [timerfd_loop]. apply (body_spec _ _ _ _ fuel); [|exact Hlen|exact Hc].
  clear c st Hlen Hc. intros c st Hlen Hc.
  unfold loop_test. wp_unfold. repeat wp_step.
  - eapply wp_mono; [apply IH; [norm; now apply tail_shorter|exact Hc]|].
    intros ? st' Hr. cbv beta in Hr |- *. joined_to reached_quiet Hr.
  - joined reached_here. exact Hc.
Qed.

Lemma nth_1 (l : list Z) : nth 1 l 0 = hd 0 (tail l).
Proof. destruct l as [|? [|]]; reflexivity. Qed.

Lemma nth_2 (l : list Z) : nth 2 l 0 = hd 0 (tail (tail l)).
Proof. destruct l as [|? [|? [|]]]; reflexivity. Qed.

Lemma wp_set_rate_ns v Q (st : @state double) :
  wp (set_rate_ns v) Q st
  = Q tt (mk_state v (counter st) (oracle st) (trace st)).
Proof. reflexivity. Qed.

Lemma run_spec fuel cfg o args st :
  (length (oracle st) < fuel)%nat →
  wp (stress_timerfd fuel cfg o args) (run_post o args st) st.
Proof.
  intros Hlen. unfold stress_timerfd, run_post, arming_answer. cbv zeta.
  rewrite wp_bind, wp_set_rate_ns.
  match goal with |- context [mk_state ?v _ _ _] => generalize v end.
  intros rate. wp_unfold.
  destruct (OPT_FLAGS_TIMERFD_RAND o) eqn:Hrand;
    rewrite ?nth_1, ?nth_2; repeat wp_step.
  all: repeat match goal with
         | H : (_ <? _) = true |- _ => apply Z.ltb_lt in H
         | H : (_ <? _) = false |- _ => apply Z.ltb_ge in H
         end.
  all: try (left; repeat split; [assumption|norm; traces]).
  all: try (right; left; repeat split; [assumption|assumption|];
            eexists; norm; traces).
  all: (eapply wp_mono;
         [apply loop_spec;
          [norm; solve [repeat first [assumption|apply tail_shorter]]|bounds]|]).
  all: intros ? st' (s & k & Ht & Hk & Hg); cbv beta.
  all: repeat wp_step.
  all: right; right; repeat split; try assumption.
  all: eexists _, _, s, k.
  all: (split; [norm; rewrite Hk; norm; reflexivity|]).
  all: (split; [exact Hg|]).
  all: norm; rewrite Ht; norm.
  all: rewrite <- ?app_assoc; cbn [app].
  all: match goal with H : (-1 <? _) = _ |- _ => rewrite H end; reflexivity.
Qed.

Lemma in_loop_others s :
  forallb in_loop s = true →
  count is_close s = 0 ∧ count is_open s = 0 ∧ existsb is_opened s = false
  ∧ ∀ f fd, ¬ In (EvOpen f fd) s.
Proof.
  induction s as [|ev s IH]; intros H.
  - repeat split; try reflexivity. intros f fd [].
  - cbn [forallb] in H. apply andb_prop in H as [Hev Hs].
    destruct (IH Hs) as (H1 & H2 & H3 & H4).
    unfold count in *.
    destruct ev; try discriminate Hev; cbn [List.filter is_close is_open
      existsb is_opened orb]; (repeat split; [assumption..|]);
      intros f fd' [E|Hin]; try discriminate E; exact (H4 _ _ Hin).
Qed.

Lemma run_total fuel cfg o args st :
  (length (oracle st) < fuel)%nat →
  ∃ rc st', stress_timerfd fuel cfg o args st = Some (rc, st') ∧
    run_post o args st rc st'.
Proof.
  intros Hlen. pose proof (run_spec fuel cfg o args st Hlen) as H.
  unfold wp in H.
  destruct (stress_timerfd fuel cfg o args st) as [[rc st']|]; [|contradiction].
  eauto.
Qed.

(** X4.  With enough turns for the answers the environment has, the
    stressor returns, and it reports failure exactly when the timer
    descriptor could not be created or the timer could not be armed before
    the loop.  An error inside the loop ([select], the read of the expiry
    count, [timerfd_gettime], the re-arming) ends the loop but leaves the
    exit status at success.  A run that fails never waits on the timer and
    counts nothing. *)
Theorem timerfd_fails_only_before_the_loop
    (cfg : config) (o : opt_flags) (args : args_t) (st : state) (fuel : nat) :
  (length (oracle st) < fuel)%nat →
  ∃ rc st', stress_timerfd fuel cfg o args st = Some (rc, st') ∧
    (rc = EXIT_SUCCESS ∨ rc = EXIT_FAILURE) ∧
    (rc = EXIT_FAILURE ↔
     wrap_int (hd 0 (oracle st)) < 0 ∨ arming_answer o st < 0) ∧
    (rc = EXIT_FAILURE →
     counter st' = counter st ∧
     ∃ s, trace st' = trace st ++ s ∧ count is_select s = 0).
Proof.
  intros Hlen.
  destruct (run_total fuel cfg o args st Hlen) as (rc & st' & E & Hpost).
  exists rc, st'. split; [exact E|].
  unfold EXIT_SUCCESS, EXIT_FAILURE in *.
  destruct Hpost as [(Hfd & -> & Hk & Ht)|[(Hfd & Harm & -> & Hk & timer & Ht)
    |(Hfd & Harm & -> & _)]].
  - split; [auto|]. split; [tauto|]. intros _. split; [exact Hk|].
    eexists. split; [exact Ht|reflexivity].
  - split; [auto|]. split; [tauto|]. intros _. split; [exact Hk|].
    eexists. split; [exact Ht|reflexivity].
  - split; [auto|]. split; [|discriminate].
    split; [discriminate|]. lia.
Qed.

(** X5.  The stressor closes what it opened, once: every run ends by
    closing the timer descriptor (also when [timerfd_create] failed and
    the descriptor is negative), then the fdinfo descriptor exactly when
    its [open] succeeded; nothing is closed before that, and the fdinfo
    file is opened at most once. *)
Theorem timerfd_closes_its_descriptors
    (cfg : config) (o : opt_flags) (args : args_t) (st : state) (fuel : nat) :
  (length (oracle st) < fuel)%nat →
  ∃ rc st' pre closing,
    stress_timerfd fuel cfg o args st = Some (rc, st') ∧
    trace st' = trace st ++ pre
                ++ EvClose (wrap_int (hd 0 (oracle st))) :: closing ∧
    count is_close pre = 0 ∧ count is_open pre ≤ 1 ∧
    ((closing = [] ∧ ∀ f fd, In (EvOpen f fd) pre → fd ≤ -1)
     ∨ (∃ f fd, closing = [EvClose fd] ∧ -1 < fd ∧ In (EvOpen f fd) pre)).
Proof.
  intros Hlen.
  destruct (run_total fuel cfg o args st Hlen) as (rc & st' & E & Hpost).
  exists rc, st'.
  destruct Hpost as [(Hfd & -> & Hk & Ht)|[(Hfd & Harm & -> & Hk & timer & Ht)
    |(Hfd & Harm & -> & timer & procfd & s & k & Hk & Hg & Ht)]].
  - eexists [_; _], []. split; [exact E|]. split; [exact Ht|].
    split; [reflexivity|]. split; [unfold count; cbn; lia|]. left.
    split; [reflexivity|]. intros f fd [H|[H|[]]]; discriminate H.
  - eexists [_; _; _], []. split; [exact E|]. split; [exact Ht|].
    split; [reflexivity|]. split; [unfold count; cbn; lia|]. left.
    split; [reflexivity|]. intros f fd [H|[H|[H|[]]]]; discriminate H.
  - destruct Hg as (Hs & _ & _).
    destruct (in_loop_others s Hs) as (Hc & Ho & _ & Hin).
    eexists ([_; _; _] ++ s), _. split; [exact E|].
    split; [rewrite Ht, <- !app_assoc; reflexivity|].
    split; [rewrite count_app, Hc; reflexivity|].
    split; [rewrite count_app, Ho; unfold count; cbn; lia|].
    destruct (Z.ltb_spec (-1) procfd) as [Hp|Hp].
    + right. eexists _, procfd. split; [reflexivity|]. split; [exact Hp|].
      apply in_or_app. left. right. right. left. reflexivity.
    + left. split; [reflexivity|]. intros f fd Hf.
      apply in_app_or in Hf as [[H|[H|[H|[]]]]|Hf]; try discriminate H.
      * injection H as _ <-. lia.
      * destruct (Hin _ _ Hf).
Qed.

(** X6.  The fdinfo file is looked at once every [COUNT_MAX + 1] = 257
    counted turns of the loop, not every 256: over a whole run the number
    of seeks in it is the number of turns counted divided by 257, rounded
    down, when the file could be opened, and none when it could not. *)
Theorem fdinfo_is_read_every_257th_turn
    (cfg : config) (o : opt_flags) (args : args_t) (st : state) (fuel : nat) :
  (length (oracle st) < fuel)%nat →
  ∃ rc st' s,
    stress_timerfd fuel cfg o args st = Some (rc, st') ∧
    trace st' = trace st ++ s ∧ counter st ≤ counter st' ∧
    count is_lseek s
    = if existsb is_opened s
      then (counter st' - counter st) / (COUNT_MAX + 1)
      else 0.
Proof.
  intros Hlen.
  destruct (run_total fuel cfg o args st Hlen) as (rc & st' & E & Hpost).
  exists rc, st'.
  destruct Hpost as [(Hfd & -> & Hk & Ht)|[(Hfd & Harm & -> & Hk & timer & Ht)
    |(Hfd & Harm & -> & timer & procfd & s & k & Hk & Hg & Ht)]].
  - eexists. split; [exact E|]. split; [exact Ht|]. split; [lia|]. reflexivity.
  - eexists. split; [exact E|]. split; [exact Ht|]. split; [lia|]. reflexivity.
  - destruct Hg as (Hs & Hk0 & Hl).
    destruct (in_loop_others s Hs) as (_ & _ & Hop & _).
    eexists. split; [exact E|]. split; [exact Ht|]. split; [lia|].
    rewrite !count_app, Hl.
    rewrite !existsb_app, Hop.
    replace (counter st' - counter st) with (0 + k) by lia.
    cbn [existsb is_opened orb].
    destruct (-1 <? procfd); unfold count; cbn; lia.
Qed.

End Runs.

Lemma timerfd_fails_only_before_the_loop_witness :
  ∃ rc st',
    stress_timerfd 20 example_config plain_flags example_args example_run
    = Some (rc, st') ∧
    (rc = EXIT_SUCCESS ∨ rc = EXIT_FAILURE) ∧
    (rc = EXIT_FAILURE ↔
     wrap_int (hd 0 (oracle example_run)) < 0
     ∨ arming_answer plain_flags example_run < 0) ∧
    (rc = EXIT_FAILURE →
     counter st' = counter example_run ∧
     ∃ s, trace st' = trace example_run ++ s ∧ count is_select s = 0).
Proof.
  apply (timerfd_fails_only_before_the_loop example_config plain_flags
           example_args example_run 20).
  cbn. lia.
Defined.

Lemma timerfd_closes_its_descriptors_witness :
  ∃ rc st' pre closing,
    stress_timerfd 20 example_config plain_flags example_args example_run
    = Some (rc, st') ∧
    trace st' = trace example_run ++ pre
                ++ EvClose (wrap_int (hd 0 (oracle example_run))) :: closing ∧
    count is_close pre = 0 ∧ count is_open pre ≤ 1 ∧
    ((closing = [] ∧ ∀ f fd, In (EvOpen f fd) pre → fd ≤ -1)
     ∨ (∃ f fd, closing = [EvClose fd] ∧ -1 < fd ∧ In (EvOpen f fd) pre)).
Proof.
  apply (timerfd_closes_its_descriptors example_config plain_flags
           example_args example_run 20).
  cbn. lia.
Defined.

Lemma fdinfo_is_read_every_257th_turn_witness :
  ∃ rc st' s,
    stress_timerfd 20 example_config plain_flags example_args example_run
    = Some (rc, st') ∧
    trace st' = trace example_run ++ s ∧
    counter example_run ≤ counter st' ∧
    count is_lseek s
    = if existsb is_opened s
      then (counter st' - counter example_run) / (COUNT_MAX + 1)
      else 0.
Proof.
  apply (fdinfo_is_read_every_257th_turn example_config plain_flags
           example_args example_run 20).
  cbn. lia.
Defined.

(** The example run in full: the default frequency of 1 MHz gives a timer
    of 1000ns; two expiries are counted; the failed [select] is reported
    and the stressor still returns success, with both descriptors closed. *)
Example timerfd_example_run :
  stress_timerfd 20 example_config plain_flags example_args example_run
  = Some (EXIT_SUCCESS,
          mk_state (b64_of_Z 1000) 2 []
            (let timer := mk_itimerspec (mk_timespec 0 1000)
                                        (mk_timespec 0 1000) in
             [EvTimerfdCreate 3; EvSettime 3 timer 0;
              EvOpen "/proc/4242/fdinfo/3" 4;
              EvSelect 4 500000 1; EvRead 3 8 8; EvGettime 3 0;
              EvSelect 4 500000 1; EvRead 3 8 8; EvGettime 3 0;
              EvSelect 4 500000 (-1); EvFail "select";
              EvClose 3; EvClose 4])).
Proof. vm_compute. reflexivity. Qed.

End TimerFdFacts.
